(** * photo-mvp: the face matching core

    A shallow embedding of the similarity primitive ([lib/similarity.ts] and
    the two local variants of [app/find/find-client.tsx]), of the embedding
    adapter ([lib/faceServer.ts], [app/api/embed/route.ts]) and of the
    progressive matcher ([runMatching] in [app/find/find-client.tsx]);
    then of what surrounds them: the image proxy ([app/api/img/route.tsx]),
    the upload page ([app/admin/upload/UploadClient.tsx]) with its queue,
    its compression and its file names, the ingest page, the paths of the
    cloud functions, the lightbox and the moments of the event page.

    JavaScript numbers are kept behind an interface, [JSNumber], so that each
    function is written once, the way the source writes it, and can be run
    on IEEE binary64 ([Float64], the arithmetic the program really uses) or
    read over exact extended reals ([Exact], no rounding, no overflow). *)

From Stdlib Require Import Floats.
From Stdlib Require Import ZArith List Bool Reals Lra Lia String Ascii DecimalString Sorted.
From stdpp Require Import base list option.
From stdpp Require sorting.

Set Default Proof Using "Type".
Set Warnings "-register-all".
Set Warnings "-abstract-large-number".
Local Open Scope nat_scope.

(** ** Numbers *)

Class JSNumber : Type := {
  num : Type;
  nzero : num;                    (* the literal 0 *)
  nminus1 : num;                  (* the literal -1 *)
  nepsilon : num;                 (* the literal 1e-10 *)
  nNaN : num;                     (* NaN, what [undefined] is in arithmetic *)
  nadd : num -> num -> num;
  nsub : num -> num -> num;
  nmul : num -> num -> num;
  ndiv : num -> num -> num;
  nsqrt : num -> num;             (* Math.sqrt *)
  isFinite : num -> bool;         (* Number.isFinite *)
  truthy : num -> bool;           (* ToBoolean of a number: not 0, not NaN *)
  ngt : num -> num -> bool;       (* x > y *)
  nge : num -> num -> bool;       (* x >= y *)
  nofNat : nat -> num;            (* a length or a status code as a number *)
}.

(** A number that is finite and falsy is a zero (of either sign). *)
Definition isZero {N : JSNumber} (x : num) : bool := isFinite x && negb (truthy x).

(** What the proofs need from the arithmetic.  [NumberZeroLaws] is about
    zero only; [NumberOrderLaws] says that the comparisons form a total
    preorder on the numbers that pass [>= 0] and that the sign of a
    difference agrees with [>]. *)
Class NumberZeroLaws (N : JSNumber) : Prop := {
  mul_zero_l : forall x y : num, isZero x = true -> truthy (nmul x y) = false;
  mul_zero_r : forall x y : num, isZero y = true -> truthy (nmul x y) = false;
  gt_zero_not_ge : forall x : num, ngt nzero x = true -> nge x nzero = false;
}.

Class NumberOrderLaws (N : JSNumber) : Prop := {
  ge_total : forall x y : num,
    nge x nzero = true -> nge y nzero = true -> ngt x y = negb (nge y x);
  ge_connex : forall x y : num,
    nge x nzero = true -> nge y nzero = true -> nge x y || nge y x = true;
  ge_trans : forall x y z : num,
    nge x y = true -> nge y z = true -> nge x z = true;
  gt_sub : forall x y : num, ngt (nsub x y) nzero = ngt x y;
}.

(** *** IEEE binary64 *)

Definition float_truthy (x : float) : bool :=
  negb (PrimFloat.is_zero x || PrimFloat.is_nan x).

#[export] Instance Float64 : JSNumber := {|
  num := float;
  nzero := 0%float;
  nminus1 := (-1)%float;
  nepsilon := 0x1.b7cdfd9d7bdbbp-34%float;
  nNaN := PrimFloat.nan;
  nadd := PrimFloat.add;
  nsub := PrimFloat.sub;
  nmul := PrimFloat.mul;
  ndiv := PrimFloat.div;
  nsqrt := PrimFloat.sqrt;
  isFinite := PrimFloat.is_finite;
  truthy := float_truthy;
  ngt := fun x y => PrimFloat.ltb y x;
  nge := fun x y => PrimFloat.leb y x;
  nofNat := fun n => PrimFloat.of_uint63 (Uint63.of_Z (Z.of_nat n));
|}.

(** *** Exact extended reals *)

Inductive xreal : Type :=
| XR (r : R)
| XNaN
| XInf (negative : bool).

Definition Rsign_neg (r : R) : bool := if Rlt_dec r 0 then true else false.
Definition Ris_zero (r : R) : bool := if Req_dec_T r 0 then true else false.

Definition xadd (x y : xreal) : xreal :=
  match x, y with
  | XNaN, _ | _, XNaN => XNaN
  | XR a, XR b => XR (a + b)
  | XInf s, XR _ | XR _, XInf s => XInf s
  | XInf s, XInf t => if Bool.eqb s t then XInf s else XNaN
  end.

Definition xopp (x : xreal) : xreal :=
  match x with
  | XR a => XR (- a)
  | XNaN => XNaN
  | XInf s => XInf (negb s)
  end.

Definition xsub (x y : xreal) : xreal := xadd x (xopp y).

Definition xmul (x y : xreal) : xreal :=
  match x, y with
  | XNaN, _ | _, XNaN => XNaN
  | XR a, XR b => XR (a * b)
  | XInf s, XR r | XR r, XInf s =>
      if Ris_zero r then XNaN else XInf (xorb s (Rsign_neg r))
  | XInf s, XInf t => XInf (xorb s t)
  end.

Definition xdiv (x y : xreal) : xreal :=
  match x, y with
  | XNaN, _ | _, XNaN => XNaN
  | XR a, XR b =>
      if Ris_zero b then (if Ris_zero a then XNaN else XInf (Rsign_neg a))
      else XR (a / b)
  | XR _, XInf _ => XR 0
  | XInf s, XR r => XInf (xorb s (Rsign_neg r))
  | XInf _, XInf _ => XNaN
  end.

Definition xsqrt (x : xreal) : xreal :=
  match x with
  | XR a => if Rsign_neg a then XNaN else XR (R_sqrt.sqrt a)
  | XNaN => XNaN
  | XInf s => if s then XNaN else XInf false
  end.

Definition xfinite (x : xreal) : bool :=
  match x with XR _ => true | _ => false end.

Definition xtruthy (x : xreal) : bool :=
  match x with
  | XR a => negb (Ris_zero a)
  | XNaN => false
  | XInf _ => true
  end.

Definition xgt (x y : xreal) : bool :=
  match x, y with
  | XNaN, _ | _, XNaN => false
  | XR a, XR b => if Rlt_dec b a then true else false
  | XInf s, XR _ => negb s
  | XR _, XInf s => s
  | XInf s, XInf t => negb s && t
  end.

Definition xge (x y : xreal) : bool :=
  match x, y with
  | XNaN, _ | _, XNaN => false
  | XR a, XR b => if Rle_dec b a then true else false
  | XInf s, XR _ => negb s
  | XR _, XInf s => s
  | XInf s, XInf t => negb s || t
  end.

#[export] Instance Exact : JSNumber := {|
  num := xreal;
  nzero := XR 0;
  nminus1 := XR (-1);
  nepsilon := XR (1 / 10000000000);
  nNaN := XNaN;
  nadd := xadd;
  nsub := xsub;
  nmul := xmul;
  ndiv := xdiv;
  nsqrt := xsqrt;
  isFinite := xfinite;
  truthy := xtruthy;
  ngt := xgt;
  nge := xge;
  nofNat := fun n => XR (INR n);
|}.

(** ** Values

    The values that can reach the code from JSON bodies and from the
    document store.  On these the built-in coercion [Number(v)] always
    returns; it is taken as a parameter ([ToNumber]) of the functions that
    call it. *)

Section Values.
Context {N : JSNumber}.

Inductive jsval : Type :=
| JUndefined
| JNull
| JBool (b : bool)
| JNumber (x : num)
| JString (s : string)
| JArray (items : list jsval)
| JObject (fields : list (string * jsval)).

(** [Array.isArray(v)], returning the elements. *)
Definition asArray (v : jsval) : option (list jsval) :=
  match v with JArray items => Some items | _ => None end.

Definition isArray (v : jsval) : bool :=
  match v with JArray _ => true | _ => false end.

(** [v.k] on a value; [undefined] when the property is missing, also on
    primitives.  [getOpt] is [v?.k]: it is the same except that the plain
    access throws on [undefined] and [null]. *)
Fixpoint lookupField (k : string) (fields : list (string * jsval)) : jsval :=
  match fields with
  | [] => JUndefined
  | (k', v) :: rest => if String.eqb k k' then v else lookupField k rest
  end.

Definition getOpt (v : jsval) (k : string) : jsval :=
  match v with
  | JObject fields => lookupField k fields
  | _ => JUndefined
  end.

(** ToBoolean. *)
Definition jsTruthy (v : jsval) : bool :=
  match v with
  | JUndefined | JNull => false
  | JBool b => b
  | JNumber x => truthy x
  | JString s => negb (String.eqb s EmptyString)
  | JArray _ | JObject _ => true
  end.
End Values.

Arguments jsval {N}.

(** ** Vector math *)

Section Similarity.
Context {N : JSNumber}.

(** The built-in [Number(v)]. *)
Variable ToNumber : jsval -> num.

(** The loop of [lib/similarity.ts]: [None] is the early [return 0] at the
    first index with a non-finite element. *)
Fixpoint accumulate (a b : list num) (dot na nb : num) : option (num * num * num) :=
  match a, b with
  | x :: a', y :: b' =>
      if negb (isFinite x) || negb (isFinite y) then None
      else accumulate a' b' (nadd dot (nmul x y)) (nadd na (nmul x x)) (nadd nb (nmul y y))
  | _, _ => Some (dot, na, nb)
  end.

(** [cosineSimilarity] of [lib/similarity.ts]. *)
Definition cosineSimilarity (aRaw bRaw : jsval) : num :=
  match asArray aRaw, asArray bRaw with
  | Some aItems, Some bItems =>
      let a := map ToNumber aItems in
      let b := map ToNumber bItems in
      if (length a =? 0) || (length b =? 0) then nzero
      else if negb (length a =? length b) then nzero
      else
        match accumulate a b nzero nzero nzero with
        | None => nzero
        | Some (dot, na, nb) =>
            let denom := nmul (nsqrt na) (nsqrt nb) in
            if truthy denom then ndiv dot denom else nzero
        end
  | _, _ => nzero
  end.

(** The loop shared by the two variants of [find-client.tsx]: it runs over
    the indices of [a] and reads [b[i]], which is [undefined] (NaN in the
    products) past the end of [b]. *)
Fixpoint sums (a b : list num) (dot na nb : num) : num * num * num :=
  match a with
  | [] => (dot, na, nb)
  | x :: a' =>
      let y := match b with [] => nNaN | y :: _ => y end in
      sums a' (tl b) (nadd dot (nmul x y)) (nadd na (nmul x x)) (nadd nb (nmul y y))
  end.

(** [cosineSimilarity] of the face-api variant of [find-client.tsx], on
    two [Float32Array]s. *)
Definition cosineSimilarity_faceapi (a b : list num) : num :=
  let '(dot, na, nb) := sums a b nzero nzero nzero in
  ndiv dot (nadd (nmul (nsqrt na) (nsqrt nb)) nepsilon).

(** [cosineSimilarity] of the embedding variant of [find-client.tsx]; the
    arguments are [number[]] or missing ([a?.length]). *)
Definition cosineSimilarity_embedding (a b : option (list num)) : num :=
  match a, b with
  | Some a, Some b =>
      if (length a =? 0) || (length b =? 0) || negb (length a =? length b) then nzero
      else
        let '(dot, na, nb) := sums a b nzero nzero nzero in
        let denom := nmul (nsqrt na) (nsqrt nb) in
        if truthy denom then ndiv dot denom else nzero
  | _, _ => nzero
  end.

(** The quantities the specification names. *)
Definition dotProduct (a b : list num) : num :=
  fold_left (fun acc xy => nadd acc (nmul (fst xy) (snd xy))) (combine a b) nzero.

Definition sumSquares (a : list num) : num :=
  fold_left (fun acc x => nadd acc (nmul x x)) a nzero.

Definition norm (a : list num) : num := nsqrt (sumSquares a).

Definition allFinite (a : list num) : bool := forallb isFinite a.
End Similarity.

(** ** The embedding adapter

    Payloads are built as the source builds them; the texts of the error
    messages, some of them Korean in the source, are given in English. *)

Section Adapter.
Context {N : JSNumber}.
Local Open Scope string_scope.

(** The built-ins [JSON.parse] ([None]: it throws) and [Number]. *)
Variable JSONparse : string -> option jsval.
Variable ToNumber : jsval -> num.

(** What [fetch] to the face server gives: it rejects, or it resolves with
    a status and a body. *)
Inductive providerOutcome : Type :=
| FetchRejects (message : string)
| Responds (status : nat) (text : string).

(** [Response.ok]: the status is in the range 200-299. *)
Definition statusOk (status : nat) : bool := ((200 <=? status) && (status <=? 299))%nat.

(** What the route sends back: [NextResponse.json(payload, {status})]. *)
Record apiResponse : Type := { apiStatus : nat; apiPayload : jsval }.

(** The request the route receives. *)
Record embedRequest : Type := {
  hasBase : bool;          (* FACE_SERVER_URL is configured *)
  isMultipart : bool;      (* content-type includes multipart/form-data *)
  fileIsFile : bool;       (* form.get("file") instanceof File *)
}.

(** [v.k] where [v] may be [null] or [undefined]: [None] is the TypeError. *)
Definition getStrict (v : jsval) (k : string) : option jsval :=
  match v with
  | JUndefined | JNull => None
  | _ => Some (getOpt v k)
  end.

(** [Array.isArray(e) && e.length > 0]. *)
Definition nonEmptyArray (e : jsval) : bool :=
  match e with JArray (_ :: _) => true | _ => false end.

(** [faces.find((f) => Array.isArray(f.embedding) && f.embedding.length > 0)]:
    the first face that passes, [Some None] when none does, [None] when the
    callback throws on a [null] entry before a face passes. *)
Fixpoint findFace (faces : list jsval) : option (option jsval) :=
  match faces with
  | [] => Some None
  | f :: rest =>
      match getStrict f "embedding" with
      | None => None
      | Some e => if nonEmptyArray e then Some (Some f) else findFace rest
      end
  end.

Definition jsonError (status : nat) (fields : list (string * jsval)) : apiResponse :=
  {| apiStatus := status; apiPayload := JObject (("ok", JBool false) :: fields) |}.

(** [POST] of [app/api/embed/route.ts]. *)
Definition POST (req : embedRequest) (provider : providerOutcome) : apiResponse :=
  if negb (hasBase req) then
    jsonError 500 [("error", JString "FACE_SERVER_URL missing")]
  else if isMultipart req then
    if negb (fileIsFile req) then
      jsonError 400 [("error", JString "multipart/form-data file field required")]
    else
      match provider with
      | FetchRejects message => jsonError 500 [("error", JString message)]
      | Responds status text =>
          match JSONparse text with
          | None =>
              jsonError 502 [("error", JString "face-server JSON parse failed");
                             ("raw", JString text)]
          | Some data =>
              if negb (statusOk status) then
                jsonError 502 [("error", JString "face-server error");
                               ("status", JNumber (nofNat status)); ("data", data)]
              else
                let faces :=
                  match getOpt data "faces" with JArray fs => fs | _ => [] end in
                match findFace faces with
                | None => jsonError 500 [("error", JString "TypeError")]
                | Some best =>
                    let embedding :=
                      match best with
                      | Some f => if jsTruthy (getOpt f "embedding")
                                  then getOpt f "embedding" else JNull
                      | None => JNull
                      end in
                    {| apiStatus := 200;
                       apiPayload := JObject
                         [("ok", JBool true);
                          ("faces_count", JNumber (nofNat (length faces)));
                          ("faces", JArray faces);
                          ("embedding", embedding);
                          ("message", JString (if (length faces =? 0)%nat then "NO_FACE" else "OK"))] |}
                end
          end
      end
  else
    jsonError 400 [("error", JString "unsupported request format")].

(** The older [POST] of [app/api/embed/route.ts], which forwards the
    provider's body under [data] and wraps an unparseable body as [{raw}]. *)
Definition POST_legacy (req : embedRequest) (provider : providerOutcome) : apiResponse :=
  if negb (hasBase req) then
    jsonError 500 [("error", JString "FACE_SERVER_URL missing")]
  else if negb (fileIsFile req) then
    jsonError 400 [("error", JString "multipart/form-data file field required")]
  else
    match provider with
    | FetchRejects message => jsonError 500 [("error", JString message)]
    | Responds status text =>
        let data :=
          match JSONparse text with
          | Some data => data
          | None => JObject [("raw", JString text)]
          end in
        if negb (statusOk status) then
          jsonError 502 [("status", JNumber (nofNat status)); ("data", data)]
        else
          {| apiStatus := 200; apiPayload := JObject [("ok", JBool true); ("data", data)] |}
    end.

(** *** The client with result codes ([EmbedResult] and [embedFace] of the
    later [lib/faceServer.ts]) *)

Inductive failCode : Type := NO_FACE | NETWORK | SERVER | UNKNOWN.

Inductive EmbedResult : Type :=
| EmbedOk (embedding : list num)
| EmbedFail (code : failCode).

(** [embedFace] after the call to [/api/embed] has resolved with [res];
    [inputOk] is whether [toBlob] accepted the input. *)
Definition embedFace (inputOk : bool) (res : apiResponse) : EmbedResult :=
  if negb inputOk then EmbedFail UNKNOWN
  else if negb (statusOk (apiStatus res)) then EmbedFail SERVER
  else
    match getStrict (apiPayload res) "ok" with
    | None => EmbedFail UNKNOWN
    | Some ok =>
        if negb (jsTruthy ok) then EmbedFail SERVER
        else
          match getOpt (apiPayload res) "embedding" with
          | JArray (e :: es) =>
              let emb := filter (fun x => isFinite x = true) (map ToNumber (e :: es)) in
              if (length emb =? 0)%nat then EmbedFail NO_FACE else EmbedOk emb
          | _ => EmbedFail NO_FACE
          end
    end.

(** A well-formed upload to the route. *)
Definition upload : embedRequest :=
  {| hasBase := true; isMultipart := true; fileIsFile := true |}.

(** The list the route works on: [Array.isArray(data?.faces) ? data.faces : []]. *)
Definition facesOf (data : jsval) : list jsval :=
  match getOpt data "faces" with JArray fs => fs | _ => [] end.

(** [Array.isArray(f.embedding) && f.embedding.length > 0] on a face that
    is not [null]. *)
Definition carriesEmbedding (f : jsval) : bool := nonEmptyArray (getOpt f "embedding").

Definition isNullish (v : jsval) : bool :=
  match v with JUndefined | JNull => true | _ => false end.

(** A listed face that [find] passes over: it is not [null] and carries no
    non-empty embedding array. *)
Definition skipped (g : jsval) : Prop := isNullish g = false /\ carriesEmbedding g = false.

(** *** What crosses from the route to its caller

    [NextResponse.json(payload)] sends the text [JSON.stringify(payload)],
    and the caller reads it back with [JSON.parse] ([res.json()], or
    [JSON.parse(await res.text())]).  A number that is not finite is
    written [null] and a zero of either sign [0]; [undefined] is written
    [null] in an array, and a property whose value is [undefined] is left
    out; every other value comes back as it was.  (A payload is an object,
    never [undefined] itself.) *)
Fixpoint viaJSON (v : jsval) : jsval :=
  match v with
  | JUndefined | JNull => JNull
  | JBool b => JBool b
  | JNumber x => if isFinite x then JNumber (if truthy x then x else nzero) else JNull
  | JString s => JString s
  | JArray items => JArray (map viaJSON items)
  | JObject fields =>
      JObject
        ((fix sent (fs : list (string * jsval)) : list (string * jsval) :=
            match fs with
            | [] => []
            | (k, JUndefined) :: rest => sent rest
            | (k, v) :: rest => (k, viaJSON v) :: sent rest
            end) fields)
  end.

(** The answer as the caller receives it. *)
Definition received (res : apiResponse) : apiResponse :=
  {| apiStatus := apiStatus res; apiPayload := viaJSON (apiPayload res) |}.

(** The entries of the embedding of the face [f] that are finite numbers
    once they have crossed as JSON and been through [Number]: what the
    caller keeps of it. *)
Definition usableEntries (f : jsval) : list num :=
  match getOpt f "embedding" with
  | JArray items => filter (fun x => isFinite x = true) (map ToNumber (map viaJSON items))
  | _ => []
  end.

(** The adapter end to end: the route called by the client. *)
Definition resolveDescriptor (provider : providerOutcome) : EmbedResult :=
  embedFace true (received (POST upload provider)).

(** *** The earlier client ([embedFace] of [lib/faceServer.ts]), which
    throws; the three errors differ by their message. *)

Inductive embedFaceV1Result : Type :=
| V1Embedding (emb : list jsval)
| V1ApiError            (* !res.ok || !json?.ok *)
| V1NoFace              (* faces=[] *)
| V1NoEmbeddingArray.   (* "No embedding array in response" *)

(** [faces?.[0]]. *)
Definition firstOf (faces : jsval) : jsval :=
  match faces with
  | JArray (f :: _) => f
  | JObject fields => lookupField "0" fields
  | JString (String c _) => JString (String c EmptyString)
  | _ => JUndefined
  end.

(** [body] is [JSON.parse] of the response text, [None] when it throws (the
    source then leaves [json] at [null]). *)
Definition embedFace_v1 (status : nat) (body : option jsval) : embedFaceV1Result :=
  let json := match body with Some j => j | None => JNull end in
  if negb (statusOk status) || negb (jsTruthy (getOpt json "ok")) then V1ApiError
  else
    let faces := getOpt (getOpt json "data") "faces" in
    let emb := getOpt (firstOf faces) "embedding" in
    match emb with
    | JArray items => V1Embedding items
    | _ =>
        match faces with
        | JArray [] => V1NoFace
        | _ => V1NoEmbeddingArray
        end
    end.

(** The earlier adapter end to end: the earlier route called by the earlier
    client. *)
Definition resolveDescriptor_v1 (provider : providerOutcome) : embedFaceV1Result :=
  let res := received (POST_legacy upload provider) in
  embedFace_v1 (apiStatus res) (Some (apiPayload res)).
End Adapter.

(** ** Sorting by score

    [arr.sort((a, b) => b.score - a.score)].  [Array.prototype.sort] is
    stable; it is modelled by the stable insertion sort, which is what any
    stable sort computes when the comparator is consistent, that is, when
    no score is NaN.  With a NaN score the comparator is not consistent and
    the order of the result is the engine's own, which the insertion sort
    does not give: what is proved of the order is proved for scores that
    are numbers. *)

Section Sorting.
Context {N : JSNumber} {A : Type}.
Variable score : A -> num.

(** The comparator [(a, b) => b.score - a.score]: positive when [a] has to
    come after [b]. *)
Definition byScoreDesc (a b : A) : num := nsub (score b) (score a).

Fixpoint insertSorted (x : A) (l : list A) : list A :=
  match l with
  | [] => [x]
  | y :: l' =>
      if ngt (byScoreDesc y x) nzero then x :: y :: l' else y :: insertSorted x l'
  end.

Definition sortByScore (l : list A) : list A :=
  fold_left (fun acc x => insertSorted x acc) l [].

(** An element whose score passes [>= 0]; [above x y]: the score of [x] is
    at least that of [y]; [tiesWith v x]: the score of [x] is [v], as far
    as [>=] can tell. *)
Definition acceptable (x : A) : Prop := nge (score x) nzero = true.

Definition above (x y : A) : Prop := nge (score x) (score y) = true.

Definition tiesWith (v : num) (x : A) : Prop :=
  nge (score x) v && nge v (score x) = true.

#[export] Instance tiesWith_dec (v : num) (x : A) : Decision (tiesWith v x).
Proof. unfold tiesWith. apply _. Defined.

(** An element whose score is a number: [x >= x] fails of NaN only. *)
Definition numbered (x : A) : Prop := nge (score x) (score x) = true.
End Sorting.

(** ** [Promise.all]

    The promises settle in the order [order] (indices into [values]; a
    promise settles once, and those that [order] leaves out settle after
    it); each settlement stores its value in the slot of its own index, and
    the result is read off the slots once all are filled. *)

Section PromiseAll.
Context {A : Type}.

Definition settle (values : list A) (slots : list (option A)) (j : nat) : list (option A) :=
  match slots !! j, values !! j with
  | Some None, Some v => <[j := Some v]> slots
  | _, _ => slots
  end.

(** Every filled slot holds the value of its own index. *)
Definition slotsOk (values : list A) (slots : list (option A)) : Prop :=
  length slots = length values /\
  forall i v, slots !! i = Some (Some v) -> values !! i = Some v.

Definition promiseAll (order : list nat) (values : list A) : option (list A) :=
  mapM (fun slot => slot)
    (fold_left (settle values) (order ++ seq 0 (length values))
       (replicate (length values) None)).
End PromiseAll.

(** ** The progressive matcher ([runMatching], face-api variant) *)

Section Matcher.
Context {N : JSNumber}.

Record PhotoItem : Type := { path : string; url : string }.

(** [MatchItem = PhotoItem & { score }], built as [{ ...p, score }]. *)
Record MatchItem : Type := { item : PhotoItem; score : num }.

(** A face descriptor, a [Float32Array]. *)
Definition descriptor : Type := list num.

(** The knobs of the scan. *)
Record knobs : Type := {
  scanBatchSize : nat;
  scanMax : nat;
  TOP_KEEP : nat;
  CONCURRENCY : nat;
}.

Definition sourceKnobs : knobs :=
  {| scanBatchSize := 60; scanMax := 240; TOP_KEEP := 25; CONCURRENCY := 2 |}.

(** The number of matches shown: [slice(0, 8)]. *)
Definition shown : nat := 8.

(** What the world outside does during one run. *)
Inductive modelsOutcome : Type := ModelsReady | ModelsLoaded | ModelsFail.
Inductive selfieOutcome : Type :=
| SelfieFails                       (* fetching or analysing it throws *)
| SelfieNoFace
| SelfieFace (d : descriptor).
Inductive analysis : Type :=
| AnalyzeFails                      (* the proxy fetch or the detector throws *)
| Detected (faces : list descriptor).
Inductive stopPoint : Type :=
| WhilePreparing
| DuringChunk (k : nat).            (* while the k-th [Promise.all] is awaited *)

Record world : Type := {
  models : modelsOutcome;
  selfie : selfieOutcome;
  analyze : PhotoItem -> analysis;
  settleOrder : nat -> list nat;    (* of the workers of the k-th [Promise.all] *)
  stop : option stopPoint;          (* when the user presses the stop button *)
}.

Inductive message : Type :=
| MsgNoPhotos | MsgPreparing | MsgLoadingModels | MsgAnalyzingSelfie
| MsgSelfieNoFace
| MsgScanning (first last total : nat)
| MsgFound (n : nat) | MsgNotYet
| MsgDoneEmpty | MsgDone (n : nat)
| MsgFailed
| MsgStopped
| MsgEmbeddingSelfie | MsgMatching | MsgClosest.

(** What the caller observes, in order: the state setters called, and the
    moment [abortScan] sets the flag. *)
Inductive event {item : Type} : Type :=
| SetMatchLoading (b : bool)
| SetMatches (l : list item)
| SetProgress (done total : nat)
| SetMatchMessage (m : message)
| AbortSet.
Arguments event : clear implicits.

(** The state of one run.  [abortRef] is the one ref of the component,
    which [runMatching] sets to [false] when it starts and [abortScan] to
    [true].  A session follows a single run, during which no other run
    starts: nothing but [abortScan] writes the flag while the run goes on.
    A run that is started while a stopped one is still awaiting its chunk
    resets the flag for both; such pairs of runs are not modelled. *)
Record session : Type := mkSession {
  abortRef : bool;
  scoredAll : list MatchItem;
  awaited : nat;                    (* [Promise.all]s awaited so far *)
  log : list (event MatchItem);     (* oldest first *)
}.

Definition emit (e : event MatchItem) (s : session) : session :=
  mkSession (abortRef s) (scoredAll s) (awaited s) (log s ++ [e]).

Definition abortScan (s : session) : session :=
  emit (SetMatchLoading false)
    (emit (SetMatchMessage MsgStopped)
       (emit AbortSet (mkSession true (scoredAll s) (awaited s) (log s)))).

Definition userAt (w : world) (p : stopPoint) (s : session) : session :=
  match stop w, p with
  | Some WhilePreparing, WhilePreparing => abortScan s
  | Some (DuringChunk k), DuringChunk k' => if k =? k' then abortScan s else s
  | _, _ => s
  end.

Definition bestScore (selfieDesc : descriptor) (faces : list descriptor) : num :=
  fold_left
    (fun best d =>
       let s := cosineSimilarity_faceapi selfieDesc d in
       if ngt s best then s else best)
    faces nminus1.

Definition scoreOne (w : world) (selfieDesc : descriptor) (aborted : bool)
    (p : PhotoItem) : option MatchItem :=
  if aborted then None
  else
    match analyze w p with
    | AnalyzeFails => None
    | Detected [] => None
    | Detected faces => Some {| item := p; score := bestScore selfieDesc faces |}
    end.

(** [if (r && r.score >= 0) scoredAll.push(r)]. *)
Definition pushIfScored (r : option MatchItem) : list MatchItem :=
  match r with
  | Some m => if nge (score m) nzero then [m] else []
  | None => []
  end.

Definition keepTop (cfg : knobs) (arr : list MatchItem) : list MatchItem :=
  take (TOP_KEEP cfg) (sortByScore score arr).

Definition meets (threshold : num) (x : MatchItem) : bool := nge (score x) threshold.

(** One turn of the [while] loop after its two tests: the chunk is scored,
    the user may press stop while it is awaited, the results are merged. *)
Definition awaitChunk (w : world) (selfieDesc : descriptor)
    (chunk : list PhotoItem) (s : session) : option session :=
  match promiseAll (settleOrder w (awaited s))
          (map (scoreOne w selfieDesc (abortRef s)) chunk) with
  | None => None
  | Some results =>
      let s1 := userAt w (DuringChunk (awaited s)) s in
      Some (mkSession (abortRef s1)
              (scoredAll s1 ++ concat (map pushIfScored results))
              (S (awaited s1)) (log s1))
  end.

(** [while (i < batch.length)]; [None] when the fuel runs out. *)
Fixpoint whileChunks (fuel : nat) (cfg : knobs) (w : world) (selfieDesc : descriptor)
    (batch : list PhotoItem) (start total i : nat) (s : session) : option session :=
  if negb (i <? length batch) then Some s
  else if abortRef s then Some s
  else
    match fuel with
    | 0 => None
    | S fuel' =>
        match awaitChunk w selfieDesc (take (CONCURRENCY cfg) (drop i batch)) s with
        | None => None
        | Some s1 =>
            let i' := i + CONCURRENCY cfg in
            whileChunks fuel' cfg w selfieDesc batch start total i'
              (emit (SetProgress (min total (start + i')) total) s1)
        end
    end.

(** What the end of a turn of the [for] loop shows. *)
Definition publishedTop (cfg : knobs) (threshold : num) (s : session) : list MatchItem :=
  take shown
    (sortByScore score
       (filter (fun x => meets threshold x = true) (keepTop cfg (scoredAll s)))).

(** The end of a turn of the [for] loop: [keepTop], filter, publish. *)
Definition publishBatch (cfg : knobs) (threshold : num) (s : session) : session :=
  let kept := keepTop cfg (scoredAll s) in
  let top := take shown (sortByScore score (filter (fun x => meets threshold x = true) kept)) in
  let s1 := mkSession (abortRef s) kept (awaited s) (log s) in
  if 0 <? length top
  then emit (SetMatchMessage (MsgFound (length top))) (emit (SetMatches top) s1)
  else emit (SetMatchMessage MsgNotYet) (emit (SetMatches []) s1).

(** [for (let start = 0; start < pool.length; start += scanBatchSize)]. *)
Fixpoint forBatches (fuel : nat) (cfg : knobs) (w : world) (selfieDesc : descriptor)
    (threshold : num) (pool : list PhotoItem) (start : nat) (s : session) : option session :=
  if negb (start <? length pool) then Some s
  else if abortRef s then Some s
  else
    match fuel with
    | 0 => None
    | S fuel' =>
        let end_ := min (length pool) (start + scanBatchSize cfg) in
        let batch := take (end_ - start) (drop start pool) in
        let s0 := emit (SetMatchMessage (MsgScanning (start + 1) end_ (length pool))) s in
        match whileChunks (length batch) cfg w selfieDesc batch start (length pool) 0 s0 with
        | None => None
        | Some s1 =>
            forBatches fuel' cfg w selfieDesc threshold pool (start + scanBatchSize cfg)
              (publishBatch cfg threshold s1)
        end
    end.

(** The pieces of the two loops, named for the proofs: what a chunk adds
    to [scoredAll], a whole turn of the [while] loop, and the batch of a
    turn of the [for] loop ([pool.slice(start, end)]). *)
Definition scoredOf (w : world) (selfieDesc : descriptor) (aborted : bool)
    (chunk : list PhotoItem) : list MatchItem :=
  concat (map pushIfScored (map (scoreOne w selfieDesc aborted) chunk)).

Definition mergeChunk (w : world) (selfieDesc : descriptor)
    (chunk : list PhotoItem) (s : session) : session :=
  let s1 := userAt w (DuringChunk (awaited s)) s in
  mkSession (abortRef s1) (scoredAll s ++ scoredOf w selfieDesc (abortRef s) chunk)
    (S (awaited s)) (log s1).

Definition stepChunk (cfg : knobs) (w : world) (selfieDesc : descriptor)
    (batch : list PhotoItem) (start total i : nat) (s : session) : session :=
  emit (SetProgress (min total (start + (i + CONCURRENCY cfg))) total)
    (mergeChunk w selfieDesc (take (CONCURRENCY cfg) (drop i batch)) s).

Definition batchAt (cfg : knobs) (pool : list PhotoItem) (start : nat) : list PhotoItem :=
  take (min (length pool) (start + scanBatchSize cfg) - start) (drop start pool).

Definition scanning (cfg : knobs) (pool : list PhotoItem) (start : nat) : event MatchItem :=
  SetMatchMessage
    (MsgScanning (start + 1) (min (length pool) (start + scanBatchSize cfg)) (length pool)).

(** After the loop: nothing more when aborted, else the final sort, filter
    and publication. *)
Definition finalPublish (threshold : num) (s : session) : session :=
  if abortRef s then s
  else
    let sorted := sortByScore score (scoredAll s) in
    let finalTop := take shown (filter (fun x => meets threshold x = true) sorted) in
    let s1 := emit (SetMatches finalTop) (mkSession (abortRef s) sorted (awaited s) (log s)) in
    if length finalTop =? 0 then emit (SetMatchMessage MsgDoneEmpty) s1
    else emit (SetMatchMessage (MsgDone (length finalTop))) s1.

(** The session once the selfie descriptor is known: the scan. *)
Definition scan (cfg : knobs) (w : world) (selfieDesc : descriptor) (threshold : num)
    (pool : list PhotoItem) (s : session) : option session :=
  match forBatches (length pool) cfg w selfieDesc threshold pool 0 s with
  | None => None
  | Some s1 => Some (finalPublish threshold s1)
  end.

(** The session as [runMatching] sets it up: the first updates, the
    models, the selfie (during which the user may already press stop). *)
Definition started (cfg : knobs) (eventPhotos : list PhotoItem) : session :=
  mkSession false [] 0
    [SetMatchLoading true; SetMatches [];
     SetProgress 0 (min (scanMax cfg) (length eventPhotos));
     SetMatchMessage MsgPreparing].

Definition withModels (w : world) (s : session) : session :=
  match models w with
  | ModelsReady => s
  | _ => emit (SetMatchMessage MsgLoadingModels) s
  end.

Definition prepared (cfg : knobs) (w : world) (eventPhotos : list PhotoItem) : session :=
  userAt w WhilePreparing
    (emit (SetMatchMessage MsgAnalyzingSelfie) (withModels w (started cfg eventPhotos))).

(** The [finally] block, and the [catch] block before it. *)
Definition finally_ (s : session) : list (event MatchItem) :=
  log (emit (SetMatchLoading false) s).

Definition catch_ (s : session) : list (event MatchItem) :=
  finally_ (emit (SetMatchMessage MsgFailed) s).

(** [runMatching]: the published updates of one session, [None] when a loop
    does not end. *)
Definition runMatching (cfg : knobs) (w : world) (threshold : num)
    (eventPhotos : list PhotoItem) : option (list (event MatchItem)) :=
  if length eventPhotos =? 0 then Some [SetMatchMessage MsgNoPhotos]
  else
    match models w with
    | ModelsFail => Some (catch_ (withModels w (started cfg eventPhotos)))
    | _ =>
        match selfie w with
        | SelfieFails => Some (catch_ (prepared cfg w eventPhotos))
        | SelfieNoFace =>
            Some (finally_ (emit (SetMatchMessage MsgSelfieNoFace) (prepared cfg w eventPhotos)))
        | SelfieFace selfieDesc =>
            let total := min (scanMax cfg) (length eventPhotos) in
            let pool := take total eventPhotos in
            match scan cfg w selfieDesc threshold pool (prepared cfg w eventPhotos) with
            | None => None
            | Some s3 => Some (finally_ s3)
            end
        end
    end.

(** What an observer reads off the updates: the progress values and the
    lists of matches, in the order of publication. *)
Definition progressOf {item : Type} (updates : list (event item)) : list (nat * nat) :=
  omap (fun e => match e with SetProgress d t => Some (d, t) | _ => None end) updates.

Definition matchesOf {item : Type} (updates : list (event item)) : list (list item) :=
  omap (fun e => match e with SetMatches l => Some l | _ => None end) updates.

(** Updates that carry no progress, and the ones [abortScan] makes. *)
Definition noProgress {item : Type} (e : event item) : Prop :=
  match e with SetProgress _ _ => False | _ => True end.

Definition byAbortScan {item : Type} (e : event item) : Prop :=
  match e with
  | AbortSet | SetMatchMessage MsgStopped | SetMatchLoading false => True
  | _ => False
  end.

(** A match that stands for a photo of the pool that was analysed with at
    least one face, scored by its best face, and passed [score >= 0]. *)
Definition scoredFrom (w : world) (selfieDesc : descriptor) (pool : list PhotoItem)
    (m : MatchItem) : Prop :=
  In (item m) pool /\ nge (score m) nzero = true /\
  exists faces, analyze w (item m) = Detected faces /\ faces <> [] /\
    score m = bestScore selfieDesc faces.

(** Everything in [scoredAll] satisfies [P] and everything published so
    far satisfies [Q]. *)
Definition allScored (P Q : MatchItem -> Prop) (s : session) : Prop :=
  Forall P (scoredAll s) /\ Forall (Forall Q) (matchesOf (log s)).

(** The same world with the workers settling in another order. *)
Definition withOrder (w : world) (order : nat -> list nat) : world :=
  {| models := models w; selfie := selfie w; analyze := analyze w;
     settleOrder := order; stop := stop w |}.

(** The final results of a session: the list published last. *)
Definition finalResults (updates : list (event MatchItem)) : option (list MatchItem) :=
  list.last (matchesOf updates).

(** The ranking of a pool: its scored photos in enumeration order, sorted by
    score, cut to [TOP_KEEP], filtered by the threshold, cut to [shown]. *)
Definition ranking (cfg : knobs) (w : world) (selfieDesc : descriptor) (threshold : num)
    (pool : list PhotoItem) : list MatchItem :=
  take shown
    (filter (fun x => meets threshold x = true)
       (take (TOP_KEEP cfg) (sortByScore score (scoredOf w selfieDesc false pool)))).

(** No batch is announced after [abortScan] has set the flag ([aborted]:
    whether it was set before these updates). *)
Fixpoint batchesRespectAbort (aborted : bool) (updates : list (event MatchItem)) : bool :=
  match updates with
  | [] => true
  | AbortSet :: rest => batchesRespectAbort true rest
  | SetMatchMessage (MsgScanning _ _ _) :: rest =>
      negb aborted && batchesRespectAbort aborted rest
  | _ :: rest => batchesRespectAbort aborted rest
  end.

Definition abortSeen (updates : list (event MatchItem)) : bool :=
  existsb (fun e => match e with AbortSet => true | _ => false end) updates.

(** An update that neither announces a batch nor reports a failure. *)
Definition harmless (e : event MatchItem) : Prop :=
  match e with
  | SetMatchMessage (MsgScanning _ _ _) | SetMatchMessage MsgFailed => False
  | _ => True
  end.

(** A session whose updates so far announce no batch after an abort and
    report no failure, and whose flag is set if an abort was seen. *)
Definition orderly (s : session) : Prop :=
  batchesRespectAbort false (log s) = true /\
  (abortRef s = false -> abortSeen (log s) = false) /\
  Forall (fun e => e <> SetMatchMessage MsgFailed) (log s).

(** An update that is not a list of matches. *)
Definition noMatches {item : Type} (e : event item) : Prop :=
  match e with SetMatches _ => False | _ => True end.

(** An update of a session in which nothing was found, nothing failed and
    nobody pressed stop. *)
Definition calm (e : event MatchItem) : Prop :=
  match e with
  | SetMatches l => l = []
  | SetMatchMessage MsgFailed => False
  | AbortSet => False
  | _ => True
  end.

(** A session that runs on, has nothing scored, and whose last published
    progress is at least [start], within [total]. *)
Definition calmSession (total start : nat) (s : session) : Prop :=
  abortRef s = false /\ scoredAll s = [] /\ Forall calm (log s) /\
  exists d, list.last (progressOf (log s)) = Some (d, total) /\ min total start <= d /\ d <= total.

(** The progress values so far are consistent: the total is [total], the
    counts do not decrease and stay within [hi] and [total]. *)
Definition progressOk (total hi : nat) (updates : list (event MatchItem)) : Prop :=
  Forall (fun dt => snd dt = total /\ fst dt <= total /\ fst dt <= hi) (progressOf updates) /\
  StronglySorted le (map fst (progressOf updates)).

(** ** The matcher of the embedding variant ([runMatching] of the second
    [find-client.tsx]) *)

Record PhotoDoc : Type := {
  photoId : string; fullPath : string; downloadURL : string; embedding : list num;
}.

Record MatchDoc : Type := {
  doc_id : string; doc_path : string; doc_url : string; doc_score : num;
}.

Definition scoreDoc (q : list num) (p : PhotoDoc) : MatchDoc :=
  {| doc_id := photoId p; doc_path := fullPath p; doc_url := downloadURL p;
     doc_score := cosineSimilarity_embedding (Some q) (Some (embedding p)) |}.

(** [selfieEmbedding] is what [embedFace] resolves with, [None] when it
    throws. *)
Definition runMatching_embedding (selfieEmbedding : option (list num)) (threshold : num)
    (eventPhotos : list PhotoDoc) : list (event MatchDoc) :=
  if length eventPhotos =? 0 then [SetMatchMessage MsgNoPhotos]
  else
    [SetMatchLoading true; SetMatches []; SetMatchMessage MsgEmbeddingSelfie] ++
    match selfieEmbedding with
    | None => [SetMatchMessage MsgFailed]
    | Some q =>
        let scored := sortByScore doc_score (map (scoreDoc q) eventPhotos) in
        let filtered := take 24 (filter (fun x => nge (doc_score x) threshold = true) scored) in
        let top := take shown (if 0 <? length filtered then filtered else take 24 scored) in
        [SetMatchMessage MsgMatching; SetMatches top;
         SetMatchMessage (if 0 <? length filtered then MsgFound (length top) else MsgClosest)]
    end ++ [SetMatchLoading false].
End Matcher.

Arguments event : clear implicits.

(** ** Further laws of the numbers *)

(** Multiplication commutes. *)
Class NumberMulComm (N : JSNumber) : Prop := {
  nmul_comm : forall x y : num, nmul x y = nmul y x;
}.

(** [x >= x] holds of every number but NaN: a number that compares greater
    than another is not NaN, and neither is [-1]. *)
Class NumberNaNLaws (N : JSNumber) : Prop := {
  gt_is_number : forall x y : num, ngt x y = true -> nge x x = true;
  minus1_is_number : nge nminus1 nminus1 = true;
}.

(** The comparisons on all the numbers, negative ones and infinities
    included, NaN apart: [>] is the negation of the converse [>=], two
    numbers are comparable, [>=] is transitive, and the sign of a
    difference agrees with [>]. *)
Class NumberCompareLaws (N : JSNumber) : Prop := {
  gt_is_not_le : forall x y : num,
    nge x x = true -> nge y y = true -> ngt x y = negb (nge y x);
  ge_or_le : forall x y : num,
    nge x x = true -> nge y y = true -> nge x y || nge y x = true;
  ge_transitive : forall x y z : num,
    nge x y = true -> nge y z = true -> nge x z = true;
  gt_difference : forall x y : num, ngt (nsub x y) nzero = ngt x y;
}.

(** ** The image proxy ([app/api/img/route.tsx]) and the fetch through it
    ([urlToCanvasViaProxy] of [app/find/find-client.tsx]) *)

Section ImageProxy.
Context {N : JSNumber}.
Local Open Scope string_scope.

(** What [fetch(u)] gives the route: it rejects (or reading the body
    does), or it resolves with a status, a content type and the bytes. *)
Inductive upstreamOutcome : Type :=
| UpstreamRejects (message : string)
| UpstreamResponds (status : nat) (contentType : option string) (bytes : string).

(** The body of the route's response: one of its four messages, or the
    bytes of the image. *)
Inductive proxyBody : Type :=
| MissingU
| UrlNotAllowed
| UpstreamFailed (status : nat)
| ProxyError (message : string)
| ImageBytes (bytes : string).

Record proxyResponse : Type := {
  proxyStatus : nat;
  proxyHeaders : list (string * string);
  proxyContent : proxyBody;
}.

Definition isAllowedUrl (u : string) : bool := String.prefix "https://" u.

(** [x || fallback] on a string that may be missing. *)
Definition orElse (x : option string) (fallback : string) : string :=
  match x with
  | Some s => if String.eqb s EmptyString then fallback else s
  | None => fallback
  end.

(** [GET]: [u] is [searchParams.get('u')]. *)
Definition GET (u : option string) (fetchUpstream : string -> upstreamOutcome) : proxyResponse :=
  match u with
  | None => {| proxyStatus := 400; proxyHeaders := []; proxyContent := MissingU |}
  | Some u =>
      if String.eqb u EmptyString then
        {| proxyStatus := 400; proxyHeaders := []; proxyContent := MissingU |}
      else if negb (isAllowedUrl u) then
        {| proxyStatus := 400; proxyHeaders := []; proxyContent := UrlNotAllowed |}
      else
        match fetchUpstream u with
        | UpstreamRejects message =>
            {| proxyStatus := 500; proxyHeaders := [];
               proxyContent := ProxyError (orElse (Some message) "unknown") |}
        | UpstreamResponds status contentType bytes =>
            if negb (statusOk status) then
              {| proxyStatus := 502; proxyHeaders := []; proxyContent := UpstreamFailed status |}
            else
              {| proxyStatus := 200;
                 proxyHeaders := [("Content-Type", orElse contentType "application/octet-stream");
                                  ("Cache-Control", "no-store")];
                 proxyContent := ImageBytes bytes |}
        end
  end.

(** [urlToCanvasViaProxy]: the browser asks the proxy for the photo (the
    request itself may fail), decodes the bytes ([createImageBitmap]) and
    draws them scaled on a canvas; [None] is a throw.  The decoder and the
    canvas are the browser's. *)
Definition urlToCanvasViaProxy {bitmap canvas : Type}
    (proxyReachable : bool) (fetchUpstream : string -> upstreamOutcome)
    (createImageBitmap : string -> option bitmap) (draw : bitmap -> option canvas)
    (url : string) : option canvas :=
  if negb proxyReachable then None
  else
    let res := GET (Some url) fetchUpstream in
    if negb (statusOk (proxyStatus res)) then None
    else
      match proxyContent res with
      | ImageBytes bytes =>
          match createImageBitmap bytes with
          | Some bm => draw bm
          | None => None
          end
      | _ => None
      end.

(** The analysis of a candidate in [scoreOne]: the canvas, then the face
    detector ([None]: it throws). *)
Definition analyzeViaProxy {bitmap canvas : Type}
    (proxyReachable : bool) (fetchUpstream : string -> upstreamOutcome)
    (createImageBitmap : string -> option bitmap) (draw : bitmap -> option canvas)
    (detectAllFaces : canvas -> option (list descriptor))
    (p : PhotoItem) : analysis :=
  match urlToCanvasViaProxy proxyReachable fetchUpstream createImageBitmap draw (url p) with
  | None => AnalyzeFails
  | Some c =>
      match detectAllFaces c with
      | None => AnalyzeFails
      | Some faces => Detected faces
      end
  end.
End ImageProxy.

(** ** Queues with a concurrency limit ([runWithConcurrency] of
    [app/admin/upload/UploadClient.tsx], [runQueue] of the ingest page)

    The runners share [nextIndex] and [results].  A runner is known by the
    index whose worker it awaits, so the pool keeps the indices in flight.
    [handed] and [settledLog] record the order in which the worker was
    called and in which its promises settled; [shared] is the state the
    workers update when they complete ([effect]). *)

Section WorkerPool.
Context {T R St : Type}.
Variable worker : T -> nat -> R.
Variable effect : T -> nat -> St -> St.

Record pool : Type := mkPool {
  nextIndex : nat;
  results : list (option R);
  inFlight : list nat;
  handed : list nat;
  settledLog : list nat;
  shared : St;
}.

(** One turn of a runner up to its [await].  In [runWithConcurrency]:
    [const cur = nextIndex++; if (cur >= items.length) break;
    ... await worker(items[cur], cur)].  In [runQueue], whose [q] is the
    items from [nextIndex] on: [while (q.length) { const r = q.shift();
    ... await ingestOne(r)], which leaves the counter where it is when
    nothing is left ([counts = false]). *)
Definition takeNext (counts : bool) (items : list T) (p : pool) : pool :=
  let cur := nextIndex p in
  if length items <=? cur
  then mkPool (if counts then S cur else cur) (results p) (inFlight p) (handed p)
         (settledLog p) (shared p)
  else mkPool (S cur) (results p) (inFlight p ++ [cur]) (handed p ++ [cur])
         (settledLog p) (shared p).

(** The runners are created one after the other; each runs up to its
    first [await]. *)
Definition spawn (counts : bool) (items : list T) (runners : nat) (s0 : St) : pool :=
  Nat.iter runners (takeNext counts items)
    (mkPool 0 (replicate (length items) None) [] [] [] s0).

(** The worker of [cur] settles: its runner stores the result and takes
    its next turn.  Nothing happens when [cur] is not in flight. *)
Definition settleWorker (counts : bool) (items : list T) (cur : nat) (p : pool) : pool :=
  if existsb (Nat.eqb cur) (inFlight p) then
    match items !! cur with
    | Some item =>
        takeNext counts items
          (mkPool (nextIndex p) (<[cur := Some (worker item cur)]> (results p))
             (List.filter (fun i => negb (i =? cur)) (inFlight p))
             (handed p) (settledLog p ++ [cur]) (effect item cur (shared p)))
    | None => p
    end
  else p.

(** The workers still in flight settle, the oldest first. *)
Fixpoint drain (counts : bool) (fuel : nat) (items : list T) (p : pool) : pool :=
  match fuel, inFlight p with
  | S fuel', cur :: _ => drain counts fuel' items (settleWorker counts items cur p)
  | _, _ => p
  end.

(** The pool up to [await Promise.all(runners)]: the workers settle in the
    order [schedule] (the indices it names that are not in flight are
    passed over), then the rest. *)
Definition runPool (counts : bool) (items : list T) (runners : nat) (s0 : St)
    (schedule : list nat) : pool :=
  drain counts (length items) items
    (fold_left (fun p cur => settleWorker counts items cur p) schedule
       (spawn counts items runners s0)).

(** [runWithConcurrency], with [Math.max(1, concurrency)] runners; the
    array returned is [results]. *)
Definition runWithConcurrency (items : list T) (concurrency : nat) (s0 : St)
    (schedule : list nat) : pool :=
  runPool true items (max 1 concurrency) s0 schedule.

(** The state of a pool that can be reached. *)
Record poolOk (items : list T) (runners : nat) (s0 : St) (p : pool) : Prop := {
  ok_length : length (results p) = length items;
  ok_handed : handed p = seq 0 (min (nextIndex p) (length items));
  ok_value : forall i r, results p !! i = Some (Some r) ->
               exists item, items !! i = Some item /\ r = worker item i;
  ok_cover : forall i, i < nextIndex p -> i < length items ->
               In i (settledLog p) \/ In i (inFlight p);
  ok_flight : forall cur, In cur (inFlight p) ->
                cur < nextIndex p /\ results p !! cur = Some None;
  ok_nodup : List.NoDup (inFlight p);
  ok_busy : length items <= nextIndex p \/ inFlight p <> [];
  ok_bound : length (inFlight p) <= runners;
  ok_fresh : forall i, nextIndex p <= i -> i < length items -> results p !! i = Some None;
  ok_settled : forall i, In i (settledLog p) <-> exists r, results p !! i = Some (Some r);
  ok_once : List.NoDup (settledLog p);
  ok_shared : shared p =
    fold_left (fun s i => match items !! i with Some item => effect item i s | None => s end)
      (settledLog p) s0;
}.
End WorkerPool.

Arguments pool : clear implicits.
Arguments mkPool {R St}.
Arguments nextIndex {R St}.
Arguments results {R St}.
Arguments inFlight {R St}.
Arguments handed {R St}.
Arguments settledLog {R St}.
Arguments shared {R St}.

(** ** Numbers typed into the page

    What [Number(e.target.value)] gives, as far as clamping between whole
    bounds and [new Array(n)] can tell: a whole number, a number strictly
    between two consecutive whole numbers, or NaN.  (An infinity acts as a
    whole number beyond every bound.) *)

Inductive inputNumber : Type :=
| Whole (n : Z)
| Between (below : Z)       (* [below < x < below + 1] *)
| NotANumber.

(** [Math.min(hi, x)] and [Math.max(lo, x)] for whole [hi] and [lo]. *)
Definition inputMin (hi : Z) (x : inputNumber) : inputNumber :=
  match x with
  | Whole n => Whole (Z.min hi n)
  | Between below => if (hi <=? below)%Z then Whole hi else Between below
  | NotANumber => NotANumber
  end.

Definition inputMax (lo : Z) (x : inputNumber) : inputNumber :=
  match x with
  | Whole n => Whole (Z.max lo n)
  | Between below => if (below <? lo)%Z then Whole lo else Between below
  | NotANumber => NotANumber
  end.

(** [new Array(len)]: the length of the array, [None] for the RangeError
    it throws unless [len] is a whole number from 0 to 2^32 - 1. *)
Definition arrayLength (len : inputNumber) : option nat :=
  match len with
  | Whole n => if (0 <=? n)%Z && (n <? 2 ^ 32)%Z then Some (Z.to_nat n) else None
  | _ => None
  end.

(** [runWithConcurrency] called with such a number: its first step,
    [new Array(Math.max(1, concurrency))], may throw ([None]). *)
Definition runWithConcurrencyOf {T R St : Type} (worker : T -> nat -> R)
    (effect : T -> nat -> St -> St) (items : list T) (concurrency : inputNumber) (s0 : St)
    (schedule : list nat) : option (pool R St) :=
  match arrayLength (inputMax 1 concurrency) with
  | Some runners => Some (runWithConcurrency worker effect items runners s0 schedule)
  | None => None
  end.

(** ** Names and paths

    A JavaScript string is a sequence of UTF-16 code units, and
    [replace], [replaceAll] and [slice] work on code units.  The two
    functions whose result depends on what a code unit is, [safeFileName]
    and [safeKeyFromPath], are therefore defined on lists of code units,
    each a number below 65536.  The paths and names of which only the
    slashes, the dots and the prefixes matter are kept as strings: the
    bytes of their UTF-8 form, of which [codeUnits] gives the code
    units. *)

Section Paths.

(** [\w] (without the [u] and [i] flags): an ASCII letter, a digit or
    the underscore. *)
Definition isWordUnit (c : nat) : bool :=
  ((48 <=? c) && (c <=? 57)) || ((65 <=? c) && (c <=? 90)) ||
  ((97 <=? c) && (c <=? 122)) || (c =? 95).

(** The class [[\w.\-()]]. *)
Definition isSafeUnit (c : nat) : bool :=
  isWordUnit c || (c =? 46) || (c =? 45) || (c =? 40) || (c =? 41).

(** [safeFileName] of [UploadClient.tsx]: [name.replace(/[^\w.\-()]/g, "_")],
    an underscore (95) for every code unit outside the class. *)
Definition safeFileName (name : list nat) : list nat :=
  map (fun c => if isSafeUnit c then c else 95) name.

(** [safeKeyFromPath]: [path.replaceAll("/", "_").slice(0, 250)]; the
    slash is 47. *)
Definition safeKeyFromPath (path : list nat) : list nat :=
  take 250 (map (fun c => if c =? 47 then 95 else c) path).

(** The code units of a string given by its UTF-8 bytes: one unit for a
    character of one, two or three bytes, the two surrogates for a
    character of four bytes; [65533] (U+FFFD) stands for bytes that are not
    UTF-8. *)
Fixpoint codeUnits (s : string) : list nat :=
  match s with
  | EmptyString => []
  | String b0 s1 =>
      let n0 := nat_of_ascii b0 in
      if n0 <? 128 then n0 :: codeUnits s1
      else if n0 <? 192 then 65533 :: codeUnits s1
      else if n0 <? 224 then
        match s1 with
        | String b1 s2 =>
            ((n0 - 192) * 64 + (nat_of_ascii b1 - 128)) :: codeUnits s2
        | EmptyString => [65533]
        end
      else if n0 <? 240 then
        match s1 with
        | String b1 (String b2 s3) =>
            ((n0 - 224) * 4096 + (nat_of_ascii b1 - 128) * 64 + (nat_of_ascii b2 - 128))
              :: codeUnits s3
        | _ => [65533]
        end
      else if n0 <? 248 then
        match s1 with
        | String b1 (String b2 (String b3 s4)) =>
            let cp := (n0 - 240) * 262144 + (nat_of_ascii b1 - 128) * 4096 +
                      (nat_of_ascii b2 - 128) * 64 + (nat_of_ascii b3 - 128) in
            (55296 + (cp - 65536) / 1024) :: (56320 + (cp - 65536) mod 1024) :: codeUnits s4
        | _ => [65533]
        end
      else 65533 :: codeUnits s1
  end.

(** The string of code units below 128, as a safe file name has them. *)
Definition asciiString (units : list nat) : string :=
  string_of_list_ascii (map ascii_of_nat units).

Local Open Scope string_scope.

Fixpoint allChars (P : ascii -> bool) (s : string) : bool :=
  match s with
  | EmptyString => true
  | String c s' => P c && allChars P s'
  end.

Definition isSlash (c : ascii) : bool := Ascii.eqb c "/".

(** [s] without the prefix [p], when it has it. *)
Fixpoint stripPrefix (p s : string) : option string :=
  match p with
  | EmptyString => Some s
  | String a p' =>
      match s with
      | EmptyString => None
      | String b s' => if Ascii.eqb a b then stripPrefix p' s' else None
      end
  end.

(** The longest prefix without a slash, and what follows it. *)
Fixpoint untilSlash (s : string) : string * string :=
  match s with
  | EmptyString => (EmptyString, EmptyString)
  | String c s' =>
      if isSlash c then (EmptyString, s)
      else let '(seg, rest) := untilSlash s' in (String c seg, rest)
  end.

(** [parseEventId]: the first group of
    [/^events\/([^/]+)\/(photos|selfies)\//], or the empty string. *)
Definition parseEventId (filePath : string) : string :=
  match stripPrefix "events/" filePath with
  | None => EmptyString
  | Some rest =>
      let '(eventId, tail) := untilSlash rest in
      if String.eqb eventId EmptyString then EmptyString
      else if String.prefix "/photos/" tail || String.prefix "/selfies/" tail then eventId
      else EmptyString
  end.

(** [s.split(sep).pop()]: what follows the last [sep], all of [s] when it
    has none. *)
Fixpoint afterLast (sep : ascii) (s : string) : option string :=
  match s with
  | EmptyString => None
  | String c s' =>
      match afterLast sep s' with
      | Some t => Some t
      | None => if Ascii.eqb c sep then Some s' else None
      end
  end.

Definition splitPop (sep : ascii) (s : string) : string :=
  match afterLast sep s with Some t => t | None => s end.

(** The name under which [handleUploadSelfie] stores a selfie in
    [events/<eventId>/selfies/]: [`${uid}.${ext}`] with
    [ext = file.name.split(".").pop() || "jpg"]. *)
Definition selfieExt (fileName : string) : string :=
  let ext := splitPop "." fileName in
  if String.eqb ext EmptyString then "jpg" else ext.

Definition selfieName (uid fileName : string) : string :=
  uid ++ "." ++ selfieExt fileName.

(** [loadSelfieUrlByUid]: the first listed item whose name starts with
    [`${uid}.`]. *)
Definition loadSelfieByUid (uid : string) (names : list string) : option string :=
  List.find (fun name => String.prefix (uid ++ ".") name) names.

(** The path under which [runUpload] stores a photo; [now] and [number]
    are [Date.now()] and [index + 1] as the template prints them. *)
Definition photoPath (eid now number fileName : string) : string :=
  "events/" ++ eid ++ "/photos/" ++ now ++ "_" ++ number ++ "_" ++
  asciiString (safeFileName (codeUnits fileName)).

Definition selfiePath (eid uid fileName : string) : string :=
  "events/" ++ eid ++ "/selfies/" ++ selfieName uid fileName.
End Paths.

(** ** Compression ([compressImageToTarget] of [UploadClient.tsx]) *)

Section Compress.
Context {N : JSNumber}.

(** The built-in [Math.max] and the literal [0.08]. *)
Variable MathMax : num -> num -> num.
Variable qualityStep : num.

Record compressOpts : Type := {
  targetBytes : nat;
  startQuality : num;
  minQuality : num;
}.

(** What the browser does with one file: whether the image loads, whether
    the canvas gives a context, and the size of the JPEG that
    [canvas.toBlob] makes at a quality ([None]: it gives [null]). *)
Record imageWorld : Type := {
  imageLoads : bool;
  hasContext : bool;
  toBlobQ : num -> option nat;
}.

Inductive outBlob : Type :=
| Original
| Encoded (quality : num) (size : nat).

(** The [for] loop, [steps] turns of it left; the qualities tried are
    logged oldest first. *)
Fixpoint lowerQuality (steps : nat) (opts : compressOpts) (w : imageWorld)
    (q : num) (best : outBlob) (tried : list num) : option outBlob * list num :=
  match steps with
  | 0 => (Some best, tried)
  | S steps' =>
      let q' := MathMax (minQuality opts) (nsub q qualityStep) in
      match toBlobQ w q' with
      | None => (None, tried ++ [q'])
      | Some size =>
          if size <=? targetBytes opts then (Some (Encoded q' size), tried ++ [q'])
          else if nge (minQuality opts) q' then (Some (Encoded q' size), tried ++ [q'])
          else lowerQuality steps' opts w q' (Encoded q' size) (tried ++ [q'])
      end
  end.

(** [compressImageToTarget]: the blob it resolves with ([None]: it
    throws) and the qualities at which it encoded. *)
Definition compressImageToTarget (fileSize : nat) (opts : compressOpts) (w : imageWorld)
    : option outBlob * list num :=
  if fileSize <=? targetBytes opts then (Some Original, [])
  else if negb (imageLoads w) then (None, [])
  else if negb (hasContext w) then (None, [])
  else
    match toBlobQ w (startQuality opts) with
    | None => (None, [startQuality opts])
    | Some size =>
        if size <=? targetBytes opts then (Some (Encoded (startQuality opts) size), [startQuality opts])
        else lowerQuality 8 opts w (startQuality opts) (Encoded (startQuality opts) size)
               [startQuality opts]
    end.

(** A quality at which the encoding is too big. *)
Definition tooBig (opts : compressOpts) (w : imageWorld) (q : num) : Prop :=
  exists size, toBlobQ w q = Some size /\ targetBytes opts < size.
End Compress.

(** ** The upload page ([UploadClient.tsx]) *)

Section Upload.
Context {N : JSNumber}.
Local Open Scope string_scope.

(** The built-ins [Math.max] and number-to-string, and the literals
    [0.08], [0.88] and [0.52]. *)
Variable MathMax : num -> num -> num.
Variable showNat : nat -> string.
Variables (qualityStep startQ minQ : num).

(** A [File] picked in the browser. *)
Record pickedFile : Type := {
  fileName : string;
  fileType : option string;
  fileSize : nat;
  lastModified : option nat;
}.

(** [f.type?.startsWith("image/")]. *)
Definition isImage (f : pickedFile) : bool :=
  match fileType f with
  | Some t => String.prefix "image/" t
  | None => false
  end.

(** [`${f.name}|${f.size}|${f.lastModified ?? ''}`]. *)
Definition fileKey (f : pickedFile) : string :=
  fileName f ++ "|" ++ showNat (fileSize f) ++ "|" ++
  match lastModified f with Some t => showNat t | None => EmptyString end.

(** The loop of [normalizePickedFiles] over the images, with the keys seen
    so far. *)
Fixpoint dedupe (seen : list string) (fs : list pickedFile) : list pickedFile :=
  match fs with
  | [] => []
  | f :: rest =>
      if existsb (String.eqb (fileKey f)) seen then dedupe seen rest
      else f :: dedupe (fileKey f :: seen) rest
  end.

Definition MAX_PICK : nat := 6000.

Definition normalizePickedFiles (input : list pickedFile) : list pickedFile :=
  take MAX_PICK (dedupe [] (List.filter isImage input)).

(** The options of the page. *)
Record uploadSettings : Type := {
  enableCompress : bool;
  targetSize : nat;           (* [targetBytes], in whole bytes *)
  uploadConcurrency : inputNumber;
}.

(** What the services do with one file. *)
Record fileWorld : Type := {
  image : imageWorld;
  uploadOk : bool;                               (* [uploadBytes] resolves *)
  downloadUrl : option string;                   (* [getDownloadURL] *)
  embedTimesOut : bool;                          (* the timeout wins the race *)
  embedAnswer : option (nat * option jsval);     (* [/api/embed]: status and parsed body *)
  addDocOk : bool;                               (* [addDoc] resolves *)
  clock : nat;                                   (* [Date.now()] *)
}.

(** The document [addDoc] stores for a photo. *)
Record storedDoc : Type := {
  stored_eventId : string;
  stored_fullPath : string;
  stored_downloadURL : string;
  stored_fileName : string;
  stored_bytesOriginal : nat;
  stored_bytesUploaded : nat;
  stored_embedding : list jsval;
  stored_embDim : nat;
}.

(** Step 1 of the worker: the size of the blob to upload ([None]: the
    compression throws). *)
Definition blobToUse (settings : uploadSettings) (fw : fileWorld) (file : pickedFile)
    : option nat :=
  if enableCompress settings && (targetSize settings <? fileSize file)%nat then
    match fst (compressImageToTarget MathMax qualityStep (fileSize file)
                 {| targetBytes := targetSize settings; startQuality := startQ;
                    minQuality := minQ |} (image fw)) with
    | Some Original => Some (fileSize file)
    | Some (Encoded _ size) => Some size
    | None => None
    end
  else Some (fileSize file).

(** Step 3: [await withTimeout(embedFace(blob), ...)] and the check that
    follows it ([None]: one of them throws). *)
Definition embeddingOf (fw : fileWorld) : option (list jsval) :=
  if embedTimesOut fw then None
  else
    match embedAnswer fw with
    | None => None
    | Some (status, body) =>
        match embedFace_v1 status body with
        | V1Embedding (e :: es) => Some (e :: es)
        | _ => None
        end
    end.

(** The [try] block of the worker: the document stored, [None] when a step
    throws. *)
Definition processFile (eid : string) (settings : uploadSettings) (fw : fileWorld)
    (file : pickedFile) (index : nat) : option storedDoc :=
  match blobToUse settings fw file with
  | None => None
  | Some bytes =>
      if negb (uploadOk fw) then None
      else
        match downloadUrl fw with
        | None => None
        | Some url =>
            match embeddingOf fw with
            | None => None
            | Some emb =>
                if negb (addDocOk fw) then None
                else Some {| stored_eventId := eid;
                             stored_fullPath :=
                               photoPath eid (showNat (clock fw)) (showNat (index + 1))
                                 (fileName file);
                             stored_downloadURL := url;
                             stored_fileName := fileName file;
                             stored_bytesOriginal := fileSize file;
                             stored_bytesUploaded := bytes;
                             stored_embedding := emb;
                             stored_embDim := length emb |}
            end
        end
  end.

(** The counters of the page and the documents stored. *)
Record uploadState : Type := {
  doneCount : nat;
  okCount : nat;
  errCount : nat;
  docs : list storedDoc;
}.

(** What a worker does to them on its way out: [setOkCount] after the
    document is stored or [setErrCount] in the [catch], and [setDone] in
    the [finally]. *)
Definition fileDone (eid : string) (settings : uploadSettings) (world : nat -> fileWorld)
    (file : pickedFile) (index : nat) (s : uploadState) : uploadState :=
  match processFile eid settings (world index) file index with
  | Some doc =>
      {| doneCount := S (doneCount s); okCount := S (okCount s); errCount := errCount s;
         docs := docs s ++ [doc] |}
  | None =>
      {| doneCount := S (doneCount s); okCount := okCount s; errCount := S (errCount s);
         docs := docs s |}
  end.

Record uploadRun : Type := {
  alerted : bool;
  uploading : bool;
  counters : uploadState;
  navigated : bool;
}.

(** [runUpload]; [eid] is the normalized event id, [ensureOk] whether
    [ensureEventDoc] resolves.  When [ensureEventDoc] or
    [runWithConcurrency] throws, the [finally] switches [uploading] off
    and nothing after the [await] runs. *)
Definition runUpload (eid : string) (files : list pickedFile) (settings : uploadSettings)
    (ensureOk : bool) (world : nat -> fileWorld) (schedule : list nat) : uploadRun :=
  let zero := {| doneCount := 0; okCount := 0; errCount := 0; docs := [] |} in
  if String.eqb eid EmptyString then
    {| alerted := true; uploading := false; counters := zero; navigated := false |}
  else if (length files =? 0)%nat then
    {| alerted := true; uploading := false; counters := zero; navigated := false |}
  else if negb ensureOk then
    {| alerted := false; uploading := false; counters := zero; navigated := false |}
  else
    match runWithConcurrencyOf (fun _ _ => tt) (fileDone eid settings world) files
            (inputMax 1 (inputMin 16 (uploadConcurrency settings))) zero schedule with
    | Some p =>
        {| alerted := false; uploading := false; counters := shared p; navigated := true |}
    | None =>
        {| alerted := false; uploading := false; counters := zero; navigated := false |}
    end.

(** The number of workers [runUpload] asks for is a whole number. *)
Definition wholeConcurrency (settings : uploadSettings) : bool :=
  match inputMax 1 (inputMin 16 (uploadConcurrency settings)) with
  | Whole _ => true
  | _ => false
  end.
End Upload.

(** ** The lightbox of the find page *)

Inductive key : Type := Escape | ArrowLeft | ArrowRight | OtherKey.

Record lightbox : Type := { lightboxOpen : bool; activeIndex : Z }.

Definition openLightbox (i : nat) (lb : lightbox) : lightbox :=
  {| lightboxOpen := true; activeIndex := Z.of_nat i |}.

(** [onKey], which listens only while the lightbox is open;
    [matchesLength] is [matches.length]. *)
Definition onKey (matchesLength : nat) (k : key) (lb : lightbox) : lightbox :=
  if negb (lightboxOpen lb) then lb
  else
    match k with
    | Escape => {| lightboxOpen := false; activeIndex := activeIndex lb |}
    | ArrowLeft =>
        {| lightboxOpen := true; activeIndex := Z.max 0 (activeIndex lb - 1) |}
    | ArrowRight =>
        {| lightboxOpen := true;
           activeIndex := Z.min (Z.of_nat matchesLength - 1) (activeIndex lb + 1) |}
    | OtherKey => lb
    end.

(** ** The moments of the event page ([EventClient.tsx])

    A [Set] of photo ids, kept as the list of its elements in insertion
    order. *)

Definition setHas (id : string) (s : list string) : bool := existsb (String.eqb id) s.

Definition setDelete (id : string) (s : list string) : list string :=
  List.filter (fun x => negb (String.eqb id x)) s.

Definition setAdd (id : string) (s : list string) : list string :=
  if setHas id s then s else s ++ [id].

(** [toggleMoment]. *)
Definition toggleMoment (id : string) (prev : list string) : list string :=
  if setHas id prev then setDelete id prev
  else if (8 <=? length prev)%nat then prev
  else setAdd id prev.

(** [applyAutoMoments]: [new Set(photos.slice(0, 8).map((p) => p.id))]. *)
Definition applyAutoMoments (photoIds : list string) : list string :=
  fold_left (fun s id => setAdd id s) (take 8 photoIds) [].

(** [saveMoments]: the ids chosen, in the order of the photos. *)
Definition chosenMoments (photoIds momentIds : list string) : list string :=
  take 8 (List.filter (fun id => setHas id momentIds) photoIds).

(** ** The earlier upload page, which uploads one file after the other *)

Section UploadSequential.
Context {N : JSNumber}.
Local Open Scope string_scope.

Variable showNat : nat -> string.

(** The document it stores for a photo. *)
Record storedDocV1 : Type := {
  v1_eventId : string;
  v1_fullPath : string;
  v1_downloadURL : string;
  v1_fileName : string;
  v1_embedding : list jsval;
  v1_embDim : nat;
}.

(** The inner [try] block of its loop: the document stored, [None] when a
    step throws.  It uploads the file as it is and awaits [embedFace]
    without a timeout. *)
Definition processFileSequential (eid : string) (fw : fileWorld) (file : pickedFile)
    (i : nat) : option storedDocV1 :=
  if negb (uploadOk fw) then None
  else
    match downloadUrl fw with
    | None => None
    | Some url =>
        match embedAnswer fw with
        | None => None
        | Some (status, body) =>
            match embedFace_v1 status body with
            | V1Embedding (e :: es) =>
                if negb (addDocOk fw) then None
                else Some {| v1_eventId := eid;
                             v1_fullPath :=
                               photoPath eid (showNat (clock fw)) (showNat (i + 1))
                                 (fileName file);
                             v1_downloadURL := url;
                             v1_fileName := fileName file;
                             v1_embedding := e :: es;
                             v1_embDim := length (e :: es) |}
            | _ => None
            end
        end
    end.

(** The [for] loop from index [i] on, with [done] and the documents stored
    so far. *)
Fixpoint uploadEach (eid : string) (world : nat -> fileWorld) (i : nat)
    (files : list pickedFile) (done : nat) (stored : list storedDocV1)
    : nat * list storedDocV1 :=
  match files with
  | [] => (done, stored)
  | file :: rest =>
      uploadEach eid world (S i) rest (S done)
        (match processFileSequential eid (world i) file i with
         | Some doc => stored ++ [doc]
         | None => stored
         end)
  end.

Record uploadRunV1 : Type := {
  v1_alerted : bool;
  v1_uploading : bool;
  v1_done : nat;
  v1_docs : list storedDocV1;
  v1_navigated : bool;
}.

(** The earlier [runUpload]. *)
Definition runUploadSequential (eid : string) (files : list pickedFile) (ensureOk : bool)
    (world : nat -> fileWorld) : uploadRunV1 :=
  if String.eqb eid EmptyString then
    {| v1_alerted := true; v1_uploading := false; v1_done := 0; v1_docs := [];
       v1_navigated := false |}
  else if (length files =? 0)%nat then
    {| v1_alerted := true; v1_uploading := false; v1_done := 0; v1_docs := [];
       v1_navigated := false |}
  else if negb ensureOk then
    {| v1_alerted := false; v1_uploading := false; v1_done := 0; v1_docs := [];
       v1_navigated := false |}
  else
    let '(done, stored) := uploadEach eid world 0 files 0 [] in
    {| v1_alerted := false; v1_uploading := false; v1_done := done; v1_docs := stored;
       v1_navigated := true |}.

(** A document of the later page without the two sizes it adds. *)
Definition withoutSizes (doc : storedDoc) : storedDocV1 :=
  {| v1_eventId := stored_eventId doc;
     v1_fullPath := stored_fullPath doc;
     v1_downloadURL := stored_downloadURL doc;
     v1_fileName := stored_fileName doc;
     v1_embedding := stored_embedding doc;
     v1_embDim := stored_embDim doc |}.
End UploadSequential.

(** ** The ingest page ([IngestClient]: [ingestOne], [runQueue]) *)

Section Ingest.
Context {N : JSNumber}.

Inductive rowStatus : Type := StatusUploaded | StatusEmbedded | StatusNoFace | StatusError.

Record Row : Type := {
  rowId : string;
  rowDownloadURL : string;
  rowStatusOf : rowStatus;
}.

(** [clamp(n, a, b)]: [Math.max(a, Math.min(b, n))], on whole numbers. *)
Definition clamp (n a b : nat) : nat := max a (min b n).

(** What the services do for one row: whether the two [updateDoc] calls
    resolve, and what [embedFace] resolves with. *)
Record ingestWorld : Type := {
  resetOk : bool;
  embedResult : EmbedResult;
  writeOk : bool;
}.

(** A call of [updateDoc] that resolved. *)
Record docWrite : Type := {
  writeId : string;
  writeStatus : rowStatus;
  writeEmbedding : option (list num);
}.

Inductive ingestOut : Type :=
| IngestOk
| IngestFailed (st : rowStatus).

(** [ingestOne]: the writes that resolved, and what it resolves with
    ([None]: it throws). *)
Definition ingestOne (iw : ingestWorld) (row : Row) : list docWrite * option ingestOut :=
  if negb (resetOk iw) then ([], None)
  else
    let reset := {| writeId := rowId row; writeStatus := StatusUploaded;
                    writeEmbedding := None |} in
    match embedResult iw with
    | EmbedFail code =>
        let st := match code with NO_FACE => StatusNoFace | _ => StatusError end in
        if negb (writeOk iw) then ([reset], None)
        else ([reset; {| writeId := rowId row; writeStatus := st; writeEmbedding := None |}],
              Some (IngestFailed st))
    | EmbedOk emb =>
        if negb (writeOk iw) then ([reset], None)
        else ([reset; {| writeId := rowId row; writeStatus := StatusEmbedded;
                         writeEmbedding := Some emb |}],
              Some IngestOk)
    end.

(** The counters of [runQueue], the rows patched by [updateRowLocal] after
    an [ingestOne] has settled, and the writes that resolved, those of a
    row together, the rows in the order in which they completed. *)
Record queueState : Type := {
  okRows : nat;
  failRows : nat;
  patched : list (string * rowStatus);
  written : list docWrite;
}.

(** What a worker of [runQueue] does once [ingestOne] has settled. *)
Definition rowDone (world : nat -> ingestWorld) (r : Row) (index : nat) (s : queueState)
    : queueState :=
  let '(writes, out) := ingestOne (world index) r in
  match out with
  | Some IngestOk =>
      {| okRows := S (okRows s); failRows := failRows s;
         patched := patched s ++ [(rowId r, StatusEmbedded)];
         written := written s ++ writes |}
  | Some (IngestFailed st) =>
      {| okRows := okRows s; failRows := S (failRows s);
         patched := patched s ++ [(rowId r, st)];
         written := written s ++ writes |}
  | None =>
      {| okRows := okRows s; failRows := S (failRows s);
         patched := patched s ++ [(rowId r, StatusError)];
         written := written s ++ writes |}
  end.

(** [runQueue]: [clamp(concurrency, 1, 8)] workers shift rows off the
    queue; [world i] is what the services do for the row at index [i] of
    [targets]. *)
Definition runQueue (targets : list Row) (concurrency : nat) (world : nat -> ingestWorld)
    (schedule : list nat) : pool unit queueState :=
  runPool (fun _ _ => tt) (rowDone world) false targets (clamp concurrency 1 8)
    {| okRows := 0; failRows := 0; patched := []; written := [] |} schedule.

(** The status the page shows for a row after its turn. *)
Definition shownStatus (out : option ingestOut) : rowStatus :=
  match out with
  | Some IngestOk => StatusEmbedded
  | Some (IngestFailed st) => st
  | None => StatusError
  end.

Definition resolvedOk (out : option ingestOut) : bool :=
  match out with Some IngestOk => true | _ => false end.

(** The rows at the indices [order], each with what its [ingestOne]
    resolved with. *)
Definition outcomesAt (targets : list Row) (world : nat -> ingestWorld) (order : list nat)
    : list (Row * option ingestOut) :=
  omap (fun i => (fun r => (r, snd (ingestOne (world i) r))) <$> targets !! i) order.
End Ingest.

(** ** Sample values, for the examples below *)

(** [Number] on the values of the examples: numbers are kept, [null] and
    [false] are 0, [true] is 1, the rest is taken to NaN. *)
Definition numberOf (v : @jsval Float64) : float :=
  match v with
  | JNumber x => x
  | JNull | JBool false => 0%float
  | JBool true => 1%float
  | _ => PrimFloat.nan
  end.

Definition jnum (x : float) : @jsval Float64 := JNumber (N:=Float64) x.

(** A vector of binary64 numbers. *)
Definition floats (l : list float) : list (@num Float64) := l.

Definition jreal (r : R) : @jsval Exact := JNumber (N:=Exact) (XR r).

(** A vector of finite numbers of [Exact]. *)
Definition reals (rs : list R) : list (@num Exact) := map XR rs.

Definition exactNumberOf (v : @jsval Exact) : @num Exact :=
  match v with
  | JNumber x => x
  | JNull | JBool false => XR 0
  | JBool true => XR 1
  | _ => XNaN
  end.

(** Three response bodies and what [JSON.parse] makes of them; any other
    text of the examples is not JSON. *)
Definition dq : string := String (Ascii.ascii_of_nat 34) EmptyString.

Definition bodyEmptyObject : string := "{}".

(** [{"faces":[{},{"embedding":[1,2]}]}] *)
Definition bodyTwoFaces : string :=
  ("{" ++ dq ++ "faces" ++ dq ++ ":[{},{" ++ dq ++ "embedding" ++ dq ++ ":[1,2]}]}")%string.

(** [{"faces":[{"embedding":[]},{"embedding":[1,2]}]}] *)
Definition bodyTwoFacesEmptyFirst : string :=
  ("{" ++ dq ++ "faces" ++ dq ++ ":[{" ++ dq ++ "embedding" ++ dq ++ ":[]},{"
       ++ dq ++ "embedding" ++ dq ++ ":[1,2]}]}")%string.

Definition faceWith (emb : list float) : @jsval Float64 :=
  JObject [("embedding"%string, JArray (map jnum emb))].

Definition sampleParse (text : string) : option (@jsval Float64) :=
  if String.eqb text bodyEmptyObject then Some (JObject [])
  else if String.eqb text bodyTwoFaces then
    Some (JObject [("faces"%string, JArray [JObject []; faceWith [1%float; 2%float]])])
  else if String.eqb text bodyTwoFacesEmptyFirst then
    Some (JObject [("faces"%string, JArray [faceWith []; faceWith [1%float; 2%float]])])
  else None.

(** A pool of three photos: [a] shows the face of the selfie, the analysis
    of [b] fails, [c] shows two other faces. *)
Definition photo (name : string) : PhotoItem :=
  {| path := name; url := ("https://photos/" ++ name)%string |}.

Definition sampleAnalyze (p : PhotoItem) : @analysis Float64 :=
  if String.eqb (path p) "a" then Detected (N:=Float64) [[1%float; 0%float]]
  else if String.eqb (path p) "b" then AnalyzeFails
  else Detected (N:=Float64) [[0%float; 1%float]; [1%float; 1%float]].

Definition sampleWorld (stopAt : option stopPoint) : @world Float64 :=
  {| models := ModelsReady;
     selfie := SelfieFace (N:=Float64) [1%float; 0%float];
     analyze := sampleAnalyze;
     settleOrder := fun _ => [1; 0];
     stop := stopAt |}.

Definition samplePool : list PhotoItem := [photo "a"; photo "b"; photo "c"].

(** A pool with a photo, [n], whose only face looks the other way: its
    similarity to the selfie is negative. *)
Definition negativeAnalyze (p : PhotoItem) : @analysis Float64 :=
  if String.eqb (path p) "n" then Detected (N:=Float64) [[(-1)%float; 0%float]]
  else sampleAnalyze p.

Definition negativeWorld : @world Float64 :=
  {| models := ModelsReady;
     selfie := SelfieFace (N:=Float64) [1%float; 0%float];
     analyze := negativeAnalyze;
     settleOrder := fun _ => [1; 0];
     stop := None |}.

Definition negativePool : list PhotoItem := [photo "a"; photo "n"; photo "c"].

(** A stored photo of the embedding variant whose embedding is orthogonal
    to the selfie embedding [[1, 0]]. *)
Definition sampleDoc : @PhotoDoc Float64 :=
  {| photoId := "d1"; fullPath := "events/e/photos/d1.jpg";
     downloadURL := "https://photos/d1"; embedding := floats [0%float; 1%float] |}.

(** Three stored photos over exact reals: against the selfie [[1, 0]] the
    first and the third score 0, the second -1. *)
Definition exactDoc (id : string) (e : list R) : @PhotoDoc Exact :=
  {| photoId := id; fullPath := "events/e/photos/" ++ id ++ ".jpg";
     downloadURL := "https://photos/" ++ id; embedding := reals e |}.

Definition exactDocs : list (@PhotoDoc Exact) :=
  [exactDoc "d1" [0%R; 1%R]; exactDoc "d2" [(-1)%R; 0%R]; exactDoc "d3" [0%R; 1%R]].

(** The same pool in a world over exact reals, and two orders in which the
    workers of a chunk may settle. *)
Definition exactAnalyze (p : PhotoItem) : @analysis Exact :=
  if String.eqb (path p) "a" then Detected (N:=Exact) [reals [1%R; 0%R]]
  else if String.eqb (path p) "b" then AnalyzeFails
  else Detected (N:=Exact) [reals [0%R; 1%R]; reals [1%R; 1%R]].

Definition exactWorld : @world Exact :=
  {| models := ModelsReady;
     selfie := SelfieFace (N:=Exact) (reals [1%R; 0%R]);
     analyze := exactAnalyze;
     settleOrder := fun _ => [];
     stop := None |}.

Definition inOrder (k : nat) : list nat := [0; 1].
Definition reversed (k : nat) : list nat := [1; 0].

(** A world whose photos are analysed through the proxy: the upstream
    serves every URL, the bytes being the URL itself, and the detector
    finds the face of the selfie in the photo [a] only. *)
Definition proxyDetect (c : string) : option (list (@descriptor Float64)) :=
  if String.eqb c "https://photos/a" then Some [floats [1; 0]%float] else Some [].

Definition proxyWorld : @world Float64 :=
  {| models := ModelsReady;
     selfie := SelfieFace (N:=Float64) [1%float; 0%float];
     analyze := analyzeViaProxy true (fun u => UpstreamResponds 200 None u) Some Some proxyDetect;
     settleOrder := fun _ => [];
     stop := None |}.

(** Two picked photos.  The first is stored; the upload of the second
    fails. *)
Definition showDecimal (n : nat) : string := NilEmpty.string_of_uint (Nat.to_uint n).

Definition floatMax (a b : float) : float := if PrimFloat.ltb a b then b else a.

Definition samplePicked : list pickedFile :=
  [ {| fileName := "a b.jpg"; fileType := Some "image/jpeg"%string; fileSize := 900;
       lastModified := Some 1 |};
    {| fileName := "c.png"; fileType := Some "image/png"%string; fileSize := 200;
       lastModified := None |} ].

Definition sampleSettings : uploadSettings :=
  {| enableCompress := true; targetSize := 500; uploadConcurrency := Whole 4 |}.

Definition sampleImage : @imageWorld Float64 :=
  @Build_imageWorld Float64 true true
    (fun q : float => if PrimFloat.ltb q 0x1.999999999999ap-1%float then Some 400 else Some 700).

Definition sampleFileWorld (i : nat) : @fileWorld Float64 :=
  {| image := sampleImage;
     uploadOk := (i =? 0);
     downloadUrl := Some "https://storage/a"%string;
     embedTimesOut := false;
     embedAnswer :=
       Some (200, Some (JObject [("ok"%string, JBool true);
                                 ("data"%string,
                                  JObject [("faces"%string,
                                            JArray [faceWith [1%float; 2%float]])])]));
     addDocOk := true;
     clock := 17 |}.

Definition sampleUpload : @uploadRun Float64 :=
  runUpload (N:=Float64) floatMax showDecimal
    0x1.47ae147ae147bp-4%float 0x1.c28f5c28f5c29p-1%float 0x1.0a3d70a3d70a4p-1%float
    "e1" samplePicked sampleSettings true sampleFileWorld [1; 0].

(** The same upload with 2.5 typed into the field for the number of
    workers. *)
Definition sampleSettingsFractional : uploadSettings :=
  {| enableCompress := true; targetSize := 500; uploadConcurrency := Between 2 |}.

Definition sampleUploadFractional : @uploadRun Float64 :=
  runUpload (N:=Float64) floatMax showDecimal
    0x1.47ae147ae147bp-4%float 0x1.c28f5c28f5c29p-1%float 0x1.0a3d70a3d70a4p-1%float
    "e1" samplePicked sampleSettingsFractional true sampleFileWorld [1; 0].

Definition sampleSettingsPlain : uploadSettings :=
  {| enableCompress := false; targetSize := 500; uploadConcurrency := Whole 4 |}.

(** ** Auxiliary notions over the reals *)

(** The sum of the squares of a list of reals, added to [s0]. *)
Definition Rsumsq (s0 : R) (rs : list R) : R := fold_left (fun acc r => (acc + r * r)%R) rs s0.

(** The dot product of two lists of reals, added to [d0]. *)
Definition Rdot (d0 : R) (xs ys : list R) : R :=
  fold_left (fun acc xy => (acc + fst xy * snd xy)%R) (combine xs ys) d0.


(** * Properties *)

(** ** The number systems satisfy the laws *)

Lemma Prim2SF_zero : Prim2SF 0%float = S754_zero false.
Proof. reflexivity. Qed.

Lemma float_eqb_zero (x : float) :
  PrimFloat.eqb x 0%float = true -> exists s, Prim2SF x = S754_zero s.
Proof.
  rewrite FloatAxioms.eqb_spec, Prim2SF_zero.
  destruct (Prim2SF x) as [s|s| |s m e]; cbn; try discriminate; eauto.
  - destruct s; discriminate.
  - destruct s; discriminate.
Qed.

Lemma float_isZero (x : float) :
  isZero (N:=Float64) x = true -> exists s, Prim2SF x = S754_zero s.
Proof.
  unfold isZero; cbn. unfold float_truthy, PrimFloat.is_finite, PrimFloat.is_zero.
  intros H. apply andb_prop in H as [Hfin Hfalsy].
  apply negb_true_iff, orb_false_elim in Hfin as [Hnan _].
  apply negb_true_iff, negb_false_iff in Hfalsy. rewrite Hnan, orb_false_r in Hfalsy.
  now apply float_eqb_zero.
Qed.

Lemma float_falsy_of_spec (z : float) :
  (exists s, Prim2SF z = S754_zero s) \/ Prim2SF z = S754_nan ->
  float_truthy z = false.
Proof.
  unfold float_truthy, PrimFloat.is_zero, PrimFloat.is_nan.
  rewrite !FloatAxioms.eqb_spec. change (Prim2SF PrimFloat.zero) with (S754_zero false).
  intros [[s ->] | ->]; reflexivity.
Qed.

#[export] Instance Float64_zero_laws : NumberZeroLaws Float64.
Proof.
  split.
  - intros x y Hx. destruct (float_isZero x Hx) as [s Hs]. cbn.
    apply float_falsy_of_spec. rewrite mul_spec, Hs. unfold SF64mul.
    destruct (Prim2SF y); cbn; eauto.
  - intros x y Hy. destruct (float_isZero y Hy) as [s Hs]. cbn.
    apply float_falsy_of_spec. rewrite mul_spec, Hs. unfold SF64mul.
    destruct (Prim2SF x); cbn; eauto.
  - intros x. cbn. rewrite ltb_spec, leb_spec, Prim2SF_zero.
    destruct (Prim2SF x) as [s|s| |s m e]; cbn; try discriminate;
      destruct s; cbn; congruence.
Qed.

Ltac xreal_cases :=
  unfold Ris_zero, Rsign_neg in *;
  repeat match goal with
         | |- context [Rlt_dec ?a ?b] => destruct (Rlt_dec a b)
         | |- context [Rle_dec ?a ?b] => destruct (Rle_dec a b)
         | |- context [Req_dec_T ?a ?b] => destruct (Req_dec_T a b)
         | H : context [Rlt_dec ?a ?b] |- _ => destruct (Rlt_dec a b)
         | H : context [Rle_dec ?a ?b] |- _ => destruct (Rle_dec a b)
         | H : context [Req_dec_T ?a ?b] |- _ => destruct (Req_dec_T a b)
         end;
  cbn in *; try discriminate; try reflexivity; try lra.

Lemma exact_isZero (x : xreal) : isZero (N:=Exact) x = true -> x = XR 0.
Proof.
  destruct x as [r| |s]; cbn; try discriminate.
  xreal_cases. intros _. now subst.
Qed.

#[export] Instance Exact_zero_laws : NumberZeroLaws Exact.
Proof.
  split.
  - intros x y Hx. apply exact_isZero in Hx as ->. destruct y; cbn; xreal_cases.
  - intros x y Hy. apply exact_isZero in Hy as ->. destruct x; cbn; xreal_cases.
  - intros [r| |s]; cbn; xreal_cases. destruct s; cbn; congruence.
Qed.

#[export] Instance Exact_order_laws : NumberOrderLaws Exact.
Proof.
  split.
  - intros [a| |s] [b| |t]; cbn; xreal_cases;
      try destruct s; try destruct t; cbn; congruence.
  - intros [a| |s] [b| |t]; cbn; xreal_cases;
      try destruct s; try destruct t; cbn; congruence.
  - intros [a| |s] [b| |t] [c| |u]; cbn; xreal_cases;
      try destruct s; try destruct t; try destruct u; cbn; congruence.
  - intros [a| |s] [b| |t]; cbn; xreal_cases;
      try destruct s; try destruct t; cbn; congruence.
Qed.

#[export] Instance Exact_compare_laws : NumberCompareLaws Exact.
Proof.
  split.
  - intros [a| |s] [b| |t]; cbn; xreal_cases;
      try destruct s; try destruct t; cbn; congruence.
  - intros [a| |s] [b| |t]; cbn; xreal_cases;
      try destruct s; try destruct t; cbn; congruence.
  - intros [a| |s] [b| |t] [c| |u]; cbn; xreal_cases;
      try destruct s; try destruct t; try destruct u; cbn; congruence.
  - intros [a| |s] [b| |t]; cbn; xreal_cases;
      try destruct s; try destruct t; cbn; congruence.
Qed.

(** ** Vector math *)

Section SimilarityFacts.
Context {N : JSNumber}.
Variable ToNumber : jsval -> num.

Lemma isArray_asArray (v : jsval) : isArray v = false -> asArray v = None.
Proof. destruct v; cbn; congruence. Qed.

(** The loop of [lib/similarity.ts] on two arrays of the same length: it
    gives up exactly when some element is not finite, and otherwise has
    added up the three sums. *)
Lemma accumulate_sums (a b : list num) : forall dot na nb,
  length a = length b ->
  accumulate a b dot na nb =
    if allFinite a && allFinite b
    then Some (fold_left (fun acc xy => nadd acc (nmul (fst xy) (snd xy))) (combine a b) dot,
               fold_left (fun acc x => nadd acc (nmul x x)) a na,
               fold_left (fun acc x => nadd acc (nmul x x)) b nb)
    else None.
Proof.
  revert b. induction a as [|x a IH]; intros [|y b] dot na nb Hlen; try discriminate.
  - reflexivity.
  - cbn in Hlen. injection Hlen as Hlen. cbn.
    destruct (isFinite x), (isFinite y); cbn; try reflexivity.
    + now rewrite IH.
    + now rewrite andb_false_r.
Qed.

Lemma allFinite_app (a b : list num) :
  allFinite (a ++ b) = allFinite a && allFinite b.
Proof. apply forallb_app. Qed.

Lemma length_zero_nil {A : Type} (l : list A) : (length l =? 0) = true <-> l = [].
Proof. destruct l; cbn; split; congruence. Qed.

(** The value of [cosineSimilarity] on two arrays, by cases. *)
Lemma cosineSimilarity_arrays (aItems bItems : list jsval) :
  let a := map ToNumber aItems in
  let b := map ToNumber bItems in
  cosineSimilarity ToNumber (JArray aItems) (JArray bItems) =
    if (length a =? 0) || (length b =? 0) || negb (length a =? length b)
       || negb (allFinite (a ++ b))
    then nzero
    else if truthy (nmul (norm a) (norm b))
         then ndiv (dotProduct a b) (nmul (norm a) (norm b))
         else nzero.
Proof.
  intros a b. unfold cosineSimilarity. cbn. fold a b.
  destruct (length a =? 0); [reflexivity|].
  destruct (length b =? 0); [reflexivity|]. cbn.
  destruct (length a =? length b) eqn:Hlen; [|reflexivity]. cbn.
  apply Nat.eqb_eq in Hlen.
  rewrite accumulate_sums by assumption. rewrite allFinite_app.
  destruct (allFinite a && allFinite b); reflexivity.
Qed.
End SimilarityFacts.

(** C1 (as amended).  [cosineSimilarity] of [lib/similarity.ts] always
    returns a number: [0] when an input is not an array, is empty, when the
    lengths differ or when an element is not finite after [Number]; else
    the dot product over the product of the two norms, unless that product
    is [0] or [NaN], where it returns [0], as it does whenever a norm is
    zero. *)
Theorem cosineSimilarity_validates (N : JSNumber) (L : NumberZeroLaws N)
    (ToNumber : jsval -> num) (aRaw bRaw : jsval) :
  (isArray aRaw = false \/ isArray bRaw = false ->
     cosineSimilarity ToNumber aRaw bRaw = nzero) /\
  (forall aItems bItems, aRaw = JArray aItems -> bRaw = JArray bItems ->
     let a := map ToNumber aItems in
     let b := map ToNumber bItems in
     (a = [] \/ b = [] \/ length a <> length b \/ allFinite (a ++ b) = false ->
        cosineSimilarity ToNumber aRaw bRaw = nzero) /\
     (a <> [] -> length a = length b -> allFinite (a ++ b) = true ->
        cosineSimilarity ToNumber aRaw bRaw =
          (if truthy (nmul (norm a) (norm b))
           then ndiv (dotProduct a b) (nmul (norm a) (norm b)) else nzero) /\
        (isZero (norm a) = true \/ isZero (norm b) = true ->
           cosineSimilarity ToNumber aRaw bRaw = nzero))).
Proof.
  split.
  - intros [H | H]; unfold cosineSimilarity.
    + now rewrite (isArray_asArray _ H).
    + rewrite (isArray_asArray _ H). now destruct (asArray aRaw).
  - intros aItems bItems -> -> a b. rewrite cosineSimilarity_arrays. fold a b. split.
    + intros [Ha | [Hb | [Hlen | Hfin]]].
      * rewrite Ha. reflexivity.
      * rewrite Hb. cbn. now rewrite orb_true_r.
      * apply Nat.eqb_neq in Hlen. rewrite Hlen. cbn. now rewrite orb_true_r.
      * rewrite Hfin. cbn. now rewrite !orb_true_r.
    + intros Ha Hlen Hfin.
      assert (Hguard : (length a =? 0) || (length b =? 0) || negb (length a =? length b)
                       || negb (allFinite (a ++ b)) = false).
      { rewrite Hfin, <- Hlen, Nat.eqb_refl. cbn. rewrite !orb_false_r.
        destruct a; [congruence | reflexivity]. }
      rewrite Hguard. split; [reflexivity|].
      intros [Hz | Hz].
      * now rewrite (mul_zero_l _ _ Hz).
      * now rewrite (mul_zero_r _ _ Hz).
Qed.

Lemma cosineSimilarity_validates_witness :
  cosineSimilarity numberOf (JArray [jnum 3; jnum 4]) (JArray [jnum 3]) = 0%float.
Proof.
  destruct (cosineSimilarity_validates Float64 Float64_zero_laws numberOf
              (JArray [jnum 3; jnum 4]) (JArray [jnum 3])) as [_ H].
  destruct (H _ _ eq_refl eq_refl) as [H0 _].
  apply H0. right; right; left. cbn. lia.
Defined.

(** C1, counterexample.  The face-api variant of [find-client.tsx] checks
    nothing: on vectors of lengths 1 and 2 it returns a similarity close to
    1, and with the longer vector first it returns NaN. *)
Lemma cosineSimilarity_faceapi_unguarded :
  length [1%float] <> length [1%float; 2%float] /\
  cosineSimilarity_faceapi (N:=Float64) [1%float] [1%float; 2%float]
    = 0x1.ffffffff2419p-1%float /\
  0x1.ffffffff2419p-1%float <> 0%float /\
  cosineSimilarity_faceapi (N:=Float64) [1%float; 2%float] [1%float] = PrimFloat.nan.
Proof.
  split; [cbn; lia|]. split; [vm_compute; reflexivity|].
  split; [|vm_compute; reflexivity].
  intros H. apply (f_equal PrimFloat.is_zero) in H. vm_compute in H. discriminate.
Qed.

(** *** A vector against itself *)

Section SelfSimilarity.
Context {N : JSNumber}.

Lemma dot_self (a : list num) : forall d,
  fold_left (fun acc xy => nadd acc (nmul (fst xy) (snd xy))) (combine a a) d =
  fold_left (fun acc x => nadd acc (nmul x x)) a d.
Proof. induction a as [|x a IH]; intros d; cbn; [reflexivity | apply IH]. Qed.

Lemma dotProduct_self (a : list num) : dotProduct a a = sumSquares a.
Proof. apply dot_self. Qed.

(** The loop of the two variants on a vector against itself. *)
Lemma sums_self (a : list num) : forall d p q,
  sums a a d p q =
    (fold_left (fun acc x => nadd acc (nmul x x)) a d,
     fold_left (fun acc x => nadd acc (nmul x x)) a p,
     fold_left (fun acc x => nadd acc (nmul x x)) a q).
Proof. induction a as [|x a IH]; intros d p q; cbn; [reflexivity | apply IH]. Qed.
End SelfSimilarity.

Lemma exact_allFinite (a : list (@num Exact)) :
  allFinite a = true -> exists rs, a = reals rs.
Proof.
  induction a as [|x a IH]; cbn.
  - exists []. reflexivity.
  - intros H. apply andb_prop in H as [Hx Ha]. destruct (IH Ha) as [rs ->].
    destruct x as [r| |s]; try discriminate. exists (r :: rs). reflexivity.
Qed.

Lemma exact_sumsq (rs : list R) : forall s0,
  fold_left (fun acc x => nadd acc (nmul x x)) (reals rs) (XR s0 : @num Exact)
  = XR (Rsumsq s0 rs).
Proof. induction rs as [|r rs IH]; intros s0; cbn; [reflexivity | apply IH]. Qed.

Lemma Rsumsq_ge (rs : list R) : forall s0, (s0 <= Rsumsq s0 rs)%R.
Proof.
  induction rs as [|r rs IH]; intros s0; cbn; [lra|].
  specialize (IH (s0 + r * r)%R). unfold Rsumsq in *. nra.
Qed.

Lemma Rsumsq_pos (rs : list R) : forall s0,
  (0 <= s0)%R -> Exists (fun r => r <> 0%R) rs -> (0 < Rsumsq s0 rs)%R.
Proof.
  induction rs as [|r rs IH]; intros s0 Hs0 Hex; inversion Hex; subst; cbn.
  - pose proof (Rsumsq_ge rs (s0 + r * r)%R). unfold Rsumsq in *.
    assert (0 < r * r)%R by nra. lra.
  - apply IH; [nra | assumption].
Qed.

Lemma exact_nonzero (rs : list R) :
  Exists (fun x => @truthy Exact x = true) (reals rs) -> Exists (fun r => r <> 0%R) rs.
Proof.
  induction rs as [|r rs IH]; cbn; intros H; inversion H; subst.
  - left. cbn in *. xreal_cases.
  - right. now apply IH.
Qed.

(** The squared norm of a finite vector with a non-zero element is
    positive, and its norm is the real square root. *)
Lemma exact_sumSquares (a : list (@num Exact)) :
  allFinite a = true -> Exists (fun x => @truthy Exact x = true) a ->
  exists s, (0 < s)%R /\ sumSquares a = XR s.
Proof.
  intros Hfin Hnz. destruct (exact_allFinite _ Hfin) as [rs ->].
  exists (Rsumsq 0 rs). split.
  - apply Rsumsq_pos; [lra | now apply exact_nonzero].
  - apply exact_sumsq.
Qed.

(** C9 (as amended).  Over exact reals, [cosineSimilarity] of
    [lib/similarity.ts] gives exactly 1 on a vector against itself, when
    the elements are finite after [Number] and one of them is not zero. *)
Theorem cosineSimilarity_self_exact (ToNumber : @jsval Exact -> @num Exact) (items : list jsval) :
  allFinite (N:=Exact) (map ToNumber items) = true ->
  Exists (fun x => @truthy Exact x = true) (map ToNumber items) ->
  cosineSimilarity (N:=Exact) ToNumber (JArray items) (JArray items) = XR 1.
Proof.
  intros Hfin Hnz. rewrite cosineSimilarity_arrays.
  rewrite allFinite_app, Hfin, Nat.eqb_refl. cbn [negb andb orb].
  assert (Hlen : (length (map ToNumber items) =? 0) = false).
  { destruct (map ToNumber items); [inversion Hnz | reflexivity]. }
  rewrite Hlen. cbn [orb].
  rewrite dotProduct_self. unfold norm.
  destruct (exact_sumSquares _ Hfin Hnz) as (s & Hpos & ->).
  assert (Hsq : (R_sqrt.sqrt s * R_sqrt.sqrt s = s)%R) by (apply sqrt_sqrt; lra).
  cbn. unfold Rsign_neg. destruct (Rlt_dec s 0); [lra|]. cbn.
  unfold Ris_zero. destruct (Req_dec_T (R_sqrt.sqrt s * R_sqrt.sqrt s) 0); [lra|]. cbn.
  f_equal. rewrite Hsq. field. lra.
Qed.

Lemma cosineSimilarity_self_exact_witness :
  cosineSimilarity (N:=Exact) exactNumberOf
    (JArray [jreal 3; jreal 4]) (JArray [jreal 3; jreal 4]) = XR 1.
Proof.
  apply (cosineSimilarity_self_exact exactNumberOf [jreal 3; jreal 4]).
  - reflexivity.
  - left. cbn. xreal_cases.
Defined.

(** The embedding variant agrees on a vector against itself. *)
Lemma cosineSimilarity_embedding_self_exact (a : list (@num Exact)) :
  allFinite a = true -> Exists (fun x => @truthy Exact x = true) a ->
  cosineSimilarity_embedding (Some a) (Some a) = XR 1.
Proof.
  intros Hfin Hnz. unfold cosineSimilarity_embedding.
  assert (Hlen : (length a =? 0) = false) by (destruct a; [inversion Hnz | reflexivity]).
  rewrite Hlen, Nat.eqb_refl. cbn [negb orb]. rewrite sums_self.
  change (fold_left (fun acc x => nadd acc (nmul x x)) a nzero) with (sumSquares a).
  destruct (exact_sumSquares _ Hfin Hnz) as (s & Hpos & ->).
  assert (Hsq : (R_sqrt.sqrt s * R_sqrt.sqrt s = s)%R) by (apply sqrt_sqrt; lra).
  cbn. unfold Rsign_neg. destruct (Rlt_dec s 0); [lra|]. cbn.
  unfold Ris_zero. destruct (Req_dec_T (R_sqrt.sqrt s * R_sqrt.sqrt s) 0); [lra|]. cbn.
  f_equal. rewrite Hsq. field. lra.
Qed.

(** The face-api variant does not: with [s] the squared norm it gives
    [s / (s + 1e-10)], which is below 1. *)
Lemma cosineSimilarity_faceapi_self_exact (a : list (@num Exact)) :
  allFinite a = true -> Exists (fun x => @truthy Exact x = true) a ->
  exists s, (0 < s)%R /\ sumSquares a = XR s /\
    cosineSimilarity_faceapi a a = XR (s / (s + 1 / 10000000000)) /\
    (s / (s + 1 / 10000000000) < 1)%R.
Proof.
  intros Hfin Hnz. destruct (exact_sumSquares _ Hfin Hnz) as (s & Hpos & Hs).
  exists s. split; [assumption|]. split; [assumption|]. split.
  - unfold cosineSimilarity_faceapi. rewrite sums_self.
    change (fold_left (fun acc x => nadd acc (nmul x x)) a nzero) with (sumSquares a).
    rewrite Hs.
    assert (Hsq : (R_sqrt.sqrt s * R_sqrt.sqrt s = s)%R) by (apply sqrt_sqrt; lra).
    cbn. unfold Rsign_neg. destruct (Rlt_dec s 0); [lra|]. cbn.
    unfold Ris_zero.
    destruct (Req_dec_T (R_sqrt.sqrt s * R_sqrt.sqrt s + 1 / 10000000000) 0); [lra|].
    now rewrite Hsq.
  - apply (Rmult_lt_reg_r (s + 1 / 10000000000)); [lra|].
    unfold Rdiv at 1. rewrite Rmult_assoc, Rinv_l by lra. lra.
Qed.

(** C9, counterexample.  The face-api variant on the one-element vector
    [[0.00001]], which is finite and not zero, against itself gives one
    half, in binary64 and over exact reals alike. *)
Lemma cosineSimilarity_faceapi_self_half :
  allFinite (N:=Float64) [0x1.4f8b588e368f1p-17%float] = true /\
  @truthy Float64 0x1.4f8b588e368f1p-17%float = true /\
  cosineSimilarity_faceapi (N:=Float64)
    [0x1.4f8b588e368f1p-17%float] [0x1.4f8b588e368f1p-17%float] = 0.5%float /\
  cosineSimilarity_faceapi (reals [(1 / 100000)%R]) (reals [(1 / 100000)%R]) = XR (1 / 2).
Proof.
  split; [vm_compute; reflexivity|]. split; [vm_compute; reflexivity|].
  split; [vm_compute; reflexivity|].
  destruct (cosineSimilarity_faceapi_self_exact (reals [(1 / 100000)%R])) as (s & Hpos & Hs & -> & _).
  - reflexivity.
  - left. cbn. xreal_cases.
  - cbn in Hs. injection Hs as <-. f_equal. field.
Qed.

(** In binary64 the function of [lib/similarity.ts] also leaves 1 when the
    squares overflow or underflow. *)
Lemma cosineSimilarity_self_overflow :
  cosineSimilarity numberOf (JArray [jnum 0x1.4e718d7d7625ap+664]) (JArray [jnum 0x1.4e718d7d7625ap+664])
    = PrimFloat.nan /\
  cosineSimilarity numberOf (JArray [jnum 0x1.87e92154ef7acp-665]) (JArray [jnum 0x1.87e92154ef7acp-665])
    = 0%float /\
  cosineSimilarity numberOf (JArray [jnum 3; jnum 4]) (JArray [jnum 3; jnum 4]) = 1%float.
Proof. repeat split; vm_compute; reflexivity. Qed.

(** ** The embedding adapter *)

Section AdapterFacts.
Context {N : JSNumber}.
Variable JSONparse : string -> option jsval.
Variable ToNumber : jsval -> num.
Local Open Scope string_scope.

(** What the route answers to a well-formed upload, by cases on what the
    provider did. *)
Lemma POST_upload (provider : providerOutcome) :
  POST JSONparse upload provider =
    match provider with
    | FetchRejects message => jsonError 500 [("error", JString message)]
    | Responds status text =>
        match JSONparse text with
        | None =>
            jsonError 502 [("error", JString "face-server JSON parse failed");
                           ("raw", JString text)]
        | Some data =>
            if negb (statusOk status) then
              jsonError 502 [("error", JString "face-server error");
                             ("status", JNumber (nofNat status)); ("data", data)]
            else
              match findFace (facesOf data) with
              | None => jsonError 500 [("error", JString "TypeError")]
              | Some best =>
                  {| apiStatus := 200;
                     apiPayload := JObject
                       [("ok", JBool true);
                        ("faces_count", JNumber (nofNat (length (facesOf data))));
                        ("faces", JArray (facesOf data));
                        ("embedding",
                          match best with
                          | Some f => if jsTruthy (getOpt f "embedding")
                                      then getOpt f "embedding" else JNull
                          | None => JNull
                          end);
                        ("message",
                          JString (if (length (facesOf data) =? 0)%nat then "NO_FACE" else "OK"))] |}
              end
        end
    end.
Proof. reflexivity. Qed.

(** An error answer of the route reaches the caller as [SERVER]. *)
Lemma embedFace_jsonError (status : nat) (fields : list (string * jsval)) :
  statusOk status = false ->
  embedFace ToNumber true (received (jsonError status fields)) = EmbedFail SERVER.
Proof. intros H. unfold embedFace, received. cbn [apiStatus jsonError]. now rewrite H. Qed.

(** The first face that carries an embedding, when no entry before it is
    [null]. *)
Lemma findFace_first (pre post : list jsval) (f : jsval) :
  Forall (fun g => isNullish g = false /\ carriesEmbedding g = false) pre ->
  carriesEmbedding f = true ->
  findFace (pre ++ f :: post) = Some (Some f).
Proof.
  intros Hpre Hf. induction Hpre as [|g pre [Hg1 Hg2] _ IH]; cbn.
  - unfold carriesEmbedding in Hf. destruct f; cbn in *; try discriminate; now rewrite Hf.
  - unfold carriesEmbedding in Hg2. destruct g; cbn in *; try discriminate; try assumption.
    now rewrite Hg2.
Qed.

Lemma findFace_none (faces : list jsval) :
  Forall (fun g => isNullish g = false /\ carriesEmbedding g = false) faces ->
  findFace faces = Some None.
Proof.
  intros H. induction H as [|g faces [Hg1 Hg2] _ IH]; cbn; [reflexivity|].
  unfold carriesEmbedding in Hg2. destruct g; cbn in *; try discriminate; try assumption.
  now rewrite Hg2.
Qed.

(** What [find] returns, read backwards. *)
Lemma findFace_found (faces : list jsval) (f : jsval) :
  findFace faces = Some (Some f) ->
  exists pre post, faces = (pre ++ f :: post)%list /\ Forall skipped pre /\ carriesEmbedding f = true.
Proof.
  induction faces as [|g faces IH]; cbn; [discriminate|].
  destruct (getStrict g "embedding") as [e|] eqn:He; [|discriminate].
  assert (Hg : isNullish g = false /\ e = getOpt g "embedding").
  { destruct g; cbn in He; try discriminate; injection He as <-; now split. }
  destruct Hg as [Hnull ->].
  destruct (nonEmptyArray (getOpt g "embedding")) eqn:Hc.
  - intros [= <-]. exists [], faces. split; [reflexivity|]. split; [constructor | exact Hc].
  - intros H. destruct (IH H) as (pre & post & -> & Hpre & Hf).
    exists (g :: pre), post. split; [reflexivity|]. split; [|exact Hf].
    constructor; [now split | exact Hpre].
Qed.

Lemma findFace_nothing (faces : list jsval) :
  findFace faces = Some None -> Forall skipped faces.
Proof.
  induction faces as [|g faces IH]; cbn; [constructor|].
  destruct (getStrict g "embedding") as [e|] eqn:He; [|discriminate].
  assert (Hg : isNullish g = false /\ e = getOpt g "embedding").
  { destruct g; cbn in He; try discriminate; injection He as <-; now split. }
  destruct Hg as [Hnull ->].
  destruct (nonEmptyArray (getOpt g "embedding")) eqn:Hc; [discriminate|].
  intros H. constructor; [now split | now apply IH].
Qed.

Lemma findFace_throws (faces : list jsval) :
  findFace faces = None ->
  exists pre g post, faces = (pre ++ g :: post)%list /\ Forall skipped pre /\ isNullish g = true.
Proof.
  induction faces as [|g faces IH]; cbn; [discriminate|].
  destruct (getStrict g "embedding") as [e|] eqn:He.
  - assert (Hg : isNullish g = false /\ e = getOpt g "embedding").
    { destruct g; cbn in He; try discriminate; injection He as <-; now split. }
    destruct Hg as [Hnull ->].
    destruct (nonEmptyArray (getOpt g "embedding")) eqn:Hc; [discriminate|].
    intros H. destruct (IH H) as (pre & g' & post & -> & Hpre & Hg').
    exists (g :: pre), g', post. split; [reflexivity|]. split; [|exact Hg'].
    constructor; [now split | exact Hpre].
  - intros _. exists [], g, faces. split; [reflexivity|]. split; [constructor|].
    destruct g; cbn in He; try discriminate; reflexivity.
Qed.

Lemma findFace_null (pre post : list jsval) (g : jsval) :
  Forall skipped pre -> isNullish g = true -> findFace (pre ++ g :: post) = None.
Proof.
  intros Hpre Hg. induction Hpre as [|h pre [Hh1 Hh2] _ IH]; cbn.
  - destruct g; cbn in *; try discriminate; reflexivity.
  - unfold carriesEmbedding in Hh2. destruct h; cbn in *; try discriminate; try assumption.
    now rewrite Hh2.
Qed.

(** What the caller gets, by cases on what the provider did. *)
Lemma resolveDescriptor_cases (provider : providerOutcome) :
  resolveDescriptor JSONparse ToNumber provider =
    match provider with
    | FetchRejects _ => EmbedFail SERVER
    | Responds status text =>
        match JSONparse text with
        | None => EmbedFail SERVER
        | Some data =>
            if negb (statusOk status) then EmbedFail SERVER
            else
              match findFace (facesOf data) with
              | None => EmbedFail SERVER
              | Some None => EmbedFail NO_FACE
              | Some (Some f) =>
                  if (length (usableEntries ToNumber f) =? 0)%nat then EmbedFail NO_FACE
                  else EmbedOk (usableEntries ToNumber f)
              end
        end
    end.
Proof.
  unfold resolveDescriptor. rewrite POST_upload.
  destruct provider as [message | status text].
  - now apply embedFace_jsonError.
  - destruct (JSONparse text) as [data|]; [|now apply embedFace_jsonError].
    destruct (statusOk status); cbn [negb]; [|now apply embedFace_jsonError].
    destruct (findFace (facesOf data)) as [[f|]|] eqn:Hfind;
      [| reflexivity | now apply embedFace_jsonError].
    apply findFace_found in Hfind as (_ & _ & _ & _ & Hf).
    unfold carriesEmbedding in Hf. unfold usableEntries.
    destruct (getOpt f "embedding") as [| | | | |[|e es]|] eqn:Hemb; try discriminate.
    reflexivity.
Qed.

(** A list of finite numbers crosses as itself, but for the sign of its
    zeros. *)
Lemma usable_numbers (xs : list num) :
  (forall x, ToNumber (JNumber x) = x) ->
  (forall x, isFinite x = true -> truthy x = false -> isFinite nzero = true) ->
  Forall (fun x => isFinite x = true) xs ->
  filter (fun x => isFinite x = true) (map ToNumber (map viaJSON (map JNumber xs))) =
  map (fun x => if truthy x then x else nzero) xs.
Proof.
  intros Hnum Hzero. induction 1 as [|x xs Hx _ IH]; [reflexivity|].
  cbn [map viaJSON]. rewrite Hx, Hnum.
  rewrite filter_cons_True; [now rewrite IH|].
  destruct (truthy x) eqn:Ht; [exact Hx | exact (Hzero x Hx Ht)].
Qed.
End AdapterFacts.

(** C7 (as amended).  What the adapter (route and client) reports, for
    every outcome of the provider.  It reports a transport class failure,
    [SERVER], exactly when the call to the provider fails, when its body
    is not JSON, when its status is not a success, and when [find] meets a
    [null] among the listed faces before a face with an embedding.  It
    reports "no face" exactly for a success with a JSON body in which no
    listed face has a non-empty embedding array, or in which the first
    face that has one has no entry that is a finite number once it has
    crossed as JSON and been through [Number], whatever faces follow.  In
    every other case it succeeds, with those entries.  So a JSON body of a
    success that has no [faces] array at all is reported as "no face", and
    so is a response whose first embedding is unusable though a later face
    has a usable one. *)
Theorem resolveDescriptor_failure_classes (N : JSNumber)
    (JSONparse : string -> option jsval) (ToNumber : jsval -> num)
    (provider : providerOutcome) :
  let result := resolveDescriptor JSONparse ToNumber provider in
  (result = EmbedFail SERVER <->
     (exists message, provider = FetchRejects message) \/
     (exists status text, provider = Responds status text /\
        (JSONparse text = None \/ statusOk status = false \/
         exists data pre g post,
           JSONparse text = Some data /\ facesOf data = (pre ++ g :: post)%list /\
           Forall skipped pre /\ isNullish g = true))) /\
  (result = EmbedFail NO_FACE <->
     exists status text data,
       provider = Responds status text /\ statusOk status = true /\
       JSONparse text = Some data /\
       (Forall skipped (facesOf data) \/
        exists pre f post,
          facesOf data = (pre ++ f :: post)%list /\ Forall skipped pre /\
          carriesEmbedding f = true /\ usableEntries ToNumber f = [])) /\
  (forall emb, result = EmbedOk emb <->
     exists status text data pre f post,
       provider = Responds status text /\ statusOk status = true /\
       JSONparse text = Some data /\
       facesOf data = (pre ++ f :: post)%list /\ Forall skipped pre /\
       carriesEmbedding f = true /\ usableEntries ToNumber f = emb /\ emb <> []) /\
  result <> EmbedFail NETWORK /\ result <> EmbedFail UNKNOWN /\
  (forall status text data,
     provider = Responds status text -> statusOk status = true ->
     JSONparse text = Some data -> isArray (getOpt data "faces"%string) = false ->
     result = EmbedFail NO_FACE).
Proof.
  cbv zeta. rewrite resolveDescriptor_cases.
  destruct provider as [message | status text].
  { split; [|split; [|split; [|split; [discriminate|split; [discriminate|]]]]].
    - split; [intros _; left; eauto | reflexivity].
    - split; [discriminate | intros (? & ? & ? & ? & _); discriminate].
    - intros emb. split; [discriminate | intros (? & ? & ? & ? & ? & ? & ? & _); discriminate].
    - intros ? ? ? ?; discriminate. }
  destruct (JSONparse text) as [data|] eqn:Hparse.
  2:{ split; [|split; [|split; [|split; [discriminate|split; [discriminate|]]]]].
      - split; [intros _; right; exists status, text; auto | reflexivity].
      - split; [discriminate|]. intros (? & ? & ? & [= <- <-] & _ & ? & _). congruence.
      - intros emb. split; [discriminate|].
        intros (? & ? & ? & ? & ? & ? & [= <- <-] & _ & ? & _). congruence.
      - intros ? ? ? [= <- <-] _ ?. congruence. }
  destruct (statusOk status) eqn:Hok; cbn [negb].
  2:{ split; [|split; [|split; [|split; [discriminate|split; [discriminate|]]]]].
      - split; [intros _; right; exists status, text; auto | reflexivity].
      - split; [discriminate|]. intros (? & ? & ? & [= <- <-] & ? & _). congruence.
      - intros emb. split; [discriminate|].
        intros (? & ? & ? & ? & ? & ? & [= <- <-] & ? & _). congruence.
      - intros ? ? ? [= <- <-] ?. congruence. }
  assert (Hshape : forall pre f post, facesOf data = (pre ++ f :: post)%list -> Forall skipped pre ->
            carriesEmbedding f = true -> findFace (facesOf data) = Some (Some f)).
  { intros pre f post -> Hpre Hf. now apply findFace_first. }
  destruct (findFace (facesOf data)) as [[f|]|] eqn:Hfind.
  - (* a face with an embedding was found *)
    destruct (findFace_found _ _ Hfind) as (pre & post & Hfaces & Hpre & Hf).
    assert (Hsame : forall pre' f' post', facesOf data = (pre' ++ f' :: post')%list ->
              Forall skipped pre' -> carriesEmbedding f' = true -> f' = f).
    { intros pre' f' post' H1 H2 H3. pose proof (Hshape _ _ _ H1 H2 H3). congruence. }
    assert (Hnot : ~ Forall skipped (facesOf data)).
    { intros Hall. apply findFace_none in Hall. congruence. }
    assert (Hnonull : forall pre' g post', facesOf data = (pre' ++ g :: post')%list ->
              Forall skipped pre' -> isNullish g = true -> False).
    { intros pre' g post' H1 H2 H3. rewrite H1 in Hfind.
      rewrite (findFace_null pre' post' g H2 H3) in Hfind. discriminate. }
    destruct (usableEntries ToNumber f) as [|x emb0] eqn:Hus; cbn [length Nat.eqb].
    + split; [|split; [|split; [|split; [discriminate|split; [discriminate|]]]]].
      * split; [discriminate|].
        intros [(? & ?) | (? & ? & [= <- <-] & [? | [? | (d & p' & g & q' & Hd & H1 & H2 & H3)]])];
          try congruence.
        assert (d = data) by congruence. subst d. destruct (Hnonull _ _ _ H1 H2 H3).
      * split; [|reflexivity]. intros _. exists status, text, data.
        split; [reflexivity|]. split; [assumption|]. split; [assumption|].
        right. exists pre, f, post. auto.
      * intros emb. split; [discriminate|].
        intros (? & ? & d & p' & f' & q' & [= <- <-] & _ & Hd & H1 & H2 & H3 & H4 & H5).
        assert (d = data) by congruence. subst d.
        rewrite (Hsame _ _ _ H1 H2 H3), Hus in H4. congruence.
      * intros ? ? d [= <- <-] _ Hd Harr. assert (d = data) by congruence. subst d.
        exfalso. unfold facesOf in Hfaces.
        destruct (getOpt data "faces"%string); try discriminate; now destruct pre.
    + split; [|split; [|split; [|split; [discriminate|split; [discriminate|]]]]].
      * split; [discriminate|].
        intros [(? & ?) | (? & ? & [= <- <-] & [? | [? | (d & p' & g & q' & Hd & H1 & H2 & H3)]])];
          try congruence.
        assert (d = data) by congruence. subst d. destruct (Hnonull _ _ _ H1 H2 H3).
      * split; [discriminate|].
        intros (? & ? & d & [= <- <-] & _ & Hd & [Hall | (p' & f' & q' & H1 & H2 & H3 & H4)]);
          assert (d = data) by congruence; subst d.
        -- contradiction.
        -- rewrite (Hsame _ _ _ H1 H2 H3), Hus in H4. discriminate.
      * intros emb. split.
        -- intros [= <-]. exists status, text, data, pre, f, post.
           repeat (split; [first [reflexivity | assumption]|]). discriminate.
        -- intros (? & ? & d & p' & f' & q' & [= <- <-] & _ & Hd & H1 & H2 & H3 & H4 & H5).
           assert (d = data) by congruence. subst d.
           rewrite (Hsame _ _ _ H1 H2 H3), Hus in H4. now subst emb.
      * intros ? ? d [= <- <-] _ Hd Harr. assert (d = data) by congruence. subst d.
        exfalso. unfold facesOf in Hfaces.
        destruct (getOpt data "faces"%string); try discriminate; now destruct pre.
  - (* no face with an embedding *)
    pose proof (findFace_nothing _ Hfind) as Hall.
    split; [|split; [|split; [|split; [discriminate|split; [discriminate|]]]]].
    + split; [discriminate|].
      intros [(? & ?) | (? & ? & [= <- <-] & [? | [? | (d & p' & g & q' & Hd & H1 & H2 & H3)]])];
        try congruence.
      assert (d = data) by congruence. subst d. rewrite H1 in Hfind.
      rewrite (findFace_null p' q' g H2 H3) in Hfind. discriminate.
    + split; [|reflexivity]. intros _. exists status, text, data. auto.
    + intros emb. split; [discriminate|].
      intros (? & ? & d & p' & f' & q' & [= <- <-] & _ & Hd & H1 & H2 & H3 & _).
      assert (d = data) by congruence. subst d.
      pose proof (Hshape _ _ _ H1 H2 H3). congruence.
    + reflexivity.
  - (* [find] throws *)
    destruct (findFace_throws _ Hfind) as (pre & g & post & Hfaces & Hpre & Hg).
    split; [|split; [|split; [|split; [discriminate|split; [discriminate|]]]]].
    + split; [|reflexivity]. intros _. right. exists status, text.
      split; [reflexivity|]. right. right. exists data, pre, g, post. auto.
    + split; [discriminate|].
      intros (? & ? & d & [= <- <-] & _ & Hd & [Hall | (p' & f' & q' & H1 & H2 & H3 & _)]);
        assert (d = data) by congruence; subst d.
      * apply findFace_none in Hall. congruence.
      * pose proof (Hshape _ _ _ H1 H2 H3). congruence.
    + intros emb. split; [discriminate|].
      intros (? & ? & d & p' & f' & q' & [= <- <-] & _ & Hd & H1 & H2 & H3 & _).
      assert (d = data) by congruence. subst d.
      pose proof (Hshape _ _ _ H1 H2 H3). congruence.
    + intros ? ? d [= <- <-] _ Hd Harr. assert (d = data) by congruence. subst d.
      exfalso. unfold facesOf in Hfaces.
      destruct (getOpt data "faces"%string); try discriminate; now destruct pre.
Qed.

(** C7, counterexample.  The provider answers 200 with the body [{}], which
    is JSON but has no [faces]: the route answers [ok] with the message
    [NO_FACE], and the caller gets "no face". *)
Lemma malformed_success_is_no_face :
  sampleParse bodyEmptyObject = Some (JObject []) /\
  isArray (getOpt (N:=Float64) (JObject []) "faces"%string) = false /\
  getOpt (apiPayload (received (POST sampleParse upload (Responds 200 bodyEmptyObject))))
    "message"%string = JString "NO_FACE"%string /\
  resolveDescriptor sampleParse numberOf (Responds 200 bodyEmptyObject) = EmbedFail NO_FACE.
Proof. repeat split; vm_compute; reflexivity. Qed.

(** The provider lists a face whose embedding is [["x"]] and then one whose
    embedding is [[1, 2]]: the route answers with the first, which has no
    usable entry, and the caller gets "no face". *)
Example unusable_first_embedding_is_no_face :
  resolveDescriptor
    (fun _ => Some (JObject [("faces"%string,
                              JArray [JObject [("embedding"%string, JArray [JString "x"])];
                                      faceWith [1%float; 2%float]])]))
    numberOf (Responds 200 "body") = EmbedFail NO_FACE.
Proof. vm_compute. reflexivity. Qed.

(** C8 (as amended).  Of the faces a successful provider response lists,
    the route [app/api/embed/route.ts] answers with the embedding of the
    first one, in the order of the response, whose embedding is a non-empty
    array, whatever comes before (faces without one) and after it.  The
    caller receives it as JSON: an entry that is not a finite number
    arrives as [null], a zero of either sign as [0]; it keeps the entries
    that [Number] makes finite, so it returns a list of finite numbers as
    it is but for the sign of its zeros, and reports "no face" when it
    keeps nothing. *)
Theorem POST_picks_first_embedding (N : JSNumber)
    (JSONparse : string -> option jsval) (ToNumber : jsval -> num)
    (status : nat) (text : string) (data : jsval)
    (pre post : list jsval) (f : jsval) (items : list jsval) :
  statusOk status = true ->
  JSONparse text = Some data ->
  getOpt data "faces"%string = JArray (pre ++ f :: post) ->
  Forall skipped pre ->
  carriesEmbedding f = true ->
  getOpt f "embedding"%string = JArray items ->
  let answer := received (POST JSONparse upload (Responds status text)) in
  let kept := filter (fun x => isFinite x = true) (map ToNumber (map viaJSON items)) in
  apiStatus answer = 200 /\
  getOpt (apiPayload answer) "embedding"%string = JArray (map viaJSON items) /\
  resolveDescriptor JSONparse ToNumber (Responds status text) =
    (if (length kept =? 0)%nat then EmbedFail NO_FACE else EmbedOk kept) /\
  (forall xs, items = map JNumber xs ->
     (forall x, ToNumber (JNumber x) = x) -> isFinite nzero = true ->
     Forall (fun x => isFinite x = true) xs ->
     resolveDescriptor JSONparse ToNumber (Responds status text) =
       EmbedOk (map (fun x => if truthy x then x else nzero) xs)).
Proof.
  intros Hok Hparse Hfaces Hpre Hf Hemb. cbv zeta.
  assert (Hfind : findFace (facesOf data) = Some (Some f)).
  { unfold facesOf. rewrite Hfaces. now apply findFace_first. }
  assert (Hne : exists e es, items = e :: es).
  { unfold carriesEmbedding in Hf. rewrite Hemb in Hf.
    destruct items as [|e es]; [discriminate | eauto]. }
  assert (Hkept : usableEntries ToNumber f =
                  filter (fun x => isFinite x = true) (map ToNumber (map viaJSON items))).
  { unfold usableEntries. now rewrite Hemb. }
  assert (Hres : resolveDescriptor JSONparse ToNumber (Responds status text) =
                 if (length (usableEntries ToNumber f) =? 0)%nat then EmbedFail NO_FACE
                 else EmbedOk (usableEntries ToNumber f)).
  { now rewrite resolveDescriptor_cases, Hparse, Hok, Hfind. }
  split; [|split; [|split]].
  - rewrite POST_upload, Hparse, Hok, Hfind. reflexivity.
  - rewrite POST_upload, Hparse, Hok, Hfind. destruct Hne as (e & es & ->).
    cbn. rewrite Hemb. reflexivity.
  - now rewrite Hres, Hkept.
  - intros xs -> Hnum Hzero Hfin. rewrite Hres, Hkept.
    rewrite (usable_numbers ToNumber xs Hnum (fun _ _ _ => Hzero) Hfin).
    destruct Hne as (e & es & Hxs). destruct xs as [|x xs]; [discriminate | reflexivity].
Qed.

Lemma POST_picks_first_embedding_witness :
  getOpt (apiPayload (received (POST sampleParse upload (Responds 200 bodyTwoFaces))))
    "embedding"%string = JArray [jnum 1; jnum 2] /\
  resolveDescriptor sampleParse numberOf (Responds 200 bodyTwoFaces)
    = EmbedOk (N:=Float64) [1%float; 2%float].
Proof.
  destruct (POST_picks_first_embedding Float64 sampleParse numberOf 200 bodyTwoFaces
              (JObject [("faces"%string, JArray [JObject []; faceWith [1%float; 2%float]])])
              [JObject []] [] (faceWith [1%float; 2%float]) [jnum 1; jnum 2])
    as (_ & Hroute & _ & Hclient).
  - reflexivity.
  - reflexivity.
  - reflexivity.
  - repeat constructor.
  - reflexivity.
  - reflexivity.
  - split; [exact Hroute|].
    apply (Hclient [1%float; 2%float]); [reflexivity | reflexivity | reflexivity |].
    repeat constructor.
Defined.

(** An embedding [[Infinity, 2]], as the body [[1e999, 2]] parses, arrives
    as [[null, 2]] and is kept as [[0, 2]]; an embedding [[-0, 1]] arrives
    as [[0, 1]]. *)
Example embedding_crosses_as_JSON :
  resolveDescriptor
    (fun _ => Some (JObject [("faces"%string, JArray [faceWith [infinity; 2%float]])]))
    numberOf (Responds 200 "body") = EmbedOk (N:=Float64) [0%float; 2%float] /\
  resolveDescriptor
    (fun _ => Some (JObject [("faces"%string, JArray [faceWith [(-0)%float; 1%float]])]))
    numberOf (Responds 200 "body") = EmbedOk (N:=Float64) [0%float; 1%float].
Proof. split; vm_compute; reflexivity. Qed.

(** C8, counterexample.  The earlier client [lib/faceServer.ts] reads the
    first listed face only: when that face has no embedding and the second
    has [[1, 2]] it throws, and when the first has an empty embedding it
    returns the empty one. *)
Lemma embedFace_v1_reads_first_face_only :
  sampleParse bodyTwoFaces
    = Some (JObject [("faces"%string, JArray [JObject []; faceWith [1%float; 2%float]])]) /\
  carriesEmbedding (faceWith [1%float; 2%float]) = true /\
  resolveDescriptor_v1 sampleParse (Responds 200 bodyTwoFaces) = V1NoEmbeddingArray /\
  resolveDescriptor_v1 sampleParse (Responds 200 bodyTwoFacesEmptyFirst) = V1Embedding [].
Proof. repeat split; vm_compute; reflexivity. Qed.

(** ** [Promise.all] resolves with the values in index order *)

Section PromiseAllFacts.
Context {A : Type}.
Variable values : list A.

Lemma settle_ok (slots : list (option A)) (j : nat) :
  slotsOk values slots -> slotsOk values (settle values slots j).
Proof.
  intros [Hlen Hval]. unfold settle.
  destruct (slots !! j) as [[v0|]|] eqn:Hj; try (split; assumption).
  destruct (values !! j) as [v|] eqn:Hv; [|split; assumption].
  split.
  - now rewrite length_insert.
  - intros i v' Hi. destruct (decide (i = j)) as [->|Hne].
    + rewrite list_lookup_insert_eq in Hi by (apply lookup_lt_Some in Hj; lia).
      congruence.
    + rewrite list_lookup_insert_ne in Hi by congruence. now apply Hval.
Qed.

Lemma settle_keeps (slots : list (option A)) (j i : nat) (v : A) :
  slots !! i = Some (Some v) -> settle values slots j !! i = Some (Some v).
Proof.
  intros Hi. unfold settle.
  destruct (slots !! j) as [[v0|]|] eqn:Hj; try assumption.
  destruct (values !! j) as [v'|] eqn:Hv; [|assumption].
  destruct (decide (i = j)) as [->|Hne]; [congruence|].
  now rewrite list_lookup_insert_ne by congruence.
Qed.

Lemma settle_fills (slots : list (option A)) (j : nat) :
  slotsOk values slots -> j < length values ->
  exists v, settle values slots j !! j = Some (Some v).
Proof.
  intros [Hlen Hval] Hj. unfold settle.
  destruct (lookup_lt_is_Some_2 slots j) as [o Ho]; [lia|].
  destruct (lookup_lt_is_Some_2 values j) as [v Hv]; [lia|].
  rewrite Ho, Hv. destruct o as [v0|].
  - eauto.
  - exists v. apply list_lookup_insert_eq. lia.
Qed.

Lemma fold_settle (js : list nat) : forall slots,
  slotsOk values slots ->
  slotsOk values (fold_left (settle values) js slots) /\
  (forall i v, slots !! i = Some (Some v) ->
     fold_left (settle values) js slots !! i = Some (Some v)) /\
  (forall j, In j js -> j < length values ->
     exists v, fold_left (settle values) js slots !! j = Some (Some v)).
Proof.
  induction js as [|j js IH]; intros slots Hok; cbn.
  - split; [assumption|]. split; [auto|]. intros j [].
  - destruct (IH (settle values slots j) (settle_ok _ _ Hok)) as (Hok' & Hkeep & Hfill).
    split; [assumption|]. split.
    + intros i v Hi. apply Hkeep. now apply settle_keeps.
    + intros j' [<- | Hin] Hlt.
      * destruct (settle_fills slots j Hok Hlt) as [v Hv]. exists v. now apply Hkeep.
      * now apply Hfill.
Qed.

(** Whatever the order in which the promises settle, [Promise.all] resolves
    with the values in the order of the promises. *)
Lemma promiseAll_resolves (order : list nat) :
  promiseAll order values = Some values.
Proof.
  unfold promiseAll.
  set (slots := fold_left _ _ _).
  assert (Hinit : slotsOk values (replicate (length values) None)).
  { split; [apply length_replicate|]. intros i v Hi.
    apply lookup_replicate in Hi as [Hi _]. discriminate. }
  destruct (fold_settle (order ++ seq 0 (length values)) _ Hinit) as ([Hlen Hval] & _ & Hfill).
  fold slots in Hlen, Hval, Hfill.
  apply mapM_Some_2. apply Forall2_same_length_lookup_2.
  - assumption.
  - intros i o v Ho Hv.
    destruct (Hfill i) as [v' Hv'].
    + apply in_or_app. right. apply in_seq. apply lookup_lt_Some in Hv. lia.
    + now apply lookup_lt_Some in Hv.
    + rewrite Ho in Hv'. injection Hv' as ->. apply Hval in Ho. congruence.
Qed.
End PromiseAllFacts.

(** ** The two loops of [runMatching] *)

Section Loops.
Context {N : JSNumber}.
Variables (cfg : knobs) (w : world) (selfieDesc : descriptor).

Lemma userAt_scoredAll (p : stopPoint) (s : session) :
  scoredAll (userAt w p s) = scoredAll s /\ awaited (userAt w p s) = awaited s.
Proof.
  unfold userAt. destruct (stop w) as [[|k]|], p as [|k']; try (split; reflexivity).
  destruct (k =? k'); split; reflexivity.
Qed.

Lemma awaitChunk_eq (chunk : list PhotoItem) (s : session) :
  awaitChunk w selfieDesc chunk s = Some (mergeChunk w selfieDesc chunk s).
Proof.
  unfold awaitChunk, mergeChunk, scoredOf. rewrite promiseAll_resolves.
  destruct (userAt_scoredAll (DuringChunk (awaited s)) s) as [-> ->]. reflexivity.
Qed.

Lemma whileChunks_step (fuel : nat) (batch : list PhotoItem) (start total i : nat) (s : session) :
  whileChunks (S fuel) cfg w selfieDesc batch start total i s =
    if negb (i <? length batch) then Some s
    else if abortRef s then Some s
    else whileChunks fuel cfg w selfieDesc batch start total (i + CONCURRENCY cfg)
           (stepChunk cfg w selfieDesc batch start total i s).
Proof. cbn [whileChunks]. rewrite awaitChunk_eq. reflexivity. Qed.

Lemma whileChunks_done (fuel : nat) (batch : list PhotoItem) (start total i : nat) (s : session) :
  length batch <= i \/ abortRef s = true ->
  whileChunks fuel cfg w selfieDesc batch start total i s = Some s.
Proof.
  intros H. destruct fuel; cbn [whileChunks];
    destruct (i <? length batch) eqn:Hi; cbn [negb]; try reflexivity;
    apply Nat.ltb_lt in Hi; (destruct H as [H | ->]; [lia | reflexivity]).
Qed.

(** An invariant of the [while] loop holds when it ends, and it ends either
    past the batch or aborted. *)
Lemma whileChunks_invariant (P : nat -> session -> Prop)
    (batch : list PhotoItem) (start total : nat) :
  (forall i s, i < length batch -> abortRef s = false -> P i s ->
     P (i + CONCURRENCY cfg) (stepChunk cfg w selfieDesc batch start total i s)) ->
  forall fuel i s s', P i s ->
    whileChunks fuel cfg w selfieDesc batch start total i s = Some s' ->
    exists i', P i' s' /\ (length batch <= i' \/ abortRef s' = true).
Proof.
  intros Hstep. induction fuel as [|fuel IH]; intros i s s' HP Hrun.
  - cbn [whileChunks] in Hrun. destruct (i <? length batch) eqn:Hi; cbn [negb] in Hrun.
    + destruct (abortRef s) eqn:Hab; cbv beta iota in Hrun; [|discriminate].
      injection Hrun as <-. eauto.
    + injection Hrun as <-. apply Nat.ltb_ge in Hi. eauto.
  - rewrite whileChunks_step in Hrun.
    destruct (i <? length batch) eqn:Hi; cbn [negb] in Hrun.
    + destruct (abortRef s) eqn:Hab.
      * injection Hrun as <-. eauto.
      * apply Nat.ltb_lt in Hi. eapply IH; [|exact Hrun]. now apply Hstep.
    + injection Hrun as <-. apply Nat.ltb_ge in Hi. eauto.
Qed.

(** With a positive chunk size the [while] loop ends within [length batch]
    turns. *)
Lemma whileChunks_total (batch : list PhotoItem) (start total : nat) :
  0 < CONCURRENCY cfg ->
  forall fuel i s, length batch <= i + fuel ->
    exists s', whileChunks fuel cfg w selfieDesc batch start total i s = Some s'.
Proof.
  intros HC. induction fuel as [|fuel IH]; intros i s Hfuel.
  - exists s. apply whileChunks_done. left. lia.
  - rewrite whileChunks_step.
    destruct (i <? length batch); cbn [negb]; [|eauto].
    destruct (abortRef s); [eauto|]. apply IH. lia.
Qed.

Lemma forBatches_step (fuel : nat) (threshold : num) (pool : list PhotoItem)
    (start : nat) (s : session) :
  forBatches (S fuel) cfg w selfieDesc threshold pool start s =
    if negb (start <? length pool) then Some s
    else if abortRef s then Some s
    else
      match whileChunks (length (batchAt cfg pool start)) cfg w selfieDesc
              (batchAt cfg pool start) start (length pool) 0
              (emit (scanning cfg pool start) s) with
      | None => None
      | Some s1 =>
          forBatches fuel cfg w selfieDesc threshold pool (start + scanBatchSize cfg)
            (publishBatch cfg threshold s1)
      end.
Proof. reflexivity. Qed.

Lemma forBatches_done (fuel : nat) (threshold : num) (pool : list PhotoItem)
    (start : nat) (s : session) :
  length pool <= start \/ abortRef s = true ->
  forBatches fuel cfg w selfieDesc threshold pool start s = Some s.
Proof.
  intros H. destruct fuel; cbn [forBatches];
    destruct (start <? length pool) eqn:Hi; cbn [negb]; try reflexivity;
    apply Nat.ltb_lt in Hi; (destruct H as [H | ->]; [lia | reflexivity]).
Qed.

(** An invariant of the [for] loop holds when it ends, and it ends either
    past the pool or aborted. *)
Lemma forBatches_invariant (Q : nat -> session -> Prop)
    (threshold : num) (pool : list PhotoItem) :
  (forall start s s1, start < length pool -> abortRef s = false -> Q start s ->
     whileChunks (length (batchAt cfg pool start)) cfg w selfieDesc
       (batchAt cfg pool start) start (length pool) 0
       (emit (scanning cfg pool start) s) = Some s1 ->
     Q (start + scanBatchSize cfg) (publishBatch cfg threshold s1)) ->
  forall fuel start s s', Q start s ->
    forBatches fuel cfg w selfieDesc threshold pool start s = Some s' ->
    exists start', Q start' s' /\ (length pool <= start' \/ abortRef s' = true).
Proof.
  intros Hstep. induction fuel as [|fuel IH]; intros start s s' HQ Hrun.
  - cbn [forBatches] in Hrun. destruct (start <? length pool) eqn:Hi; cbn [negb] in Hrun.
    + destruct (abortRef s) eqn:Hab; cbv beta iota in Hrun; [|discriminate].
      injection Hrun as <-. eauto.
    + injection Hrun as <-. apply Nat.ltb_ge in Hi. eauto.
  - rewrite forBatches_step in Hrun.
    destruct (start <? length pool) eqn:Hi; cbn [negb] in Hrun.
    + destruct (abortRef s) eqn:Hab.
      * injection Hrun as <-. eauto.
      * apply Nat.ltb_lt in Hi.
        destruct (whileChunks _ _ _ _ _ _ _ _ _) as [s1|] eqn:Hw; [|discriminate].
        eapply IH; [|exact Hrun]. eapply Hstep; eauto.
    + injection Hrun as <-. apply Nat.ltb_ge in Hi. eauto.
Qed.

(** With positive batch and chunk sizes the [for] loop ends within
    [length pool] turns. *)
Lemma forBatches_total (threshold : num) (pool : list PhotoItem) :
  0 < scanBatchSize cfg -> 0 < CONCURRENCY cfg ->
  forall fuel start s, length pool <= start + fuel ->
    exists s', forBatches fuel cfg w selfieDesc threshold pool start s = Some s'.
Proof.
  intros HB HC. induction fuel as [|fuel IH]; intros start s Hfuel.
  - exists s. apply forBatches_done. left. lia.
  - rewrite forBatches_step.
    destruct (start <? length pool); cbn [negb]; [|eauto].
    destruct (abortRef s); [eauto|].
    destruct (whileChunks_total (batchAt cfg pool start) start (length pool) HC
                (length (batchAt cfg pool start)) 0 (emit (scanning cfg pool start) s))
      as [s1 ->]; [lia|].
    apply IH. lia.
Qed.

Lemma scan_total (threshold : num) (pool : list PhotoItem) (s : session) :
  0 < scanBatchSize cfg -> 0 < CONCURRENCY cfg ->
  exists s1, forBatches (length pool) cfg w selfieDesc threshold pool 0 s = Some s1 /\
    scan cfg w selfieDesc threshold pool s = Some (finalPublish threshold s1).
Proof.
  intros HB HC.
  destruct (forBatches_total threshold pool HB HC (length pool) 0 s) as [s1 Hs1]; [lia|].
  exists s1. split; [assumption|]. unfold scan. now rewrite Hs1.
Qed.
End Loops.

(** ** Progress *)

Section Progress.
Context {N : JSNumber}.
Variables (cfg : knobs) (w : world) (selfieDesc : descriptor).

Lemma log_userAt (p : stopPoint) (s : session) :
  exists evs, log (userAt w p s) = log s ++ evs /\ Forall byAbortScan evs.
Proof.
  assert (Hstop : log (abortScan s) = log s ++ [AbortSet; SetMatchMessage MsgStopped; SetMatchLoading false])
    by (cbn; now rewrite <- !app_assoc).
  assert (Hnone : exists evs, log s = log s ++ evs /\ Forall (@byAbortScan MatchItem) evs)
    by (exists []; split; [now rewrite app_nil_r | constructor]).
  unfold userAt.
  destruct (stop w) as [[|k]|], p as [|k']; try exact Hnone.
  - eexists. split; [exact Hstop | repeat constructor].
  - destruct (k =? k'); [|exact Hnone].
    eexists. split; [exact Hstop | repeat constructor].
Qed.

Lemma byAbortScan_noProgress (evs : list (event MatchItem)) :
  Forall byAbortScan evs -> Forall noProgress evs.
Proof. apply List.Forall_impl. intros [] H; cbn in *; auto. Qed.

Lemma progressOf_quiet (evs : list (event MatchItem)) :
  Forall noProgress evs -> progressOf evs = [].
Proof.
  induction 1 as [|e evs He _ IH]; [reflexivity|].
  destruct e; cbn in *; try assumption. contradiction.
Qed.

Lemma progressOk_quiet (total hi : nat) (l evs : list (event MatchItem)) :
  Forall noProgress evs -> progressOk total hi l -> progressOk total hi (l ++ evs).
Proof.
  intros Hq H. unfold progressOk, progressOf in *.
  rewrite omap_app. fold (progressOf evs). rewrite (progressOf_quiet evs Hq), app_nil_r.
  exact H.
Qed.

Lemma StronglySorted_snoc (l : list nat) (d : nat) :
  StronglySorted le l -> Forall (fun x => x <= d) l -> StronglySorted le (l ++ [d]).
Proof.
  induction 1 as [|x l Hs IH Hx]; intros Hd; cbn.
  - repeat constructor.
  - inversion Hd; subst. constructor; [now apply IH|].
    apply Forall_app. split; [assumption | now constructor].
Qed.

Lemma progressOk_progress (total hi d : nat) (l : list (event MatchItem)) :
  progressOk total hi l -> hi <= d -> d <= total ->
  progressOk total d (l ++ [SetProgress d total]).
Proof.
  intros [Hall Hsorted] Hhi Hd. unfold progressOk, progressOf in *.
  rewrite omap_app. cbn. split.
  - apply Forall_app. split.
    + eapply List.Forall_impl; [|exact Hall]. cbn. intros [d' t'] (? & ? & ?). cbn in *. lia.
    + repeat constructor; cbn; lia.
  - rewrite map_app. cbn. apply StronglySorted_snoc; [assumption|].
    apply Forall_forall. intros x Hx. apply in_map_iff in Hx as ([d' t'] & <- & Hin).
    rewrite Forall_forall in Hall. specialize (Hall _ Hin). cbn in *. lia.
Qed.

Lemma progressOk_weaken (total hi hi' : nat) (l : list (event MatchItem)) :
  hi <= hi' -> progressOk total hi l -> progressOk total hi' l.
Proof.
  intros Hle [Hall Hsorted]. split; [|assumption].
  eapply List.Forall_impl; [|exact Hall]. cbn. intros [d t] (? & ? & ?). cbn in *. lia.
Qed.

Lemma log_mergeChunk (chunk : list PhotoItem) (s : session) :
  exists evs, log (mergeChunk w selfieDesc chunk s) = log s ++ evs /\ Forall byAbortScan evs.
Proof. unfold mergeChunk. cbn. apply log_userAt. Qed.

Lemma log_publishBatch (threshold : num) (s : session) :
  exists msg, (msg = MsgNotYet \/ exists n, msg = MsgFound n) /\
    log (publishBatch cfg threshold s) =
      log s ++ [SetMatches (publishedTop cfg threshold s); SetMatchMessage msg].
Proof.
  unfold publishBatch. fold (publishedTop cfg threshold s).
  generalize (publishedTop cfg threshold s). intros [|m top]; cbn; rewrite <- app_assoc; cbn.
  - exists MsgNotYet. split; [now left | reflexivity].
  - eexists. split; [right; eauto | reflexivity].
Qed.

Lemma length_batchAt (pool : list PhotoItem) (start : nat) :
  length (batchAt cfg pool start) <= scanBatchSize cfg.
Proof. unfold batchAt. rewrite length_take. lia. Qed.

(** The [while] loop keeps the progress consistent and within the batch. *)
Lemma whileChunks_progress (batch : list PhotoItem) (start total fuel : nat) (s s' : session) (hi : nat) :
  progressOk total hi (log s) ->
  hi <= min total (start + CONCURRENCY cfg) ->
  whileChunks fuel cfg w selfieDesc batch start total 0 s = Some s' ->
  exists hi', progressOk total hi' (log s') /\
    hi' <= min total (start + length batch + CONCURRENCY cfg).
Proof.
  intros Hok Hhi Hrun.
  destruct (whileChunks_invariant cfg w selfieDesc
              (fun i s => exists hi, progressOk total hi (log s) /\
                 hi <= min total (start + i + CONCURRENCY cfg) /\
                 hi <= min total (start + length batch + CONCURRENCY cfg))
              batch start total) with (fuel := fuel) (i := 0) (s := s) (s' := s')
    as (i' & (hi' & Hok' & _ & Hhi') & _).
  - intros i s0 Hi _ (hi0 & Hok0 & Hlo & Hup).
    exists (min total (start + (i + CONCURRENCY cfg))). split; [|lia].
    unfold stepChunk. cbn [emit log].
    destruct (log_mergeChunk (take (CONCURRENCY cfg) (drop i batch)) s0) as (evs & -> & Hevs).
    apply progressOk_progress with (hi := hi0); [|lia|lia].
    apply progressOk_quiet; [now apply byAbortScan_noProgress | assumption].
  - exists hi. split; [assumption|]. lia.
  - assumption.
  - eauto.
Qed.

(** The [for] loop keeps the progress consistent. *)
Lemma forBatches_progress (threshold : num) (pool : list PhotoItem) (fuel : nat)
    (s s' : session) (hi : nat) :
  progressOk (length pool) hi (log s) ->
  hi <= min (length pool) (CONCURRENCY cfg) ->
  forBatches fuel cfg w selfieDesc threshold pool 0 s = Some s' ->
  exists hi', progressOk (length pool) hi' (log s').
Proof.
  intros Hok Hhi Hrun.
  destruct (forBatches_invariant cfg w selfieDesc
              (fun start s => exists hi, progressOk (length pool) hi (log s) /\
                 hi <= min (length pool) (start + CONCURRENCY cfg))
              threshold pool) with (fuel := fuel) (start := 0) (s := s) (s' := s')
    as (start' & (hi' & Hok' & _) & _).
  - intros start s0 s1 Hstart _ (hi0 & Hok0 & Hlo) Hw.
    destruct (whileChunks_progress (batchAt cfg pool start) start (length pool)
                (length (batchAt cfg pool start))
                (emit (scanning cfg pool start) s0) s1 hi0) as (hi1 & Hok1 & Hhi1).
    + cbn [emit log]. apply progressOk_quiet; [repeat constructor | assumption].
    + assumption.
    + assumption.
    + exists hi1. split.
      * destruct (log_publishBatch threshold s1) as (msg & _ & ->).
        apply progressOk_quiet; [repeat constructor | assumption].
      * pose proof (length_batchAt pool start). lia.
  - exists hi. split; [assumption | lia].
  - assumption.
  - eauto.
Qed.
End Progress.

Section ProgressOfRun.
Context {N : JSNumber}.
Variables (cfg : knobs) (w : world).

Lemma log_withModels (s : session) :
  exists evs, log (withModels w s) = log s ++ evs /\
    Forall (fun e => e = SetMatchMessage MsgLoadingModels) evs.
Proof.
  unfold withModels. destruct (models w).
  - exists []. split; [now rewrite app_nil_r | constructor].
  - eexists. split; [reflexivity | repeat constructor].
  - eexists. split; [reflexivity | repeat constructor].
Qed.

(** Before the scan the updates are the four of the start, then messages
    and what [abortScan] does. *)
Lemma log_prepared (eventPhotos : list PhotoItem) :
  exists evs, log (prepared cfg w eventPhotos) = log (started cfg eventPhotos) ++ evs /\
    Forall (fun e => e = SetMatchMessage MsgLoadingModels \/
                     e = SetMatchMessage MsgAnalyzingSelfie \/ byAbortScan e) evs.
Proof.
  unfold prepared.
  destruct (log_userAt w WhilePreparing
              (emit (SetMatchMessage MsgAnalyzingSelfie) (withModels w (started cfg eventPhotos))))
    as (evs2 & -> & H2).
  cbn [emit log].
  destruct (log_withModels (started cfg eventPhotos)) as (evs1 & -> & H1).
  exists (evs1 ++ [SetMatchMessage MsgAnalyzingSelfie] ++ evs2).
  split; [now rewrite <- !app_assoc|].
  apply Forall_app. split; [|apply Forall_app; split].
  - eapply List.Forall_impl; [|exact H1]. cbn. auto.
  - constructor; [auto | constructor].
  - eapply List.Forall_impl; [|exact H2]. cbn. auto.
Qed.

Lemma log_finalPublish (threshold : num) (s : session) :
  log (finalPublish threshold s) = log s \/
  exists msg, (msg = MsgDoneEmpty \/ exists n, msg = MsgDone n) /\
    abortRef s = false /\
    log (finalPublish threshold s) =
      log s ++ [SetMatches (take shown (filter (fun x => meets threshold x = true)
                                          (sortByScore score (scoredAll s))));
                SetMatchMessage msg].
Proof.
  unfold finalPublish. destruct (abortRef s); [now left|]. right.
  generalize (take shown (filter (fun x => meets threshold x = true)
                            (sortByScore score (scoredAll s)))).
  intros [|m top]; cbn; rewrite <- app_assoc; cbn.
  - exists MsgDoneEmpty. auto.
  - eexists. split; [right; eauto | auto].
Qed.

Lemma progressOk_started (eventPhotos : list PhotoItem) :
  progressOk (min (scanMax cfg) (length eventPhotos)) 0 (log (started cfg eventPhotos)).
Proof.
  split; cbn.
  - repeat constructor; cbn; lia.
  - repeat constructor.
Qed.

Lemma progressOk_prepared (eventPhotos : list PhotoItem) :
  progressOk (min (scanMax cfg) (length eventPhotos)) 0 (log (prepared cfg w eventPhotos)).
Proof.
  destruct (log_prepared eventPhotos) as (evs & -> & Hevs).
  apply progressOk_quiet; [|apply progressOk_started].
  eapply List.Forall_impl; [|exact Hevs]. cbn.
  intros e [-> | [-> | He]]; cbn; auto. destruct e; cbn in *; auto.
Qed.

(** The progress of a whole run is consistent. *)
Lemma runMatching_progress (threshold : num) (eventPhotos : list PhotoItem)
    (updates : list (event MatchItem)) :
  runMatching cfg w threshold eventPhotos = Some updates ->
  exists hi, progressOk (min (scanMax cfg) (length eventPhotos)) hi updates.
Proof.
  unfold runMatching. set (total := min (scanMax cfg) (length eventPhotos)).
  destruct (length eventPhotos =? 0).
  { intros [= <-]. exists 0. split; cbn; constructor. }
  assert (Hcatch : forall s hi, progressOk total hi (log s) -> progressOk total hi (catch_ s)).
  { intros s hi H. unfold catch_, finally_. cbn [emit log]. rewrite <- app_assoc.
    apply progressOk_quiet; [repeat constructor | assumption]. }
  assert (Hfinally : forall s hi, progressOk total hi (log s) -> progressOk total hi (finally_ s)).
  { intros s hi H. unfold finally_. cbn [emit log].
    apply progressOk_quiet; [repeat constructor | assumption]. }
  assert (Hmodels : progressOk total 0 (log (withModels w (started cfg eventPhotos)))).
  { destruct (log_withModels (started cfg eventPhotos)) as (evs & -> & Hevs).
    apply progressOk_quiet; [|apply progressOk_started].
    eapply List.Forall_impl; [|exact Hevs]. now intros e ->. }
  pose proof (progressOk_prepared eventPhotos) as Hprep. fold total in Hprep.
  assert (Hscan : forall selfieDesc,
    match
      match scan cfg w selfieDesc threshold (take total eventPhotos) (prepared cfg w eventPhotos) with
      | Some s3 => Some (finally_ s3)
      | None => None
      end
    with Some u => Some u | None => None end = Some updates ->
    exists hi, progressOk total hi updates).
  { intros selfieDesc. unfold scan.
    destruct (forBatches _ _ _ _ _ _ _ _) as [s1|] eqn:Hfor; [|discriminate].
    intros [= <-].
    assert (Hlen : length (take total eventPhotos) = total) by (rewrite length_take; lia).
    rewrite Hlen in Hfor.
    destruct (forBatches_progress cfg w selfieDesc threshold (take total eventPhotos)
                total (prepared cfg w eventPhotos) s1 0) as (hi & Hok).
    - now rewrite Hlen.
    - lia.
    - assumption.
    - rewrite Hlen in Hok. exists hi. apply Hfinally.
      destruct (log_finalPublish threshold s1) as [-> | (msg & _ & _ & ->)]; [assumption|].
      apply progressOk_quiet; [repeat constructor | assumption]. }
  destruct (models w), (selfie w) as [| |selfieDesc];
    try (intros [= <-]; eauto using Hcatch, Hfinally);
    try (intros H; apply (Hscan selfieDesc);
         destruct (scan _ _ _ _ _ _); [exact H | discriminate]).
  - exists 0. apply Hfinally. cbn [emit log].
    apply progressOk_quiet; [repeat constructor | assumption].
  - exists 0. apply Hfinally. cbn [emit log].
    apply progressOk_quiet; [repeat constructor | assumption].
Qed.

(** With positive batch and chunk sizes a run ends. *)
Lemma runMatching_returns (threshold : num) (eventPhotos : list PhotoItem) :
  0 < scanBatchSize cfg -> 0 < CONCURRENCY cfg ->
  exists updates, runMatching cfg w threshold eventPhotos = Some updates.
Proof.
  intros HB HC. unfold runMatching.
  destruct (length eventPhotos =? 0); [eauto|].
  destruct (models w), (selfie w) as [| |selfieDesc]; eauto;
    destruct (scan_total cfg w selfieDesc threshold
                (take (min (scanMax cfg) (length eventPhotos)) eventPhotos)
                (prepared cfg w eventPhotos) HB HC) as (s1 & _ & ->); eauto.
Qed.
End ProgressOfRun.

(** C6.  In a session the published [progress.done] never decreases from
    one update to the next and never exceeds [progress.total]. *)
Theorem progress_monotone (N : JSNumber) (cfg : knobs) (w : world) (threshold : num)
    (eventPhotos : list PhotoItem) :
  0 < scanBatchSize cfg -> 0 < CONCURRENCY cfg ->
  exists updates, runMatching cfg w threshold eventPhotos = Some updates /\
    StronglySorted le (map fst (progressOf updates)) /\
    Forall (fun dt => fst dt <= snd dt) (progressOf updates).
Proof.
  intros HB HC.
  destruct (runMatching_returns cfg w threshold eventPhotos HB HC) as [updates Hrun].
  exists updates. split; [assumption|].
  destruct (runMatching_progress cfg w threshold eventPhotos updates Hrun) as (hi & Hall & Hsorted).
  split; [assumption|].
  eapply List.Forall_impl; [|exact Hall]. cbn. intros [d t] (? & ? & ?). cbn in *. lia.
Qed.

Lemma progress_monotone_witness :
  exists updates,
    runMatching sourceKnobs (sampleWorld None) 0x1.c28f5c28f5c29p-1%float samplePool = Some updates /\
    StronglySorted le (map fst (progressOf updates)) /\
    Forall (fun dt => fst dt <= snd dt) (progressOf updates).
Proof.
  apply (progress_monotone Float64 sourceKnobs (sampleWorld None)
           0x1.c28f5c28f5c29p-1%float samplePool); cbn; lia.
Defined.

(** ** Sorting keeps the elements *)

Section SortMembers.
Context {N : JSNumber} {A : Type}.
Variable score : A -> num.

Lemma insertSorted_In (x y : A) (l : list A) :
  In y (insertSorted score x l) <-> y = x \/ In y l.
Proof.
  induction l as [|z l IH]; cbn.
  - intuition.
  - destruct (ngt (byScoreDesc score z x) nzero); cbn; [intuition|].
    rewrite IH. intuition.
Qed.

Lemma fold_insertSorted_In (y : A) (l : list A) : forall acc,
  In y (fold_left (fun acc x => insertSorted score x acc) l acc) <-> In y acc \/ In y l.
Proof.
  induction l as [|x l IH]; intros acc; cbn.
  - intuition.
  - rewrite IH, insertSorted_In. intuition.
Qed.

Lemma sortByScore_In (y : A) (l : list A) : In y (sortByScore score l) <-> In y l.
Proof. unfold sortByScore. rewrite fold_insertSorted_In. cbn. intuition. Qed.

Lemma Forall_sortByScore (P : A -> Prop) (l : list A) :
  Forall P l -> Forall P (sortByScore score l).
Proof.
  rewrite !Forall_forall. intros H x Hx. apply H. now apply sortByScore_In.
Qed.
End SortMembers.

(** ** What gets published *)

Section ListMembers.
Context {A : Type}.

Lemma In_take (x : A) (n : nat) (l : list A) : In x (take n l) -> In x l.
Proof. rewrite <- !list_elem_of_In. apply subseteq_take. Qed.

Lemma In_drop (x : A) (n : nat) (l : list A) : In x (drop n l) -> In x l.
Proof. rewrite <- !list_elem_of_In. apply subseteq_drop. Qed.

Lemma In_filter (P : A -> Prop) `{!forall x, Decision (P x)} (x : A) (l : list A) :
  In x (filter P l) <-> P x /\ In x l.
Proof. rewrite <- !list_elem_of_In. apply list_elem_of_filter. Qed.

Lemma Forall_filter_keep (P Q : A -> Prop) `{!forall x, Decision (Q x)} (l : list A) :
  Forall P l -> Forall P (filter Q l).
Proof. rewrite !Forall_forall. intros Hall x Hx. apply In_filter in Hx as [_ Hx]. auto. Qed.
End ListMembers.

Section Published.
Context {N : JSNumber}.
Variables (cfg : knobs) (w : world) (selfieDesc : descriptor).

Lemma scoreOne_Some (aborted : bool) (p : PhotoItem) (m : MatchItem) :
  scoreOne w selfieDesc aborted p = Some m ->
  item m = p /\ exists faces, analyze w p = Detected faces /\ faces <> [] /\
    score m = bestScore selfieDesc faces.
Proof.
  unfold scoreOne. destruct aborted; [discriminate|].
  destruct (analyze w p) as [|[|d faces]]; try discriminate.
  intros [= <-]. cbn. split; [reflexivity|]. eexists. split; [reflexivity|]. split; [discriminate|reflexivity].
Qed.

(** What a chunk adds to [scoredAll] are photos of the chunk that were
    scored and passed [score >= 0]. *)
Lemma scoredOf_scoredFrom (aborted : bool) (pool chunk : list PhotoItem) :
  (forall p, In p chunk -> In p pool) ->
  Forall (scoredFrom w selfieDesc pool) (scoredOf w selfieDesc aborted chunk).
Proof.
  intros Hsub. unfold scoredOf. induction chunk as [|p chunk IH]; cbn; [constructor|].
  apply Forall_app. split; [|apply IH; intros q Hq; apply Hsub; now right].
  destruct (scoreOne w selfieDesc aborted p) as [m|] eqn:Hm; cbn; [|constructor].
  destruct (nge (score m) nzero) eqn:Hge; [|constructor].
  constructor; [|constructor].
  apply scoreOne_Some in Hm as (Hitem & faces & Han & Hne & Hscore).
  split; [rewrite Hitem; apply Hsub; now left|]. split; [assumption|].
  exists faces. now rewrite Hitem.
Qed.

Lemma publishedTop_Forall (P : MatchItem -> Prop) (threshold : num) (s : session) :
  Forall P (scoredAll s) ->
  Forall (fun m => P m /\ meets threshold m = true) (publishedTop cfg threshold s).
Proof.
  intros H. unfold publishedTop, keepTop. apply Forall_take, Forall_sortByScore.
  rewrite Forall_forall in *. intros m Hm. apply In_filter in Hm as [Hmeets Hm].
  split; [|assumption]. apply H. apply In_take in Hm. now apply sortByScore_In in Hm.
Qed.

Lemma matchesOf_quiet (evs : list (event MatchItem)) :
  Forall noMatches evs ->
  matchesOf evs = [].
Proof.
  induction 1 as [|e evs He _ IH]; [reflexivity|].
  destruct e; cbn in *; try assumption. contradiction.
Qed.

Lemma allScored_quiet (P Q : MatchItem -> Prop) (s s' : session) (evs : list (event MatchItem)) :
  Forall noMatches evs ->
  scoredAll s' = scoredAll s -> log s' = log s ++ evs ->
  allScored P Q s -> allScored P Q s'.
Proof.
  intros Hq Hs Hl [H1 H2]. unfold allScored, matchesOf in *. rewrite Hs, Hl, omap_app.
  fold (matchesOf evs). rewrite (matchesOf_quiet evs Hq), app_nil_r. now split.
Qed.

Lemma byAbortScan_noMatches (evs : list (event MatchItem)) :
  Forall byAbortScan evs ->
  Forall noMatches evs.
Proof. apply List.Forall_impl. intros [] H; cbn in *; auto. Qed.

Lemma batchAt_In (pool : list PhotoItem) (start : nat) (p : PhotoItem) :
  In p (batchAt cfg pool start) -> In p pool.
Proof. unfold batchAt. intros H. apply In_take, In_drop in H. exact H. Qed.

(** The scan keeps [scoredAll] and the published lists within the scored
    photos of the pool. *)
Lemma forBatches_scored (threshold : num) (pool : list PhotoItem) (fuel : nat)
    (s s' : session) :
  let P := scoredFrom w selfieDesc pool in
  let Q := fun m => P m /\ meets threshold m = true in
  allScored P Q s ->
  forBatches fuel cfg w selfieDesc threshold pool 0 s = Some s' ->
  allScored P Q s'.
Proof.
  intros P Q Hok Hrun.
  destruct (forBatches_invariant cfg w selfieDesc (fun _ s => allScored P Q s) threshold pool)
    with (fuel := fuel) (start := 0) (s := s) (s' := s') as (start' & H & _);
    [|assumption|assumption|assumption].
  intros start s0 s1 Hstart _ H0 Hw.
  assert (H1 : allScored P Q s1).
  { destruct (whileChunks_invariant cfg w selfieDesc (fun _ s => allScored P Q s)
                (batchAt cfg pool start) start (length pool))
      with (fuel := length (batchAt cfg pool start)) (i := 0)
           (s := emit (scanning cfg pool start) s0) (s' := s1) as (i' & Hend & _);
      [| |assumption|assumption].
    - intros i s2 Hi _ [Ha Hb]. unfold stepChunk.
      set (chunk := take (CONCURRENCY cfg) (drop i (batchAt cfg pool start))).
      destruct (log_mergeChunk w selfieDesc chunk s2) as (evs & Hlog & Hevs).
      assert (Hmerged : allScored P Q (mergeChunk w selfieDesc chunk s2)).
      { split.
        - cbn. apply Forall_app. split; [assumption|].
          apply scoredOf_scoredFrom. intros p Hp.
          apply In_take, In_drop in Hp. now apply batchAt_In in Hp.
        - rewrite Hlog. unfold matchesOf. rewrite omap_app.
          fold (matchesOf evs).
          rewrite (matchesOf_quiet evs (byAbortScan_noMatches evs Hevs)), app_nil_r.
          exact Hb. }
      eapply allScored_quiet; [| | |exact Hmerged]; [|reflexivity|reflexivity].
      repeat constructor.
    - eapply allScored_quiet; [| | |exact H0]; [|reflexivity|reflexivity].
      repeat constructor. }
  destruct H1 as [Ha Hb].
  destruct (log_publishBatch cfg threshold s1) as (msg & _ & Hlog).
  split.
  - unfold publishBatch. fold (publishedTop cfg threshold s1).
    destruct (0 <? length (publishedTop cfg threshold s1)); cbn;
      unfold keepTop; apply Forall_take, Forall_sortByScore, Ha.
  - rewrite Hlog. unfold matchesOf. rewrite omap_app. cbn.
    apply Forall_app. split; [exact Hb|].
    constructor; [|constructor]. now apply publishedTop_Forall.
Qed.
End Published.

Section PublishedOfRun.
Context {N : JSNumber}.
Variables (cfg : knobs) (w : world).

Lemma matchesOf_In (updates : list (event MatchItem)) (l : list MatchItem) :
  In (SetMatches l) updates <-> In l (matchesOf updates).
Proof.
  unfold matchesOf. rewrite <- !list_elem_of_In, list_elem_of_omap. split.
  - intros H. exists (SetMatches l). auto.
  - intros (e & He & Hl). destruct e; try discriminate. now injection Hl as ->.
Qed.

Lemma matchesOf_app_quiet (l evs : list (event MatchItem)) :
  Forall noMatches evs -> matchesOf (l ++ evs) = matchesOf l.
Proof.
  intros Hq. unfold matchesOf. rewrite omap_app. fold (matchesOf evs).
  now rewrite (matchesOf_quiet evs Hq), app_nil_r.
Qed.

Lemma scoredAll_prepared (eventPhotos : list PhotoItem) :
  scoredAll (prepared cfg w eventPhotos) = [] /\
  matchesOf (log (prepared cfg w eventPhotos)) = [[]].
Proof.
  split.
  - unfold prepared. destruct (userAt_scoredAll w WhilePreparing
      (emit (SetMatchMessage MsgAnalyzingSelfie) (withModels w (started cfg eventPhotos))))
      as [-> _].
    cbn. unfold withModels. destruct (models w); reflexivity.
  - destruct (log_prepared cfg w eventPhotos) as (evs & -> & Hevs).
    rewrite matchesOf_app_quiet; [reflexivity|].
    eapply List.Forall_impl; [|exact Hevs]. cbn.
    intros e [-> | [-> | He]]; cbn; auto. destruct e; cbn in *; auto.
Qed.

Lemma matchesOf_withModels (eventPhotos : list PhotoItem) :
  matchesOf (log (withModels w (started cfg eventPhotos))) = [[]].
Proof. unfold withModels. destruct (models w); reflexivity. Qed.

(** Every list a run publishes holds only photos of the pool that were
    scored, with a score that passed [score >= 0]. *)
Lemma runMatching_published (threshold : num) (eventPhotos : list PhotoItem)
    (updates : list (event MatchItem)) (l : list MatchItem) (m : MatchItem) :
  runMatching cfg w threshold eventPhotos = Some updates ->
  In (SetMatches l) updates -> In m l ->
  exists selfieDesc, selfie w = SelfieFace selfieDesc /\
    scoredFrom w selfieDesc (take (min (scanMax cfg) (length eventPhotos)) eventPhotos) m /\
    meets threshold m = true.
Proof.
  intros Hrun Hl Hm. apply matchesOf_In in Hl. revert Hrun.
  unfold runMatching. set (total := min (scanMax cfg) (length eventPhotos)).
  destruct (length eventPhotos =? 0).
  { intros [= <-]. cbn in Hl. contradiction. }
  destruct (scoredAll_prepared eventPhotos) as [Hsc Hmo].
  pose proof (matchesOf_withModels eventPhotos) as Hmod.
  assert (Hshort : forall (s : session) evs,
            matchesOf (log s) = [[]] -> Forall noMatches evs ->
            In l (matchesOf (log s ++ evs)) -> False).
  { intros s evs Hs Hq Hin. rewrite matchesOf_app_quiet, Hs in Hin by assumption.
    destruct Hin as [<- | []]. contradiction. }
  destruct (models w), (selfie w) as [| |selfieDesc];
    try (intros [= <-]; exfalso; revert Hl; unfold catch_, finally_; cbn [emit log];
         rewrite <- ?app_assoc;
         first [ apply (Hshort (prepared cfg w eventPhotos)); [exact Hmo | repeat constructor]
               | apply (Hshort (withModels w (started cfg eventPhotos)));
                 [exact Hmod | repeat constructor] ]).
  all: unfold scan;
    destruct (forBatches _ _ _ _ _ _ _ _) as [s1|] eqn:Hfor; [|discriminate];
    intros [= <-]; exists selfieDesc; split; [reflexivity|];
    assert (Hall : allScored (scoredFrom w selfieDesc (take total eventPhotos))
                     (fun m => scoredFrom w selfieDesc (take total eventPhotos) m /\
                               meets threshold m = true) s1)
      by (eapply forBatches_scored; [|exact Hfor]; split; [rewrite Hsc; constructor|];
          rewrite Hmo; repeat constructor);
    destruct Hall as [Ha Hb];
    unfold finally_ in Hl; cbn [emit log] in Hl;
    rewrite matchesOf_app_quiet in Hl by repeat constructor;
    (destruct (log_finalPublish threshold s1) as [Hlog | (msg & _ & _ & Hlog)];
     rewrite Hlog in Hl;
     [ rewrite Forall_forall in Hb; specialize (Hb _ Hl);
       rewrite Forall_forall in Hb; now apply Hb
     | unfold matchesOf in Hl; rewrite omap_app in Hl; cbn in Hl;
       apply in_app_or in Hl as [Hl | [<- | []]];
       [ rewrite Forall_forall in Hb; specialize (Hb _ Hl);
         rewrite Forall_forall in Hb; now apply Hb
       | apply In_take, In_filter in Hm as [Hmeets Hm]; apply sortByScore_In in Hm;
         rewrite Forall_forall in Ha; split; [now apply Ha | assumption] ] ]).
Qed.
End PublishedOfRun.

(** ** A run in which no candidate can be scored *)

Section Outage.
Context {N : JSNumber}.
Variables (cfg : knobs) (w : world) (selfieDesc : descriptor) (pool : list PhotoItem).
Hypothesis never_stopped : stop w = None.
Hypothesis outage :
  forall p, In p pool -> analyze w p = AnalyzeFails \/ analyze w p = Detected [].

Lemma userAt_never (p : stopPoint) (s : session) : userAt w p s = s.
Proof using never_stopped. unfold userAt. now rewrite never_stopped. Qed.

Lemma scoredOf_outage (aborted : bool) (chunk : list PhotoItem) :
  (forall p, In p chunk -> In p pool) -> scoredOf w selfieDesc aborted chunk = [].
Proof using outage.
  intros Hsub. unfold scoredOf. induction chunk as [|p chunk IH]; [reflexivity|].
  cbn. rewrite IH by (intros q Hq; apply Hsub; now right). rewrite app_nil_r.
  unfold scoreOne. destruct aborted; [reflexivity|].
  destruct (outage p) as [-> | ->]; [apply Hsub; now left | reflexivity | reflexivity].
Qed.

Lemma progressOf_snoc_quiet (l : list (event MatchItem)) (e : event MatchItem) :
  noProgress e -> progressOf (l ++ [e]) = progressOf l.
Proof.
  intros He. unfold progressOf. rewrite omap_app. fold (progressOf [e]).
  rewrite (progressOf_quiet [e]) by (now constructor). apply app_nil_r.
Qed.

Lemma calmSession_emit (total start : nat) (e : event MatchItem) (s : session) :
  calm e -> noProgress e -> calmSession total start s -> calmSession total start (emit e s).
Proof.
  intros Hc Hp (Hab & Hsc & Hlog & d & Hd & Hlo & Hhi).
  split; [assumption|]. split; [assumption|]. split.
  - cbn. apply Forall_app. split; [assumption | now constructor].
  - exists d. cbn [emit log]. now rewrite progressOf_snoc_quiet.
Qed.

Lemma length_batchAt_inside (start : nat) :
  start < length pool ->
  start + length (batchAt cfg pool start) = min (length pool) (start + scanBatchSize cfg).
Proof. intros H. unfold batchAt. rewrite length_take, length_drop. lia. Qed.

Lemma whileChunks_outage (start fuel : nat) (s s' : session) :
  calmSession (length pool) start s ->
  whileChunks fuel cfg w selfieDesc (batchAt cfg pool start) start (length pool) 0 s = Some s' ->
  calmSession (length pool) (start + length (batchAt cfg pool start)) s'.
Proof using never_stopped outage.
  intros Hcalm Hrun.
  destruct (whileChunks_invariant cfg w selfieDesc
              (fun i s => calmSession (length pool) (start + i) s)
              (batchAt cfg pool start) start (length pool))
    with (fuel := fuel) (i := 0) (s := s) (s' := s')
    as (i' & (Hab & Hsc & Hlog & d & Hd & Hlo & Hhi) & Hend).
  - intros i s0 Hi _ (Hab & Hsc & Hlog & d & Hd & Hlo & Hhi).
    unfold stepChunk, mergeChunk. rewrite userAt_never.
    rewrite scoredOf_outage
      by (intros p Hp; apply In_take, In_drop in Hp; now apply batchAt_In in Hp).
    split; [assumption|]. split; [cbn; now rewrite Hsc|]. split.
    + cbn. apply Forall_app. split; [assumption | repeat constructor].
    + exists (min (length pool) (start + (i + CONCURRENCY cfg))). cbn [emit log].
      unfold progressOf. rewrite omap_app. cbn. rewrite list.last_snoc.
      split; [reflexivity | lia].
  - now rewrite Nat.add_0_r.
  - assumption.
  - destruct Hend as [Hend | Hend]; [|congruence].
    split; [assumption|]. split; [assumption|]. split; [assumption|].
    exists d. split; [assumption|]. lia.
Qed.

Lemma publishBatch_outage (threshold : num) (start : nat) (s : session) :
  calmSession (length pool) start s ->
  calmSession (length pool) start (publishBatch cfg threshold s).
Proof.
  intros (Hab & Hsc & Hlog & d & Hd & Hlo & Hhi).
  unfold publishBatch, keepTop. rewrite Hsc. cbn [sortByScore fold_left].
  rewrite take_nil, filter_nil. cbn [sortByScore fold_left]. rewrite take_nil. cbn [length Nat.ltb Nat.leb].
  split; [assumption|]. split; [reflexivity|]. split.
  - cbn. rewrite <- app_assoc. apply Forall_app. split; [assumption | repeat constructor].
  - exists d. cbn. rewrite <- app_assoc. unfold progressOf. rewrite omap_app. cbn.
    rewrite app_nil_r. auto.
Qed.

Lemma forBatches_outage (threshold : num) (fuel : nat) (s s' : session) :
  calmSession (length pool) 0 s ->
  forBatches fuel cfg w selfieDesc threshold pool 0 s = Some s' ->
  calmSession (length pool) (length pool) s'.
Proof using never_stopped outage.
  intros Hcalm Hrun.
  destruct (forBatches_invariant cfg w selfieDesc
              (fun start s => calmSession (length pool) start s) threshold pool)
    with (fuel := fuel) (start := 0) (s := s) (s' := s')
    as (start' & (Hab & Hsc & Hlog & d & Hd & Hlo & Hhi) & Hend).
  - intros start s0 s1 Hstart _ H0 Hw.
    apply publishBatch_outage.
    apply whileChunks_outage in Hw;
      [|apply calmSession_emit; [exact I | exact I | assumption]].
    destruct Hw as (Hab & Hsc & Hlog & d & Hd & Hlo & Hhi).
    split; [assumption|]. split; [assumption|]. split; [assumption|].
    exists d. split; [assumption|]. rewrite length_batchAt_inside in Hlo by assumption. lia.
  - assumption.
  - assumption.
  - destruct Hend as [Hend | Hend]; [|congruence].
    split; [assumption|]. split; [assumption|]. split; [assumption|].
    exists d. split; [assumption|]. lia.
Qed.
End Outage.

Section OutageOfRun.
Context {N : JSNumber}.
Variables (cfg : knobs) (w : world) (threshold : num) (eventPhotos : list PhotoItem).

Lemma calmSession_prepared :
  stop w = None -> models w <> ModelsFail ->
  calmSession (min (scanMax cfg) (length eventPhotos)) 0 (prepared cfg w eventPhotos).
Proof.
  intros Hstop Hmodels. unfold prepared. rewrite userAt_never by assumption.
  unfold withModels. destruct (models w); [| |congruence].
  - repeat split; cbn; try (repeat constructor; fail).
    exists 0. cbn. split; [reflexivity | lia].
  - repeat split; cbn; try (repeat constructor; fail).
    exists 0. cbn. split; [reflexivity | lia].
Qed.

(** A run that gets as far as the scan. *)
Lemma runMatching_scanned (selfieDesc : descriptor) :
  eventPhotos <> [] -> models w <> ModelsFail -> selfie w = SelfieFace selfieDesc ->
  runMatching cfg w threshold eventPhotos =
    match scan cfg w selfieDesc threshold
            (take (min (scanMax cfg) (length eventPhotos)) eventPhotos)
            (prepared cfg w eventPhotos) with
    | None => None
    | Some s3 => Some (finally_ s3)
    end.
Proof.
  intros Hne Hmodels Hselfie. unfold runMatching.
  destruct (length eventPhotos =? 0) eqn:Hlen.
  { apply Nat.eqb_eq in Hlen. destruct eventPhotos; [congruence | discriminate]. }
  rewrite Hselfie. destruct (models w); [reflexivity | reflexivity | congruence].
Qed.

(** When no candidate can be scored and nobody stops the run, it completes
    with nothing but empty lists and the progress at the total. *)
Lemma runMatching_outage (selfieDesc : descriptor) (updates : list (event MatchItem)) :
  eventPhotos <> [] -> models w <> ModelsFail -> selfie w = SelfieFace selfieDesc ->
  stop w = None ->
  (forall p, In p eventPhotos -> analyze w p = AnalyzeFails \/ analyze w p = Detected []) ->
  runMatching cfg w threshold eventPhotos = Some updates ->
  Forall calm updates /\
  list.last (progressOf updates)
    = Some (min (scanMax cfg) (length eventPhotos), min (scanMax cfg) (length eventPhotos)) /\
  In (SetMatchMessage MsgDoneEmpty) updates.
Proof.
  intros Hne Hmodels Hselfie Hstop Hout.
  rewrite (runMatching_scanned selfieDesc Hne Hmodels Hselfie).
  set (total := min (scanMax cfg) (length eventPhotos)).
  assert (Hpool : length (take total eventPhotos) = total) by (rewrite length_take; lia).
  unfold scan.
  destruct (forBatches _ _ _ _ _ _ _ _) as [s1|] eqn:Hfor; [|discriminate].
  intros [= <-].
  pose proof (calmSession_prepared Hstop Hmodels) as Hprep. fold total in Hprep.
  rewrite <- Hpool in Hprep at 1.
  apply (forBatches_outage cfg w selfieDesc (take total eventPhotos) Hstop) in Hfor;
    [| intros p Hp; apply Hout; now apply In_take in Hp | exact Hprep].
  destruct Hfor as (Hab & Hsc & Hlog & d & Hd & Hlo & Hhi).
  rewrite Hpool in Hd, Hlo, Hhi.
  unfold finally_, finalPublish. rewrite Hab, Hsc. cbn [sortByScore fold_left].
  rewrite filter_nil, take_nil.
  cbn -[min]. rewrite <- !app_assoc. cbn -[min].
  split; [|split].
  - apply Forall_app. split; [assumption | repeat constructor].
  - unfold progressOf. rewrite omap_app. cbn -[min]. rewrite app_nil_r.
    fold (progressOf (log s1)). rewrite Hd. f_equal. f_equal. lia.
  - apply in_or_app. right. cbn. auto.
Qed.
End OutageOfRun.

(** C2.  A candidate whose analysis fails or finds no face never appears in
    a published list; and when that is the case of every candidate, the
    selfie was resolved and nobody stops the run, the run completes with
    only empty lists, without failure, and the last progress published is
    the total over the total. *)
Theorem failed_candidates_are_excluded (N : JSNumber) (cfg : knobs) (w : world)
    (threshold : num) (eventPhotos : list PhotoItem) :
  0 < scanBatchSize cfg -> 0 < CONCURRENCY cfg ->
  exists updates, runMatching cfg w threshold eventPhotos = Some updates /\
    (forall p, analyze w p = AnalyzeFails \/ analyze w p = Detected [] ->
       forall l m, In (SetMatches l) updates -> In m l -> item m <> p) /\
    (eventPhotos <> [] -> models w <> ModelsFail ->
     (exists selfieDesc, selfie w = SelfieFace selfieDesc) -> stop w = None ->
     (forall p, In p eventPhotos -> analyze w p = AnalyzeFails \/ analyze w p = Detected []) ->
       (forall l, In (SetMatches l) updates -> l = []) /\
       ~ In (SetMatchMessage MsgFailed) updates /\
       In (SetMatchMessage MsgDoneEmpty) updates /\
       list.last (progressOf updates)
         = Some (min (scanMax cfg) (length eventPhotos), min (scanMax cfg) (length eventPhotos))).
Proof.
  intros HB HC.
  destruct (runMatching_returns cfg w threshold eventPhotos HB HC) as [updates Hrun].
  exists updates. split; [assumption|]. split.
  - intros p Hp l m Hl Hm Hitem.
    destruct (runMatching_published cfg w threshold eventPhotos updates l m Hrun Hl Hm)
      as (selfieDesc & _ & (_ & _ & faces & Han & Hne & _) & _).
    rewrite Hitem in Han. destruct Hp as [Hp | Hp]; rewrite Hp in Han.
    + discriminate.
    + injection Han as <-. congruence.
  - intros Hne Hmodels [selfieDesc Hselfie] Hstop Hout.
    destruct (runMatching_outage cfg w threshold eventPhotos selfieDesc updates
                Hne Hmodels Hselfie Hstop Hout Hrun) as (Hcalm & Hlast & Hdone).
    rewrite Forall_forall in Hcalm.
    split; [|split; [|split]]; try assumption.
    + intros l Hl. exact (Hcalm _ Hl).
    + intros Hf. exact (Hcalm _ Hf).
Qed.

(** C10.  A candidate that was scored with a negative best similarity is
    not pushed to [scoredAll], and every entry of every published list has
    a score that passes [>= 0], so none is negative: a photo whose best
    face has a negative similarity to the selfie is in no published
    list. *)
Theorem negative_scores_are_excluded (N : JSNumber) (L : NumberZeroLaws N)
    (cfg : knobs) (w : world) (threshold : num) (eventPhotos : list PhotoItem) :
  0 < scanBatchSize cfg -> 0 < CONCURRENCY cfg ->
  (forall selfieDesc aborted p m,
     scoreOne w selfieDesc aborted p = Some m -> ngt nzero (score m) = true ->
     pushIfScored (Some m) = []) /\
  exists updates, runMatching cfg w threshold eventPhotos = Some updates /\
    (forall l m, In (SetMatches l) updates -> In m l ->
       nge (score m) nzero = true /\ ngt nzero (score m) = false) /\
    (forall selfieDesc p faces,
       selfie w = SelfieFace selfieDesc -> analyze w p = Detected faces ->
       ngt nzero (bestScore selfieDesc faces) = true ->
       forall l m, In (SetMatches l) updates -> In m l -> item m <> p).
Proof.
  intros HB HC. split.
  - intros selfieDesc aborted p m _ Hneg. cbn. now rewrite (gt_zero_not_ge _ Hneg).
  - destruct (runMatching_returns cfg w threshold eventPhotos HB HC) as [updates Hrun].
    exists updates. split; [assumption|]. split.
    + intros l m Hl Hm.
      destruct (runMatching_published cfg w threshold eventPhotos updates l m Hrun Hl Hm)
        as (selfieDesc & _ & (_ & Hge & _) & _).
      split; [assumption|].
      destruct (ngt nzero (score m)) eqn:Hneg; [|reflexivity].
      apply gt_zero_not_ge in Hneg. congruence.
    + intros selfieDesc p faces Hselfie Hfaces Hneg l m Hl Hm Hitem.
      destruct (runMatching_published cfg w threshold eventPhotos updates l m Hrun Hl Hm)
        as (selfieDesc' & Hselfie' & (_ & Hge & faces' & Hfaces' & _ & Hscore) & _).
      assert (selfieDesc' = selfieDesc) by congruence. subst selfieDesc'.
      rewrite Hitem, Hfaces in Hfaces'. injection Hfaces' as <-.
      rewrite Hscore in Hge. apply gt_zero_not_ge in Hneg. congruence.
Qed.

Lemma failed_candidates_are_excluded_witness :
  exists updates,
    runMatching sourceKnobs (sampleWorld None) 0x1.c28f5c28f5c29p-1%float samplePool = Some updates /\
    forall l m, In (SetMatches l) updates -> In m l -> item m <> photo "b".
Proof.
  destruct (failed_candidates_are_excluded Float64 sourceKnobs (sampleWorld None)
              0x1.c28f5c28f5c29p-1%float samplePool) as (updates & Hrun & Hexcl & _).
  - cbn. lia.
  - cbn. lia.
  - exists updates. split; [exact Hrun|]. apply Hexcl. left. reflexivity.
Defined.

Lemma negative_scores_are_excluded_witness :
  ngt nzero (bestScore (floats [1%float; 0%float]) [floats [(-1)%float; 0%float]]) = true /\
  pushIfScored (scoreOne negativeWorld (floats [1%float; 0%float]) false (photo "n")) = [] /\
  exists updates,
    runMatching sourceKnobs negativeWorld 0x1.c28f5c28f5c29p-1%float negativePool = Some updates /\
    In (SetMatches [{| item := photo "a"; score := bestScore (floats [1%float; 0%float])
                                                      [floats [1%float; 0%float]] |}]) updates /\
    forall l m, In (SetMatches l) updates -> In m l ->
      item m <> photo "n" /\ nge (score m) nzero = true /\ ngt nzero (score m) = false.
Proof.
  assert (Hneg : ngt nzero (bestScore (floats [1%float; 0%float])
                              [floats [(-1)%float; 0%float]]) = true)
    by (vm_compute; reflexivity).
  destruct (negative_scores_are_excluded Float64 Float64_zero_laws sourceKnobs negativeWorld
              0x1.c28f5c28f5c29p-1%float negativePool) as (Hpush & updates & Hrun & Hpub & Hout).
  - cbn. lia.
  - cbn. lia.
  - split; [exact Hneg|]. split.
    + exact (Hpush (floats [1%float; 0%float]) false (photo "n")
               {| item := photo "n";
                  score := bestScore (floats [1%float; 0%float]) [floats [(-1)%float; 0%float]] |}
               eq_refl Hneg).
    + exists updates. split; [exact Hrun|]. split.
      * assert (Hsame : runMatching sourceKnobs negativeWorld 0x1.c28f5c28f5c29p-1%float
                          negativePool = Some updates) by exact Hrun.
        vm_compute in Hsame. injection Hsame as <-. vm_compute. tauto.
      * intros l m Hl Hm. split; [|exact (Hpub l m Hl Hm)].
        exact (Hout (floats [1%float; 0%float]) (photo "n") [floats [(-1)%float; 0%float]]
                 eq_refl eq_refl Hneg l m Hl Hm).
Defined.

(** ** Stopping *)

(** C4, the code at the failing input.  The pool has the three sample
    photos, the threshold is 0.88, and the user presses stop while the
    first chunk is awaited.  [abortScan] sets the flag and publishes its
    message; the chunk then still completes, its progress is published, and
    the end of the turn of the [for] loop replaces the published list
    (empty until then) by the match found in the chunk, with a "found"
    message over the "stopped" one.  No further batch starts and the run
    does not fail. *)
Lemma stop_is_followed_by_a_publication :
  runMatching sourceKnobs (sampleWorld (Some (DuringChunk 0))) 0x1.c28f5c28f5c29p-1%float samplePool =
    Some [SetMatchLoading true; SetMatches []; SetProgress 0 3;
          SetMatchMessage MsgPreparing; SetMatchMessage MsgAnalyzingSelfie;
          SetMatchMessage (MsgScanning 1 3 3);
          AbortSet; SetMatchMessage MsgStopped; SetMatchLoading false;
          SetProgress 2 3;
          SetMatches [{| item := photo "a"; score := (0x1.ffffffff2419p-1%float : @num Float64) |}];
          SetMatchMessage (MsgFound 1);
          SetMatchLoading false].
Proof. vm_compute. reflexivity. Qed.

(** ** Sorting by score: order, idempotence, top-K, stability *)

Section SortOrder.
Context {N : JSNumber} {L : NumberOrderLaws N} {A : Type}.
Variable score : A -> num.

Lemma comparator_gt (x y : A) :
  ngt (byScoreDesc score y x) nzero = ngt (score x) (score y).
Proof using L. apply gt_sub. Qed.

Lemma not_gt_above (x y : A) :
  acceptable score x -> acceptable score y ->
  ngt (score x) (score y) = false -> above score y x.
Proof using L.
  intros Hx Hy Hgt. rewrite (ge_total _ _ Hx Hy) in Hgt.
  now apply negb_false_iff in Hgt.
Qed.

Lemma gt_above (x y : A) :
  acceptable score x -> acceptable score y ->
  ngt (score x) (score y) = true -> above score x y /\ nge (score y) (score x) = false.
Proof using L.
  intros Hx Hy Hgt. rewrite (ge_total _ _ Hx Hy) in Hgt. apply negb_true_iff in Hgt.
  split; [|assumption]. pose proof (ge_connex _ _ Hx Hy) as Hc.
  unfold above. rewrite Hgt, orb_false_r in Hc. exact Hc.
Qed.

Lemma above_trans (x y z : A) : above score x y -> above score y z -> above score x z.
Proof using L. apply ge_trans. Qed.

Lemma insertSorted_acceptable (x : A) (l : list A) :
  acceptable score x -> Forall (acceptable score) l ->
  Forall (acceptable score) (insertSorted score x l).
Proof.
  intros Hx Hl. rewrite Forall_forall in *. intros y Hy.
  apply insertSorted_In in Hy as [-> | Hy]; auto.
Qed.

Lemma insertSorted_sorted (x : A) (l : list A) :
  acceptable score x -> Forall (acceptable score) l ->
  StronglySorted (above score) l ->
  StronglySorted (above score) (insertSorted score x l).
Proof using L.
  intros Hx. induction l as [|y l IH]; intros Hl Hs; cbn.
  - repeat constructor.
  - apply list.Forall_cons in Hl as [Hy Hl]. apply StronglySorted_inv in Hs as [Hs Hall].
    rewrite comparator_gt. destruct (ngt (score x) (score y)) eqn:Hgt.
    + destruct (gt_above x y Hx Hy Hgt) as [Hxy _].
      constructor; [now constructor|]. constructor; [exact Hxy|].
      eapply List.Forall_impl; [|exact Hall]. intros z Hz. now apply (above_trans x y z).
    + constructor; [now apply IH|].
      apply Forall_forall. intros z Hz. apply insertSorted_In in Hz as [-> | Hz].
      * now apply not_gt_above.
      * rewrite Forall_forall in Hall. now apply Hall.
Qed.

Lemma fold_insertSorted_sorted (l : list A) : forall acc,
  Forall (acceptable score) acc -> Forall (acceptable score) l ->
  StronglySorted (above score) acc ->
  StronglySorted (above score) (fold_left (fun acc x => insertSorted score x acc) l acc) /\
  Forall (acceptable score) (fold_left (fun acc x => insertSorted score x acc) l acc).
Proof using L.
  induction l as [|x l IH]; intros acc Hacc Hl Hs; cbn; [now split|].
  apply list.Forall_cons in Hl as [Hx Hl].
  apply IH; [now apply insertSorted_acceptable | assumption | now apply insertSorted_sorted].
Qed.

(** The sorted list is in descending order of score. *)
Lemma sortByScore_sorted (l : list A) :
  Forall (acceptable score) l -> StronglySorted (above score) (sortByScore score l).
Proof using L. intros Hl. apply fold_insertSorted_sorted; [constructor | assumption | constructor]. Qed.

Lemma sortByScore_acceptable (l : list A) :
  Forall (acceptable score) l -> Forall (acceptable score) (sortByScore score l).
Proof using L. intros Hl. apply fold_insertSorted_sorted; [constructor | assumption | constructor]. Qed.

(** An element that nothing in the list has to come after goes last. *)
Lemma insertSorted_last (x : A) (l : list A) :
  acceptable score x -> Forall (acceptable score) l ->
  Forall (fun y => above score y x) l -> insertSorted score x l = l ++ [x].
Proof using L.
  intros Hx. induction l as [|y l IH]; intros Hl Hab; cbn; [reflexivity|].
  apply list.Forall_cons in Hl as [Hy Hl]. apply list.Forall_cons in Hab as [Hyx Hab].
  rewrite comparator_gt, (ge_total _ _ Hx Hy). unfold above in Hyx. rewrite Hyx. cbn.
  now rewrite IH.
Qed.

Lemma fold_insertSorted_id (l : list A) : forall acc,
  Forall (acceptable score) (acc ++ l) -> StronglySorted (above score) (acc ++ l) ->
  fold_left (fun acc x => insertSorted score x acc) l acc = acc ++ l.
Proof using L.
  induction l as [|x l IH]; intros acc Hok Hs; cbn; [now rewrite app_nil_r|].
  apply Forall_app in Hok as Hok'. destruct Hok' as [Hacc Hxl].
  apply list.Forall_cons in Hxl as [Hx Hl].
  rewrite insertSorted_last; [| assumption | assumption |].
  - rewrite IH; rewrite <- app_assoc; [reflexivity | assumption | assumption].
  - apply Forall_forall. intros y Hy.
    apply sorting.StronglySorted_app in Hs as (Hcross & _ & _).
    apply Hcross; [now apply list_elem_of_In | now left].
Qed.

(** Sorting a sorted list changes nothing. *)
Lemma sortByScore_id (l : list A) :
  Forall (acceptable score) l -> StronglySorted (above score) l -> sortByScore score l = l.
Proof using L. intros Hl Hs. now apply (fold_insertSorted_id l []). Qed.

(** Only the first [k] elements of a list matter to the first [k] after an
    insertion. *)
Lemma take_insertSorted (k : nat) (x : A) (l : list A) :
  take k (insertSorted score x (take k l)) = take k (insertSorted score x l).
Proof.
  revert k. induction l as [|y l IH]; intros [|k]; cbn; try reflexivity.
  destruct (ngt (byScoreDesc score y x) nzero); cbn.
  - destruct k; cbn; [reflexivity|]. rewrite take_take. do 2 f_equal.
    rewrite Nat.min_l by lia. reflexivity.
  - now rewrite IH.
Qed.

Lemma take_fold_insertSorted (k : nat) (l : list A) : forall acc acc',
  take k acc = take k acc' ->
  take k (fold_left (fun acc x => insertSorted score x acc) l acc) =
  take k (fold_left (fun acc x => insertSorted score x acc) l acc').
Proof.
  induction l as [|x l IH]; intros acc acc' Heq; cbn; [assumption|].
  apply IH. rewrite <- (take_insertSorted k x acc), <- (take_insertSorted k x acc').
  now rewrite Heq.
Qed.

(** Keeping the top [k] between two rounds of sorting loses nothing of the
    top [k] of the whole. *)
Lemma keepTop_incremental (k : nat) (l1 l2 : list A) :
  Forall (acceptable score) l1 ->
  take k (sortByScore score (take k (sortByScore score l1) ++ l2)) =
  take k (sortByScore score (l1 ++ l2)).
Proof using L.
  intros Hl1. unfold sortByScore at 1 3. rewrite !fold_left_app.
  apply take_fold_insertSorted.
  fold (sortByScore score (take k (sortByScore score l1))). fold (sortByScore score l1).
  rewrite sortByScore_id.
  - now rewrite take_take, Nat.min_id.
  - now apply Forall_take, sortByScore_acceptable.
  - pose proof (sortByScore_sorted l1 Hl1) as Hs.
    rewrite <- (take_drop k (sortByScore score l1)) in Hs.
    now apply sorting.StronglySorted_app_1_l in Hs.
Qed.
End SortOrder.

Section SortStable.
Context {N : JSNumber} {L : NumberOrderLaws N} {A : Type}.
Variable score : A -> num.

Lemma filter_none (P : A -> Prop) `{!forall x, Decision (P x)} (l : list A) :
  Forall (fun z => ~ P z) l -> filter P l = [].
Proof.
  induction 1 as [|z l Hz _ IH]; [reflexivity|].
  now rewrite filter_cons_False.
Qed.

(** Two elements tied with the same score are tied with each other, so
    nothing strictly below one of them ties with that score. *)
Lemma ties_not_below (v : num) (x y z : A) :
  acceptable score x -> acceptable score y ->
  ngt (score x) (score y) = true -> above score y z ->
  tiesWith score v x -> ~ tiesWith score v z.
Proof using L.
  intros Hx Hy Hgt Hyz Hvx Hvz. unfold tiesWith in *.
  apply andb_prop in Hvx as [_ Hvx]. apply andb_prop in Hvz as [Hzv _].
  destruct (gt_above score x y Hx Hy Hgt) as [_ Hnot].
  assert (Hzx : nge (score z) (score x) = true) by (eapply ge_trans; eauto).
  assert (Hyx : nge (score y) (score x) = true) by (eapply ge_trans; eauto).
  congruence.
Qed.

(** Insertion puts an element after the elements of the same score. *)
Lemma filter_ties_insertSorted (v : num) (x : A) (l : list A) :
  acceptable score x -> Forall (acceptable score) l -> StronglySorted (above score) l ->
  filter (tiesWith score v) (insertSorted score x l) =
  filter (tiesWith score v) l ++ filter (tiesWith score v) [x].
Proof using L.
  intros Hx. induction l as [|y l IH]; intros Hl Hs; [reflexivity|].
  apply list.Forall_cons in Hl as [Hy Hl]. apply StronglySorted_inv in Hs as [Hs Hall].
  cbn [insertSorted]. rewrite comparator_gt. destruct (ngt (score x) (score y)) eqn:Hgt.
  - destruct (decide (tiesWith score v x)) as [Hvx | Hvx].
    + assert (Hyy : above score y y).
      { unfold above. pose proof (ge_connex _ _ Hy Hy) as Hc. now rewrite orb_diag in Hc. }
      assert (Hnone : filter (tiesWith score v) (y :: l) = []).
      { apply filter_none. constructor.
        - exact (ties_not_below v x y y Hx Hy Hgt Hyy Hvx).
        - eapply List.Forall_impl; [|exact Hall]. intros z Hz.
          exact (ties_not_below v x y z Hx Hy Hgt Hz Hvx). }
      rewrite (filter_cons_True _ x (y :: l)) by assumption. rewrite Hnone.
      rewrite (filter_cons_True _ x []) by assumption. reflexivity.
    + rewrite filter_cons_False by assumption.
      rewrite (filter_cons_False _ x []) by assumption. now rewrite filter_nil, app_nil_r.
  - destruct (decide (tiesWith score v y)) as [Hvy | Hvy].
    + rewrite !(filter_cons_True _ y) by assumption. cbn. now rewrite IH.
    + rewrite !(filter_cons_False _ y) by assumption. now rewrite IH.
Qed.

Lemma filter_ties_fold (v : num) (l : list A) : forall acc,
  Forall (acceptable score) acc -> Forall (acceptable score) l ->
  StronglySorted (above score) acc ->
  filter (tiesWith score v) (fold_left (fun acc x => insertSorted score x acc) l acc) =
  filter (tiesWith score v) acc ++ filter (tiesWith score v) l.
Proof using L.
  induction l as [|x l IH]; intros acc Hacc Hl Hs; cbn [fold_left].
  - now rewrite filter_nil, app_nil_r.
  - apply list.Forall_cons in Hl as [Hx Hl].
    rewrite IH; [| now apply insertSorted_acceptable | assumption | now apply insertSorted_sorted].
    rewrite filter_ties_insertSorted by assumption.
    rewrite <- app_assoc. f_equal.
    change (x :: l) with ([x] ++ l). now rewrite list.filter_app.
Qed.

(** The sort is stable: the elements of one score keep their order. *)
Lemma sortByScore_stable (v : num) (l : list A) :
  Forall (acceptable score) l ->
  filter (tiesWith score v) (sortByScore score l) = filter (tiesWith score v) l.
Proof using L.
  intros Hl. unfold sortByScore. rewrite filter_ties_fold; [reflexivity | constructor | assumption | constructor].
Qed.
End SortStable.

(** ** Determinism *)

Section SublistFacts.
Context {A B : Type}.

Lemma Forall_sublist_of (P : A -> Prop) (l1 l2 : list A) :
  l1 `sublist_of` l2 -> Forall P l2 -> Forall P l1.
Proof.
  induction 1 as [|x l1 l2 _ IH|x l1 l2 _ IH]; intros H.
  - constructor.
  - apply list.Forall_cons in H as [Hx H]. constructor; auto.
  - apply list.Forall_cons in H as [_ H]. auto.
Qed.

Lemma StronglySorted_sublist (R : A -> A -> Prop) (l1 l2 : list A) :
  l1 `sublist_of` l2 -> StronglySorted R l2 -> StronglySorted R l1.
Proof.
  induction 1 as [|x l1 l2 Hsub IH|x l1 l2 _ IH]; intros H.
  - constructor.
  - apply StronglySorted_inv in H as [H Hx]. constructor; [auto|].
    now apply (Forall_sublist_of _ l1 l2).
  - apply StronglySorted_inv in H as [H _]. auto.
Qed.

Lemma sublist_filter_mono (P : A -> Prop) `{!forall x, Decision (P x)} (l1 l2 : list A) :
  l1 `sublist_of` l2 -> filter P l1 `sublist_of` filter P l2.
Proof.
  induction 1 as [|x l1 l2 _ IH|x l1 l2 _ IH].
  - constructor.
  - destruct (decide (P x)).
    + rewrite !filter_cons_True by assumption. now constructor.
    + now rewrite !filter_cons_False by assumption.
  - destruct (decide (P x)).
    + rewrite filter_cons_True by assumption. now constructor.
    + now rewrite filter_cons_False by assumption.
Qed.

Lemma sublist_map (f : A -> B) (l1 l2 : list A) :
  l1 `sublist_of` l2 -> map f l1 `sublist_of` map f l2.
Proof. induction 1; cbn; now constructor. Qed.
End SublistFacts.

Section Determinism.
Context {N : JSNumber}.
Variables (cfg : knobs) (w : world).

(** The order in which the workers settle changes nothing. *)
Lemma whileChunks_order (order : nat -> list nat) (selfieDesc : descriptor)
    (batch : list PhotoItem) (start total : nat) : forall fuel i s,
  whileChunks fuel cfg (withOrder w order) selfieDesc batch start total i s =
  whileChunks fuel cfg w selfieDesc batch start total i s.
Proof.
  induction fuel as [|fuel IH]; intros i s; [reflexivity|].
  rewrite !whileChunks_step.
  destruct (i <? length batch); cbn [negb]; [|reflexivity].
  destruct (abortRef s); [reflexivity|]. apply IH.
Qed.

Lemma forBatches_order (order : nat -> list nat) (selfieDesc : descriptor)
    (threshold : num) (pool : list PhotoItem) : forall fuel start s,
  forBatches fuel cfg (withOrder w order) selfieDesc threshold pool start s =
  forBatches fuel cfg w selfieDesc threshold pool start s.
Proof.
  induction fuel as [|fuel IH]; intros start s; [reflexivity|].
  rewrite !forBatches_step.
  destruct (start <? length pool); cbn [negb]; [|reflexivity].
  destruct (abortRef s); [reflexivity|].
  rewrite whileChunks_order.
  destruct (whileChunks _ _ _ _ _ _ _ _ _); [apply IH | reflexivity].
Qed.

Lemma runMatching_order (order : nat -> list nat) (threshold : num)
    (eventPhotos : list PhotoItem) :
  runMatching cfg (withOrder w order) threshold eventPhotos =
  runMatching cfg w threshold eventPhotos.
Proof.
  unfold runMatching. destruct (length eventPhotos =? 0); [reflexivity|].
  change (models (withOrder w order)) with (models w).
  change (selfie (withOrder w order)) with (selfie w).
  destruct (models w), (selfie w) as [| |selfieDesc]; try reflexivity;
    unfold scan; rewrite forBatches_order; reflexivity.
Qed.
End Determinism.

Section Ranking.
Context {N : JSNumber} {L : NumberOrderLaws N}.
Variables (cfg : knobs) (w : world) (selfieDesc : descriptor).
Hypothesis never_stopped : stop w = None.

Lemma scoredOf_app (aborted : bool) (l1 l2 : list PhotoItem) :
  scoredOf w selfieDesc aborted (l1 ++ l2) =
  scoredOf w selfieDesc aborted l1 ++ scoredOf w selfieDesc aborted l2.
Proof. unfold scoredOf. now rewrite !map_app, concat_app. Qed.

Lemma scoredOf_acceptable (aborted : bool) (l : list PhotoItem) :
  Forall (acceptable score) (scoredOf w selfieDesc aborted l).
Proof.
  eapply List.Forall_impl; [|apply (scoredOf_scoredFrom w selfieDesc aborted l l); auto].
  intros m (_ & Hge & _). exact Hge.
Qed.

(** The photos of the scored entries of a list are a subsequence of it. *)
Lemma scoredOf_items (aborted : bool) (l : list PhotoItem) :
  map item (scoredOf w selfieDesc aborted l) `sublist_of` l.
Proof.
  induction l as [|p l IH]; [constructor|].
  change (p :: l) with ([p] ++ l). rewrite scoredOf_app, map_app.
  apply sublist_app; [|exact IH].
  unfold scoredOf. cbn. rewrite app_nil_r.
  destruct (scoreOne w selfieDesc aborted p) as [m|] eqn:Hm; cbn; [|apply sublist_nil_l].
  destruct (nge (score m) nzero); cbn; [|apply sublist_nil_l].
  apply scoreOne_Some in Hm as [-> _]. reflexivity.
Qed.

(** Without a stop, the [while] loop adds the scored photos of the batch. *)
Lemma whileChunks_scoredAll (batch : list PhotoItem) (start total fuel : nat) (s s' : session) :
  abortRef s = false ->
  whileChunks fuel cfg w selfieDesc batch start total 0 s = Some s' ->
  abortRef s' = false /\
  scoredAll s' = scoredAll s ++ scoredOf w selfieDesc false batch.
Proof using never_stopped.
  intros Hab Hrun.
  destruct (whileChunks_invariant cfg w selfieDesc
              (fun i s0 => abortRef s0 = false /\
                 scoredAll s0 = scoredAll s ++ scoredOf w selfieDesc false (take i batch))
              batch start total)
    with (fuel := fuel) (i := 0) (s := s) (s' := s') as (i' & (Hab' & Hsc) & Hend).
  - intros i s0 Hi _ (Hab0 & Hsc0). unfold stepChunk, mergeChunk.
    rewrite (userAt_never w never_stopped). cbn. split; [assumption|].
    rewrite Hsc0, Hab0, <- app_assoc, <- scoredOf_app, take_take_drop. reflexivity.
  - split; [assumption|]. cbn. unfold scoredOf. cbn. now rewrite app_nil_r.
  - assumption.
  - destruct Hend as [Hend | Hend]; [|congruence].
    split; [assumption|]. now rewrite Hsc, (take_ge batch i') by lia.
Qed.

Lemma take_batchAt (pool : list PhotoItem) (start : nat) :
  start < length pool ->
  take start pool ++ batchAt cfg pool start = take (start + scanBatchSize cfg) pool.
Proof.
  intros Hstart. unfold batchAt. rewrite take_take_drop.
  destruct (Nat.le_gt_cases (start + scanBatchSize cfg) (length pool)) as [Hle | Hgt].
  - f_equal. lia.
  - rewrite Nat.min_l by lia.
    replace (start + (length pool - start)) with (length pool) by lia.
    now rewrite !take_ge by lia.
Qed.

(** Without a stop, after the [for] loop [scoredAll] holds the [TOP_KEEP]
    best of all the scored photos of the pool, in sorted order. *)
Lemma forBatches_scoredAll (threshold : num) (pool : list PhotoItem) (fuel : nat)
    (s s' : session) :
  abortRef s = false -> scoredAll s = [] ->
  forBatches fuel cfg w selfieDesc threshold pool 0 s = Some s' ->
  abortRef s' = false /\
  scoredAll s' = take (TOP_KEEP cfg) (sortByScore score (scoredOf w selfieDesc false pool)).
Proof using never_stopped L.
  intros Hab Hsc Hrun.
  destruct (forBatches_invariant cfg w selfieDesc
              (fun start s0 => abortRef s0 = false /\
                 scoredAll s0 = take (TOP_KEEP cfg)
                   (sortByScore score (scoredOf w selfieDesc false (take start pool))))
              threshold pool)
    with (fuel := fuel) (start := 0) (s := s) (s' := s') as (start' & (Hab' & Hsc') & Hend).
  - intros start s0 s1 Hstart _ (Hab0 & Hsc0) Hw.
    apply whileChunks_scoredAll in Hw as [Hab1 Hsc1]; [|exact Hab0].
    split.
    + unfold publishBatch. destruct (0 <? _); exact Hab1.
    + assert (Hkept : scoredAll (publishBatch cfg threshold s1) = keepTop cfg (scoredAll s1))
        by (unfold publishBatch; destruct (0 <? _); reflexivity).
      rewrite Hkept, Hsc1. cbn [emit scoredAll]. rewrite Hsc0. unfold keepTop.
      rewrite keepTop_incremental by apply scoredOf_acceptable.
      now rewrite <- scoredOf_app, take_batchAt.
  - split; [assumption|]. rewrite Hsc. symmetry. apply (take_nil (TOP_KEEP cfg)).
  - assumption.
  - destruct Hend as [Hend | Hend]; [|congruence].
    split; [assumption|]. now rewrite Hsc', (take_ge pool start') by lia.
Qed.

(** The ranking is in descending order of score, and its entries of one
    score are in the order of the pool. *)
Lemma ranking_sorted (threshold : num) (pool : list PhotoItem) :
  StronglySorted (above score) (ranking cfg w selfieDesc threshold pool).
Proof using L.
  unfold ranking. eapply StronglySorted_sublist;
    [|apply sortByScore_sorted, scoredOf_acceptable].
  etransitivity; [apply sublist_take|]. etransitivity; [apply sublist_filter|].
  apply sublist_take.
Qed.

Lemma ranking_ties (threshold v : num) (pool : list PhotoItem) :
  map item (filter (tiesWith score v) (ranking cfg w selfieDesc threshold pool))
    `sublist_of` pool.
Proof using L.
  etransitivity; [|apply (scoredOf_items false pool)].
  apply sublist_map.
  etransitivity; [|apply (sublist_filter (tiesWith score v))].
  rewrite <- (sortByScore_stable score v (scoredOf w selfieDesc false pool))
    by apply scoredOf_acceptable.
  apply sublist_filter_mono. unfold ranking.
  etransitivity; [apply sublist_take|]. etransitivity; [apply sublist_filter|].
  apply sublist_take.
Qed.

(** Without a stop, the list published last by the scan is the ranking of
    the pool. *)
Lemma scan_final (threshold : num) (pool : list PhotoItem) (s s3 : session) :
  abortRef s = false -> scoredAll s = [] ->
  scan cfg w selfieDesc threshold pool s = Some s3 ->
  finalResults (finally_ s3) = Some (ranking cfg w selfieDesc threshold pool).
Proof using never_stopped L.
  intros Hab Hsc. unfold scan.
  destruct (forBatches _ _ _ _ _ _ _ _) as [s1|] eqn:Hfor; [|discriminate].
  intros [= <-].
  apply forBatches_scoredAll in Hfor as [Hab1 Hsc1]; [|assumption|assumption].
  unfold finally_, finalPublish. rewrite Hab1, Hsc1.
  rewrite sortByScore_id.
  - fold (ranking cfg w selfieDesc threshold pool).
    unfold finalResults, matchesOf.
    destruct (length _ =? 0); cbn [emit log]; rewrite <- !app_assoc, omap_app; cbn;
      apply list.last_snoc.
  - apply Forall_take, sortByScore_acceptable, scoredOf_acceptable.
  - eapply StronglySorted_sublist; [apply sublist_take|].
    apply sortByScore_sorted, scoredOf_acceptable.
Qed.
End Ranking.

(** C3.  The updates of a session do not depend on the order in which the
    workers of a chunk settle.  When the session runs to its end, its final
    results are the ranking of the pool: in descending order of score, the
    entries of one score in the order in which the pool enumerates their
    photos. *)
Theorem results_are_deterministic (N : JSNumber) (L : NumberOrderLaws N)
    (cfg : knobs) (w : world) (threshold : num) (eventPhotos : list PhotoItem)
    (order1 order2 : nat -> list nat) :
  0 < scanBatchSize cfg -> 0 < CONCURRENCY cfg ->
  runMatching cfg (withOrder w order1) threshold eventPhotos =
  runMatching cfg (withOrder w order2) threshold eventPhotos /\
  (forall selfieDesc,
     eventPhotos <> [] -> models w <> ModelsFail -> selfie w = SelfieFace selfieDesc ->
     stop w = None ->
     let pool := take (min (scanMax cfg) (length eventPhotos)) eventPhotos in
     exists updates final,
       runMatching cfg (withOrder w order1) threshold eventPhotos = Some updates /\
       finalResults updates = Some final /\
       final = ranking cfg w selfieDesc threshold pool /\
       StronglySorted (above score) final /\
       forall v, map item (filter (tiesWith score v) final) `sublist_of` pool).
Proof.
  intros HB HC. split; [now rewrite !runMatching_order|].
  intros selfieDesc Hne Hmodels Hselfie Hstop pool.
  rewrite runMatching_order, (runMatching_scanned cfg w threshold eventPhotos selfieDesc)
    by assumption.
  fold pool.
  destruct (scan_total cfg w selfieDesc threshold pool (prepared cfg w eventPhotos) HB HC)
    as (s1 & _ & Hscan).
  rewrite Hscan.
  destruct (calmSession_prepared cfg w eventPhotos Hstop Hmodels) as (Hab & Hsc & _).
  exists (finally_ (finalPublish threshold s1)), (ranking cfg w selfieDesc threshold pool).
  split; [reflexivity|]. split; [|split; [reflexivity|split]].
  - now apply (scan_final cfg w selfieDesc Hstop threshold pool (prepared cfg w eventPhotos)).
  - apply ranking_sorted.
  - intros v. apply ranking_ties.
Qed.

Lemma results_are_deterministic_witness :
  runMatching sourceKnobs (withOrder exactWorld inOrder) (XR (88 / 100)) samplePool =
  runMatching sourceKnobs (withOrder exactWorld reversed) (XR (88 / 100)) samplePool.
Proof.
  apply (results_are_deterministic Exact Exact_order_laws sourceKnobs exactWorld
           (XR (88 / 100)) samplePool inOrder reversed); cbn; lia.
Defined.

(** ** Stopping: what holds *)

Section Cancellation.
Context {N : JSNumber}.
Variables (cfg : knobs) (w : world) (selfieDesc : descriptor).

Lemma batchesRespectAbort_app (l k : list (event MatchItem)) : forall b,
  batchesRespectAbort b (l ++ k) =
  batchesRespectAbort b l && batchesRespectAbort (b || abortSeen l) k.
Proof.
  induction l as [|e l IH]; intros b; cbn.
  - now rewrite orb_false_r.
  - destruct e as [| | |m|]; cbn; rewrite ?IH, ?orb_false_r; try reflexivity.
    + destruct m; cbn; rewrite ?IH, ?orb_false_r; try reflexivity.
      now rewrite andb_assoc.
    + now rewrite !orb_true_r.
Qed.

Lemma batchesRespectAbort_harmless (evs : list (event MatchItem)) : forall b,
  Forall harmless evs -> batchesRespectAbort b evs = true.
Proof.
  induction evs as [|e evs IH]; intros b Hq; [reflexivity|].
  apply list.Forall_cons in Hq as [He Hq].
  destruct e as [| | |m|]; cbn; auto. destruct m; cbn in *; auto; contradiction.
Qed.

Lemma orderly_append (s s' : session) (evs : list (event MatchItem)) :
  orderly s -> log s' = log s ++ evs -> Forall harmless evs ->
  (abortRef s' = false -> abortRef s = false /\ abortSeen evs = false) ->
  orderly s'.
Proof.
  intros (Hb & Hseen & Hfail) Hlog Hq Hab. unfold orderly. rewrite Hlog.
  split; [|split].
  - rewrite batchesRespectAbort_app, Hb. now apply batchesRespectAbort_harmless.
  - intros H. destruct (Hab H) as [H1 H2]. unfold abortSeen in *.
    rewrite existsb_app, H2, (Hseen H1). reflexivity.
  - apply Forall_app. split; [assumption|].
    eapply List.Forall_impl; [|exact Hq]. intros e He ->. exact He.
Qed.

Lemma userAt_cases (p : stopPoint) (s : session) :
  userAt w p s = s \/ userAt w p s = abortScan s.
Proof.
  unfold userAt. destruct (stop w) as [[|k]|], p as [|k']; auto.
  destruct (k =? k'); auto.
Qed.

Lemma orderly_userAt (p : stopPoint) (s : session) : orderly s -> orderly (userAt w p s).
Proof.
  intros H. destruct (userAt_cases p s) as [-> | ->]; [assumption|].
  apply (orderly_append s (abortScan s)
           [AbortSet; SetMatchMessage MsgStopped; SetMatchLoading false]).
  - assumption.
  - cbn. now rewrite <- !app_assoc.
  - repeat constructor.
  - cbn. discriminate.
Qed.

Lemma orderly_emit (e : event MatchItem) (s : session) :
  harmless e -> e <> AbortSet -> orderly s -> orderly (emit e s).
Proof.
  intros He Hne H.
  apply (orderly_append s (emit e s) [e]); [assumption | reflexivity | now constructor |].
  cbn. intros Hab. split; [assumption|]. destruct e; try reflexivity. congruence.
Qed.

Lemma orderly_stepChunk (batch : list PhotoItem) (start total i : nat) (s : session) :
  orderly s -> orderly (stepChunk cfg w selfieDesc batch start total i s).
Proof.
  intros H. unfold stepChunk. apply orderly_emit; [exact I | discriminate |].
  unfold mergeChunk.
  pose proof (orderly_userAt (DuringChunk (awaited s)) s H) as (Hb & Hseen & Hfail).
  split; [|split]; assumption.
Qed.

Lemma orderly_publishBatch (threshold : num) (s : session) :
  orderly s -> orderly (publishBatch cfg threshold s).
Proof.
  intros H. destruct (log_publishBatch cfg threshold s) as (msg & Hmsg & Hlog).
  apply (orderly_append s _ _ H Hlog).
  - constructor; [exact I|]. constructor; [|constructor].
    destruct Hmsg as [-> | [n ->]]; exact I.
  - intros Hab. split; [|reflexivity].
    revert Hab. unfold publishBatch. now destruct (0 <? _).
Qed.

(** The scan starts no batch after an abort and reports no failure. *)
Lemma forBatches_orderly (threshold : num) (pool : list PhotoItem) (fuel : nat)
    (s s' : session) :
  orderly s -> forBatches fuel cfg w selfieDesc threshold pool 0 s = Some s' -> orderly s'.
Proof.
  intros Hok Hrun.
  destruct (forBatches_invariant cfg w selfieDesc (fun _ s0 => orderly s0) threshold pool)
    with (fuel := fuel) (start := 0) (s := s) (s' := s') as (start' & H & _);
    [|assumption|assumption|assumption].
  intros start s0 s1 Hstart Hab H0 Hw. apply orderly_publishBatch.
  destruct (whileChunks_invariant cfg w selfieDesc (fun _ s2 => orderly s2)
              (batchAt cfg pool start) start (length pool))
    with (fuel := length (batchAt cfg pool start)) (i := 0)
         (s := emit (scanning cfg pool start) s0) (s' := s1) as (i' & Hend & _);
    [| |assumption|assumption].
  - intros i s2 _ _ H2. now apply orderly_stepChunk.
  - destruct H0 as (Hb & Hseen & Hfail). unfold orderly. cbn [emit log].
    split; [|split].
    + rewrite batchesRespectAbort_app, Hb, (Hseen Hab). reflexivity.
    + intros _. unfold abortSeen in *. rewrite existsb_app, (Hseen Hab). reflexivity.
    + apply Forall_app. split; [assumption|]. repeat constructor. discriminate.
Qed.

Lemma abortRef_finalPublish (threshold : num) (s : session) :
  abortRef (finalPublish threshold s) = abortRef s.
Proof.
  unfold finalPublish. destruct (abortRef s) eqn:Hab; [assumption|].
  now destruct (length _ =? 0).
Qed.

(** X1.  In a run during which no other run is started: once the run has
    reached the scan, whenever the user presses stop, no batch is announced
    after the flag is set and the run does not fail.  (The flag is shared
    by the runs of the component and each run resets it when it starts, so
    this is a property of a run alone, which is what a [session] is.) *)
Lemma stop_starts_no_batch_and_never_fails (threshold : num) (eventPhotos : list PhotoItem)
    (updates : list (event MatchItem)) :
  eventPhotos <> [] -> models w <> ModelsFail -> selfie w = SelfieFace selfieDesc ->
  runMatching cfg w threshold eventPhotos = Some updates ->
  batchesRespectAbort false updates = true /\ ~ In (SetMatchMessage MsgFailed) updates.
Proof.
  intros Hne Hmodels Hselfie.
  rewrite (runMatching_scanned cfg w threshold eventPhotos selfieDesc Hne Hmodels Hselfie).
  unfold scan. destruct (forBatches _ _ _ _ _ _ _ _) as [s1|] eqn:Hfor; [|discriminate].
  intros [= <-].
  assert (Hprep : orderly (prepared cfg w eventPhotos)).
  { unfold prepared. apply orderly_userAt. apply orderly_emit; [exact I | discriminate |].
    unfold withModels. destruct (models w).
    - repeat split; cbn; try discriminate. repeat constructor; discriminate.
    - apply orderly_emit; [exact I | discriminate |].
      repeat split; cbn; try discriminate. repeat constructor; discriminate.
    - congruence. }
  apply forBatches_orderly in Hfor; [|exact Hprep].
  assert (Hfinal : orderly (emit (SetMatchLoading false) (finalPublish threshold s1))).
  { apply orderly_emit; [exact I | discriminate |].
    destruct (log_finalPublish threshold s1) as [Hlog | (msg & Hmsg & Hab & Hlog)].
    - apply (orderly_append s1 _ [] Hfor); [now rewrite Hlog, app_nil_r | constructor |].
      rewrite abortRef_finalPublish. auto.
    - apply (orderly_append s1 _ _ Hfor Hlog).
      + constructor; [exact I|]. constructor; [|constructor].
        destruct Hmsg as [-> | [n ->]]; exact I.
      + intros _. split; [assumption | reflexivity]. }
  destruct Hfinal as (Hb & _ & Hfail). unfold finally_. split; [exact Hb|].
  intros Hin. rewrite Forall_forall in Hfail. now apply (Hfail _ Hin).
Qed.
End Cancellation.

Lemma stop_starts_no_batch_and_never_fails_witness :
  exists updates,
    runMatching sourceKnobs (sampleWorld (Some (DuringChunk 0))) 0x1.c28f5c28f5c29p-1%float samplePool
      = Some updates /\
    batchesRespectAbort false updates = true /\ ~ In (SetMatchMessage MsgFailed) updates.
Proof.
  exists (default [] (runMatching sourceKnobs (sampleWorld (Some (DuringChunk 0)))
                        0x1.c28f5c28f5c29p-1%float samplePool)).
  split; [vm_compute; reflexivity|].
  apply (stop_starts_no_batch_and_never_fails sourceKnobs (sampleWorld (Some (DuringChunk 0)))
           (floats [1%float; 0%float]) 0x1.c28f5c28f5c29p-1%float samplePool);
    [discriminate | discriminate | reflexivity | vm_compute; reflexivity].
Defined.

(** ** What a session publishes, whenever it is stopped *)

(** ** Every publication ranks a prefix of the pool *)

Section SortPermutation.
Context {N : JSNumber} {A : Type}.
Variable score : A -> num.

Lemma insertSorted_Permutation (x : A) (l : list A) :
  insertSorted score x l ≡ₚ x :: l.
Proof.
  induction l as [|y l IH]; cbn; [reflexivity|].
  destruct (ngt _ _); [reflexivity|].
  rewrite IH. apply Permutation_swap.
Qed.

Lemma sortByScore_Permutation (l : list A) : sortByScore score l ≡ₚ l.
Proof.
  unfold sortByScore.
  enough (H : forall acc, fold_left (fun acc x => insertSorted score x acc) l acc ≡ₚ acc ++ l)
    by (rewrite H; reflexivity).
  induction l as [|x l IH]; intros acc; cbn.
  - now rewrite app_nil_r.
  - rewrite IH, insertSorted_Permutation. apply Permutation_middle.
Qed.
End SortPermutation.

(** ** The threshold and the fallback *)

Section SortNumbers.
Context {N : JSNumber} {C : NumberCompareLaws N} {A : Type}.
Variable score : A -> num.

Lemma insertSorted_numbered (x : A) (l : list A) :
  numbered score x -> Forall (numbered score) l ->
  Forall (numbered score) (insertSorted score x l).
Proof.
  intros Hx Hl. rewrite Forall_forall in *. intros y Hy.
  apply insertSorted_In in Hy as [-> | Hy]; auto.
Qed.

Lemma insertSorted_sorted_numbered (x : A) (l : list A) :
  numbered score x -> Forall (numbered score) l ->
  StronglySorted (above score) l ->
  StronglySorted (above score) (insertSorted score x l).
Proof using C.
  intros Hx. induction l as [|y l IH]; intros Hl Hs; cbn.
  - repeat constructor.
  - apply list.Forall_cons in Hl as [Hy Hl]. apply StronglySorted_inv in Hs as [Hs Hall].
    unfold byScoreDesc. rewrite gt_difference.
    destruct (ngt (score x) (score y)) eqn:Hgt.
    + rewrite (gt_is_not_le _ _ Hx Hy) in Hgt. apply negb_true_iff in Hgt.
      pose proof (ge_or_le _ _ Hx Hy) as Hc. rewrite Hgt, orb_false_r in Hc.
      constructor; [now constructor|]. constructor; [exact Hc|].
      eapply List.Forall_impl; [|exact Hall]. intros z Hz.
      exact (ge_transitive _ _ _ Hc Hz).
    + rewrite (gt_is_not_le _ _ Hx Hy) in Hgt. apply negb_false_iff in Hgt.
      constructor; [now apply IH|].
      apply Forall_forall. intros z Hz. apply insertSorted_In in Hz as [-> | Hz].
      * exact Hgt.
      * rewrite Forall_forall in Hall. now apply Hall.
Qed.

(** When every score is a number, the sorted list is in descending order
    of score. *)
Lemma sortByScore_sorted_numbered (l : list A) :
  Forall (numbered score) l -> StronglySorted (above score) (sortByScore score l).
Proof using C.
  intros Hl. unfold sortByScore.
  enough (H : forall acc, Forall (numbered score) acc -> StronglySorted (above score) acc ->
            StronglySorted (above score) (fold_left (fun acc x => insertSorted score x acc) l acc))
    by (apply H; constructor).
  induction Hl as [|x l Hx Hl IH]; intros acc Hacc Hs; cbn; [assumption|].
  apply IH; [now apply insertSorted_numbered | now apply insertSorted_sorted_numbered].
Qed.

(** In a sorted list, what comes first is above what comes after. *)
Lemma StronglySorted_app_above (l1 l2 : list A) :
  StronglySorted (above score) (l1 ++ l2) ->
  StronglySorted (above score) l1 /\
  forall x y, In x l1 -> In y l2 -> above score x y.
Proof.
  induction l1 as [|z l1 IH]; cbn; intros Hs.
  - split; [constructor | intros x y []].
  - apply StronglySorted_inv in Hs as [Hs Hall]. destruct (IH Hs) as [Hs1 Hcross].
    apply Forall_app in Hall as [Hall1 Hall2]. split; [now constructor|].
    intros x y [<- | Hx] Hy; [|now apply Hcross].
    rewrite Forall_forall in Hall2. now apply Hall2.
Qed.
End SortNumbers.

Lemma filter_nothing {A : Type} (f : A -> bool) (l : list A) :
  (forall x, In x l -> f x = false) -> filter (fun x => f x = true) l = [].
Proof.
  induction l as [|y l IH]; intros H; [reflexivity|].
  rewrite filter_cons_False; [apply IH; intros x Hx; apply H; now right|].
  rewrite (H y); [discriminate | now left].
Qed.

(** C5 (as amended).  In the embedding variant the fallback is what the
    function always does, not a mode.  Whenever there are stored photos,
    each of them scores a number and none of them meets the threshold, the
    function still publishes photos, with a message of its own: the
    [shown] highest-scoring ones (all of them when there are fewer), in
    descending order of score, each photo left out scoring at most as much
    as each photo shown.  The numbers are those whose comparisons obey
    [NumberCompareLaws], as the exact reals with the infinities do.  In
    the face-api variant there is no fallback: every published entry
    meets the threshold. *)
Theorem fallback_by_variant (N : JSNumber) :
  (forall (C : NumberCompareLaws N) (q : list num) (threshold : num)
          (eventPhotos : list PhotoDoc),
     eventPhotos <> [] ->
     (forall p, In p eventPhotos ->
        nge (doc_score (scoreDoc q p)) (doc_score (scoreDoc q p)) = true /\
        nge (doc_score (scoreDoc q p)) threshold = false) ->
     exists top rest : list MatchDoc,
       runMatching_embedding (Some q) threshold eventPhotos =
         [SetMatchLoading true; SetMatches []; SetMatchMessage MsgEmbeddingSelfie;
          SetMatchMessage MsgMatching; SetMatches top;
          SetMatchMessage MsgClosest; SetMatchLoading false] /\
       top ++ rest ≡ₚ map (scoreDoc q) eventPhotos /\
       length top = min shown (length eventPhotos) /\
       top <> [] /\
       StronglySorted (above doc_score) top /\
       (forall m r, In m top -> In r rest -> nge (doc_score m) (doc_score r) = true)) /\
  (forall (cfg : knobs) (w : world) (threshold : num) (eventPhotos : list PhotoItem)
          (updates : list (event MatchItem)) (l : list MatchItem) (m : MatchItem),
     runMatching cfg w threshold eventPhotos = Some updates ->
     In (SetMatches l) updates -> In m l -> meets threshold m = true).
Proof.
  split.
  - intros C q threshold eventPhotos Hne Hscores.
    set (sorted := sortByScore doc_score (map (scoreDoc q) eventPhotos)).
    assert (Hperm : sorted ≡ₚ map (scoreDoc q) eventPhotos) by apply sortByScore_Permutation.
    assert (Hnum : Forall (numbered doc_score) (map (scoreDoc q) eventPhotos)).
    { apply Forall_forall. intros m Hm. apply in_map_iff in Hm as (p & <- & Hp).
      now apply Hscores. }
    assert (Hsorted : StronglySorted (above doc_score) (take shown sorted ++ drop shown sorted)).
    { rewrite take_drop. now apply sortByScore_sorted_numbered. }
    apply StronglySorted_app_above in Hsorted as [Htop Hcross].
    assert (Hnone : filter (fun x => nge (doc_score x) threshold = true) sorted = []).
    { apply (filter_nothing (fun x => nge (doc_score x) threshold)). intros m Hm.
      apply sortByScore_In, in_map_iff in Hm as (p & <- & Hp). now apply Hscores. }
    assert (Hlen : length (take shown sorted) = min shown (length eventPhotos)).
    { rewrite length_take, (Permutation_length Hperm), length_map. reflexivity. }
    exists (take shown sorted), (drop shown sorted).
    split; [|split; [|split; [|split; [|split]]]].
    + unfold runMatching_embedding.
      destruct eventPhotos as [|p rest]; [congruence|]. cbn [length Nat.eqb].
      fold sorted. rewrite Hnone. rewrite take_nil. cbn [length Nat.ltb Nat.leb].
      rewrite take_take. reflexivity.
    + now rewrite take_drop.
    + exact Hlen.
    + intros Hnil. rewrite Hnil in Hlen. destruct eventPhotos; [congruence | discriminate].
    + exact Htop.
    + exact Hcross.
  - intros cfg w threshold eventPhotos updates l m Hrun Hl Hm.
    now destruct (runMatching_published cfg w threshold eventPhotos updates l m Hrun Hl Hm)
      as (_ & _ & _ & Hmeets).
Qed.

(** The scores of the three stored photos against the selfie [[1, 0]]. *)
Lemma exactDocs_scores :
  map (fun p => doc_score (scoreDoc (reals [1%R; 0%R]) p)) exactDocs = [XR 0; XR (-1); XR 0].
Proof.
  cbn. unfold Rsign_neg.
  replace (0 + 1 * 1 + 0 * 0)%R with 1%R by lra.
  replace (0 + 0 * 0 + 1 * 1)%R with 1%R by lra.
  replace (0 + -1 * -1 + 0 * 0)%R with 1%R by lra.
  destruct (Rlt_dec 1 0); [lra|]. cbn. rewrite sqrt_1. unfold Ris_zero.
  destruct (Req_dec_T (1 * 1) 0); [lra|]. cbn.
  repeat f_equal; field.
Qed.

Lemma exactDocs_scored (p : @PhotoDoc Exact) :
  In p exactDocs ->
  doc_score (scoreDoc (reals [1%R; 0%R]) p) = XR 0 \/
  doc_score (scoreDoc (reals [1%R; 0%R]) p) = XR (-1).
Proof.
  pose proof exactDocs_scores as Hs. unfold exactDocs in *. cbn [map] in Hs.
  injection Hs as H1 H2 H3.
  intros [<- | [<- | [<- | []]]]; [left; exact H1 | right; exact H2 | left; exact H3].
Qed.

Lemma fallback_by_variant_witness :
  (exists top rest : list (@MatchDoc Exact),
     runMatching_embedding (Some (reals [1%R; 0%R])) (XR (55 / 100)) exactDocs =
       [SetMatchLoading true; SetMatches []; SetMatchMessage MsgEmbeddingSelfie;
        SetMatchMessage MsgMatching; SetMatches top;
        SetMatchMessage MsgClosest; SetMatchLoading false] /\
     top ++ rest ≡ₚ map (scoreDoc (reals [1%R; 0%R])) exactDocs /\
     length top = 3 /\ top <> [] /\
     StronglySorted (above doc_score) top /\
     (forall m r, In m top -> In r rest -> nge (doc_score m) (doc_score r) = true)) /\
  meets (N:=Float64) 0x1.c28f5c28f5c29p-1%float
    {| item := photo "a"; score := (0x1.ffffffff2419p-1%float : @num Float64) |} = true.
Proof.
  split.
  - apply (proj1 (fallback_by_variant Exact) Exact_compare_laws
             (reals [1%R; 0%R]) (XR (55 / 100)) exactDocs); [discriminate|].
    intros p Hp. destruct (exactDocs_scored p Hp) as [-> | ->]; cbn; xreal_cases.
  - apply (proj2 (fallback_by_variant Float64) sourceKnobs (sampleWorld None)
             0x1.c28f5c28f5c29p-1%float samplePool
             [SetMatchLoading true; SetMatches []; SetProgress 0 3;
              SetMatchMessage MsgPreparing; SetMatchMessage MsgAnalyzingSelfie;
              SetMatchMessage (MsgScanning 1 3 3); SetProgress 2 3; SetProgress 3 3;
              SetMatches [{| item := photo "a"; score := (0x1.ffffffff2419p-1%float : @num Float64) |}];
              SetMatchMessage (MsgFound 1);
              SetMatches [{| item := photo "a"; score := (0x1.ffffffff2419p-1%float : @num Float64) |}];
              SetMatchMessage (MsgDone 1); SetMatchLoading false]
             [{| item := photo "a"; score := (0x1.ffffffff2419p-1%float : @num Float64) |}]).
    + vm_compute. reflexivity.
    + cbn. tauto.
    + now left.
Defined.

(** C5, counterexample.  The embedding variant, called as it always is,
    with a threshold of 0.55 and one stored photo whose similarity to the
    selfie is 0: the photo is published. *)
Lemma embedding_variant_falls_back_by_default :
  nge (doc_score (scoreDoc (floats [1%float; 0%float]) sampleDoc)) 0x1.199999999999ap-1%float = false /\
  runMatching_embedding (Some (floats [1%float; 0%float])) 0x1.199999999999ap-1%float [sampleDoc] =
    [SetMatchLoading true; SetMatches []; SetMatchMessage MsgEmbeddingSelfie;
     SetMatchMessage MsgMatching;
     SetMatches [{| doc_id := "d1"; doc_path := "events/e/photos/d1.jpg";
                    doc_url := "https://photos/d1"; doc_score := (0%float : @num Float64) |}];
     SetMatchMessage MsgClosest; SetMatchLoading false].
Proof. split; vm_compute; reflexivity. Qed.


Section PrefixRanking.
Context {N : JSNumber} {L : NumberOrderLaws N}.
Variables (cfg : knobs) (w : world) (selfieDesc : descriptor).

(** Whether or not the user stops it, the [while] loop adds the scored
    photos of the chunks it got through, and it publishes no list. *)
Lemma whileChunks_scoredPrefix (batch : list PhotoItem) (start total fuel : nat) (s s' : session) :
  whileChunks fuel cfg w selfieDesc batch start total 0 s = Some s' ->
  exists i, scoredAll s' = scoredAll s ++ scoredOf w selfieDesc false (take i batch) /\
    (abortRef s' = false -> length batch <= i) /\
    matchesOf (log s') = matchesOf (log s).
Proof.
  intros Hrun.
  destruct (whileChunks_invariant cfg w selfieDesc
              (fun i s0 => scoredAll s0 = scoredAll s ++ scoredOf w selfieDesc false (take i batch) /\
                           matchesOf (log s0) = matchesOf (log s))
              batch start total)
    with (fuel := fuel) (i := 0) (s := s) (s' := s') as (i' & (Hsc & Hlog) & Hend).
  - intros i s0 Hi Hab0 (Hsc0 & Hlog0). unfold stepChunk.
    set (chunk := take (CONCURRENCY cfg) (drop i batch)).
    destruct (log_mergeChunk w selfieDesc chunk s0) as (evs & Hlog1 & Hevs).
    split.
    + unfold mergeChunk. cbn. rewrite Hsc0, Hab0, <- app_assoc, <- scoredOf_app.
      unfold chunk. now rewrite take_take_drop.
    + cbn [emit log]. rewrite Hlog1, <- app_assoc, matchesOf_app_quiet; [exact Hlog0|].
      apply Forall_app. split; [now apply byAbortScan_noMatches | repeat constructor].
  - split; [|reflexivity]. cbn. unfold scoredOf. cbn. now rewrite app_nil_r.
  - assumption.
  - exists i'. split; [assumption|]. split; [|assumption].
    intros Hab. destruct Hend as [Hend | Hend]; [assumption | congruence].
Qed.

(** A list that is sorted stays as it is when it is filtered and sorted
    again: what [publishBatch] shows is the filtered [keepTop]. *)
Lemma sortByScore_filter_sorted (threshold : num) (l : list MatchItem) :
  Forall (acceptable score) l -> StronglySorted (above score) l ->
  sortByScore score (filter (fun x => meets threshold x = true) l) =
  filter (fun x => meets threshold x = true) l.
Proof using L.
  intros Hl Hs. apply sortByScore_id.
  - now apply Forall_filter_keep.
  - eapply StronglySorted_sublist; [apply sublist_filter | exact Hs].
Qed.

Lemma keepTop_prefix (k : nat) (pre chunk : list PhotoItem) :
  keepTop cfg (take (TOP_KEEP cfg) (sortByScore score (scoredOf w selfieDesc false pre)) ++
               scoredOf w selfieDesc false chunk) =
  take (TOP_KEEP cfg) (sortByScore score (scoredOf w selfieDesc false (pre ++ chunk))).
Proof using L.
  unfold keepTop. rewrite keepTop_incremental by apply scoredOf_acceptable.
  now rewrite <- scoredOf_app.
Qed.

Lemma take_sorted_scored (pre : list PhotoItem) :
  Forall (acceptable score) (take (TOP_KEEP cfg) (sortByScore score (scoredOf w selfieDesc false pre))) /\
  StronglySorted (above score) (take (TOP_KEEP cfg) (sortByScore score (scoredOf w selfieDesc false pre))).
Proof using L.
  split.
  - apply Forall_take, sortByScore_acceptable, scoredOf_acceptable.
  - eapply StronglySorted_sublist; [apply sublist_take|].
    apply sortByScore_sorted, scoredOf_acceptable.
Qed.

(** The [for] loop: [scoredAll] is the kept top of a prefix of the pool,
    the whole part before [start] while the run is not stopped, and every
    list published so far ranks a prefix. *)
Lemma forBatches_prefix (threshold : num) (pool : list PhotoItem) (fuel : nat)
    (s s' : session) :
  scoredAll s = [] ->
  Forall (fun l => exists n, l = ranking cfg w selfieDesc threshold (take n pool))
    (matchesOf (log s)) ->
  forBatches fuel cfg w selfieDesc threshold pool 0 s = Some s' ->
  (exists n, scoredAll s' =
     take (TOP_KEEP cfg) (sortByScore score (scoredOf w selfieDesc false (take n pool))) /\
     (abortRef s' = false -> take n pool = pool)) /\
  Forall (fun l => exists n, l = ranking cfg w selfieDesc threshold (take n pool))
    (matchesOf (log s')).
Proof using L.
  intros Hsc Hlog Hrun.
  destruct (forBatches_invariant cfg w selfieDesc
              (fun start s0 =>
                 (exists n, scoredAll s0 =
                    take (TOP_KEEP cfg) (sortByScore score (scoredOf w selfieDesc false (take n pool))) /\
                    (abortRef s0 = false -> take n pool = take start pool)) /\
                 Forall (fun l => exists n, l = ranking cfg w selfieDesc threshold (take n pool))
                   (matchesOf (log s0)))
              threshold pool)
    with (fuel := fuel) (start := 0) (s := s) (s' := s') as (start' & ((n & Hsc' & Hn) & Hlog') & Hend).
  - intros start s0 s1 Hstart Hab0 ((n & Hsc0 & Hn0) & Hlog0) Hw.
    apply whileChunks_scoredPrefix in Hw as (i & Hsc1 & Hi & Hlog1).
    cbn [emit scoredAll log] in Hsc1, Hlog1.
    rewrite matchesOf_app_quiet in Hlog1 by repeat constructor.
    rewrite Hsc0, (Hn0 Hab0) in Hsc1.
    assert (Hpre : exists n', take start pool ++ take i (batchAt cfg pool start) = take n' pool /\
                     (length (batchAt cfg pool start) <= i ->
                      take n' pool = take (start + scanBatchSize cfg) pool)).
    { unfold batchAt. rewrite take_take, take_take_drop. eexists. split; [reflexivity|].
      rewrite length_take, length_drop. intros Hle.
      destruct (Nat.le_gt_cases (start + scanBatchSize cfg) (length pool)) as [Hp | Hp].
      - f_equal. lia.
      - rewrite !take_ge by lia. reflexivity. }
    destruct Hpre as (n' & Hpre & Hfull).
    assert (Hkept : keepTop cfg (scoredAll s1) =
              take (TOP_KEEP cfg) (sortByScore score (scoredOf w selfieDesc false (take n' pool)))).
    { rewrite Hsc1, (keepTop_prefix 0), Hpre. reflexivity. }
    destruct (log_publishBatch cfg threshold s1) as (msg & _ & Hlogp).
    split.
    + exists n'. split.
      * unfold publishBatch. fold (publishedTop cfg threshold s1).
        destruct (0 <? length (publishedTop cfg threshold s1)); cbn; exact Hkept.
      * intros Hab. apply Hfull, Hi.
        unfold publishBatch in Hab. fold (publishedTop cfg threshold s1) in Hab.
        destruct (0 <? length (publishedTop cfg threshold s1)); exact Hab.
    + rewrite Hlogp. unfold matchesOf. rewrite omap_app. cbn.
      apply Forall_app. split; [rewrite <- Hlog1 in Hlog0; exact Hlog0|].
      constructor; [|constructor]. exists n'.
      unfold publishedTop. rewrite Hkept.
      destruct (take_sorted_scored (take n' pool)) as [Hacc Hsorted].
      rewrite sortByScore_filter_sorted by assumption. reflexivity.
  - split; [|assumption]. exists 0. rewrite Hsc. split; [|reflexivity].
    rewrite take_0. cbn. now rewrite take_nil.
  - assumption.
  - split; [|assumption]. exists n. split; [assumption|].
    intros Hab. rewrite (Hn Hab).
    destruct Hend as [Hend | Hend]; [|congruence]. now apply take_ge.
Qed.

(** The lists the scan publishes, the final one included. *)
Lemma scan_prefix (threshold : num) (pool : list PhotoItem) (s s3 : session) :
  scoredAll s = [] ->
  Forall (fun l => exists n, l = ranking cfg w selfieDesc threshold (take n pool))
    (matchesOf (log s)) ->
  scan cfg w selfieDesc threshold pool s = Some s3 ->
  Forall (fun l => exists n, l = ranking cfg w selfieDesc threshold (take n pool))
    (matchesOf (finally_ s3)).
Proof using L.
  intros Hsc Hlog. unfold scan.
  destruct (forBatches _ _ _ _ _ _ _ _) as [s1|] eqn:Hfor; [|discriminate].
  intros [= <-].
  apply forBatches_prefix in Hfor as ((n & Hsc1 & Hn) & Hlog1); [|assumption|assumption].
  unfold finally_. cbn [emit log]. rewrite matchesOf_app_quiet by repeat constructor.
  destruct (log_finalPublish threshold s1) as [-> | (msg & _ & Hab & ->)]; [assumption|].
  unfold matchesOf. rewrite omap_app. cbn.
  apply Forall_app. split; [assumption|]. constructor; [|constructor].
  exists n. rewrite Hsc1.
  destruct (take_sorted_scored (take n pool)) as [Hacc Hsorted].
  rewrite sortByScore_id by assumption. reflexivity.
Qed.

Lemma ranking_nil (threshold : num) : ranking cfg w selfieDesc threshold [] = [].
Proof. unfold ranking. cbn. now rewrite take_nil, filter_nil, take_nil. Qed.

(** A ranking shows at most [shown] photos, and none of them twice when
    the pool lists none twice. *)
Lemma ranking_length (threshold : num) (pool : list PhotoItem) :
  length (ranking cfg w selfieDesc threshold pool) <= shown.
Proof. unfold ranking. rewrite length_take. lia. Qed.

Lemma ranking_NoDup (threshold : num) (pool : list PhotoItem) :
  List.NoDup pool -> List.NoDup (map item (ranking cfg w selfieDesc threshold pool)).
Proof.
  intros Hnd. apply NoDup_ListNoDup. apply NoDup_ListNoDup in Hnd.
  assert (Hs : map item (ranking cfg w selfieDesc threshold pool) `sublist_of`
               map item (sortByScore score (scoredOf w selfieDesc false pool))).
  { apply sublist_map. unfold ranking.
    etransitivity; [apply sublist_take|]. etransitivity; [apply sublist_filter|].
    apply sublist_take. }
  eapply sublist_NoDup; [|exact Hs].
  rewrite (sortByScore_Permutation score).
  eapply sublist_NoDup; [exact Hnd | apply (scoredOf_items w selfieDesc false pool)].
Qed.
End PrefixRanking.

Section RunLists.
Context {N : JSNumber} {L : NumberOrderLaws N}.
Variables (cfg : knobs) (w : world).

(** What holds of the empty list and of every ranking of a prefix of the
    pool holds of every list a run publishes. *)
Lemma runMatching_lists (P : list MatchItem -> Prop) (threshold : num)
    (eventPhotos : list PhotoItem) (updates : list (event MatchItem)) (l : list MatchItem) :
  P [] ->
  (forall selfieDesc n, selfie w = SelfieFace selfieDesc -> n <= scanMax cfg ->
     P (ranking cfg w selfieDesc threshold (take n eventPhotos))) ->
  runMatching cfg w threshold eventPhotos = Some updates ->
  In (SetMatches l) updates -> P l.
Proof using L.
  intros Hnil Hrank Hrun Hl. apply matchesOf_In in Hl. revert Hrun.
  unfold runMatching. set (total := min (scanMax cfg) (length eventPhotos)).
  destruct (length eventPhotos =? 0).
  { intros [= <-]. cbn in Hl. contradiction. }
  destruct (scoredAll_prepared cfg w eventPhotos) as [Hsc Hmo].
  pose proof (matchesOf_withModels cfg w eventPhotos) as Hmod.
  assert (Hshort : forall (s : session) evs,
            matchesOf (log s) = [[]] -> Forall noMatches evs ->
            In l (matchesOf (log s ++ evs)) -> P l).
  { intros s evs Hs Hq Hin. rewrite matchesOf_app_quiet, Hs in Hin by assumption.
    destruct Hin as [<- | []]. exact Hnil. }
  destruct (models w), (selfie w) as [| |selfieDesc] eqn:Hselfie;
    try (intros [= <-]; revert Hl; unfold catch_, finally_; cbn [emit log];
         rewrite <- ?app_assoc;
         first [ apply (Hshort (prepared cfg w eventPhotos)); [exact Hmo | repeat constructor]
               | apply (Hshort (withModels w (started cfg eventPhotos)));
                 [exact Hmod | repeat constructor] ]).
  all: destruct (scan _ _ _ _ _ _) as [s3|] eqn:Hscan; [|discriminate];
    intros [= <-];
    apply scan_prefix in Hscan;
      [|exact Hsc
       |rewrite Hmo; constructor; [|constructor]; exists 0;
        rewrite take_0; symmetry; apply ranking_nil];
    rewrite Forall_forall in Hscan; destruct (Hscan l Hl) as (n & ->);
    unfold total; rewrite take_take;
    apply Hrank; [reflexivity | lia].
Qed.
End RunLists.

(** X2.  Every list of matches a session publishes, at the end of a batch or at
    the end of the scan, stopped or not, is the ranking of the photos
    scanned so far: the first [n] photos of the event for some [n] within
    [scanMax], scored, sorted by score, cut to [TOP_KEEP], filtered by the
    threshold and cut to eight.  It is in descending order of score. *)
Theorem publications_rank_the_scanned_photos (N : JSNumber) (L : NumberOrderLaws N)
    (cfg : knobs) (w : world) (threshold : num) (eventPhotos : list PhotoItem) :
  0 < scanBatchSize cfg -> 0 < CONCURRENCY cfg ->
  exists updates, runMatching cfg w threshold eventPhotos = Some updates /\
    forall l, In (SetMatches l) updates ->
      l = [] \/
      exists selfieDesc n, selfie w = SelfieFace selfieDesc /\ n <= scanMax cfg /\
        l = ranking cfg w selfieDesc threshold (take n eventPhotos) /\
        StronglySorted (above score) l.
Proof.
  intros HB HC.
  destruct (runMatching_returns cfg w threshold eventPhotos HB HC) as [updates Hrun].
  exists updates. split; [exact Hrun|]. intros l Hl.
  apply (runMatching_lists cfg w
           (fun l => l = [] \/
              exists selfieDesc n, selfie w = SelfieFace selfieDesc /\ n <= scanMax cfg /\
                l = ranking cfg w selfieDesc threshold (take n eventPhotos) /\
                StronglySorted (above score) l)
           threshold eventPhotos updates l); [now left | | exact Hrun | exact Hl].
  intros selfieDesc n Hselfie Hn. right. exists selfieDesc, n.
  split; [assumption|]. split; [assumption|]. split; [reflexivity|].
  apply ranking_sorted.
Qed.

Lemma publications_rank_the_scanned_photos_witness :
  exists updates, runMatching sourceKnobs exactWorld (XR (88 / 100)) samplePool = Some updates /\
    forall l, In (SetMatches l) updates ->
      l = [] \/
      exists selfieDesc n, selfie exactWorld = SelfieFace selfieDesc /\ n <= scanMax sourceKnobs /\
        l = ranking sourceKnobs exactWorld selfieDesc (XR (88 / 100)) (take n samplePool) /\
        StronglySorted (above score) l.
Proof.
  apply (publications_rank_the_scanned_photos Exact Exact_order_laws sourceKnobs exactWorld
           (XR (88 / 100)) samplePool); cbn; lia.
Defined.

(** X3.  A session never shows more than eight matches at a time, and never the
    same photo twice in one list when the event lists no photo twice. *)
Theorem publications_show_each_photo_once (N : JSNumber) (L : NumberOrderLaws N)
    (cfg : knobs) (w : world) (threshold : num) (eventPhotos : list PhotoItem) :
  0 < scanBatchSize cfg -> 0 < CONCURRENCY cfg -> List.NoDup eventPhotos ->
  exists updates, runMatching cfg w threshold eventPhotos = Some updates /\
    forall l, In (SetMatches l) updates ->
      length l <= 8 /\ List.NoDup (map item l).
Proof.
  intros HB HC Hnd.
  destruct (runMatching_returns cfg w threshold eventPhotos HB HC) as [updates Hrun].
  exists updates. split; [exact Hrun|]. intros l Hl.
  apply (runMatching_lists cfg w (fun l => length l <= 8 /\ List.NoDup (map item l))
           threshold eventPhotos updates l); [| | exact Hrun | exact Hl].
  - split; [cbn; lia | constructor].
  - intros selfieDesc n _ _. split; [apply ranking_length|].
    apply ranking_NoDup. apply NoDup_ListNoDup.
    eapply sublist_NoDup; [apply NoDup_ListNoDup, Hnd | apply sublist_take].
Qed.

Lemma publications_show_each_photo_once_witness :
  exists updates, runMatching sourceKnobs exactWorld (XR (88 / 100)) samplePool = Some updates /\
    forall l, In (SetMatches l) updates ->
      length l <= 8 /\ List.NoDup (map item l).
Proof.
  apply (publications_show_each_photo_once Exact Exact_order_laws sourceKnobs exactWorld
           (XR (88 / 100)) samplePool); [cbn; lia | cbn; lia |].
  constructor; [cbn; intros [H | [H | []]]; discriminate|].
  constructor; [cbn; intros [H | []]; discriminate|].
  constructor; [cbn; intros []|]. constructor.
Defined.

(** ** The loading flag *)

Section LoadingFlag.
Context {N : JSNumber}.
Variables (cfg : knobs) (w : world) (selfieDesc : descriptor).

Lemma byAbortScan_not_loading (evs : list (event MatchItem)) :
  Forall byAbortScan evs -> Forall (fun e => e <> SetMatchLoading true) evs.
Proof.
  apply List.Forall_impl. intros e He ->. exact He.
Qed.

Lemma whileChunks_log (batch : list PhotoItem) (start total fuel : nat) (s s' : session) :
  whileChunks fuel cfg w selfieDesc batch start total 0 s = Some s' ->
  exists evs, log s' = log s ++ evs /\ Forall (fun e => e <> SetMatchLoading true) evs.
Proof.
  intros Hrun.
  destruct (whileChunks_invariant cfg w selfieDesc
              (fun _ s0 => exists evs, log s0 = log s ++ evs /\
                                       Forall (fun e => e <> SetMatchLoading true) evs)
              batch start total)
    with (fuel := fuel) (i := 0) (s := s) (s' := s') as (i' & H & _); [| |exact Hrun|exact H].
  - intros i s0 _ _ (evs & Hlog & Hevs). unfold stepChunk.
    destruct (log_mergeChunk w selfieDesc (take (CONCURRENCY cfg) (drop i batch)) s0)
      as (evs1 & Hlog1 & Hevs1).
    eexists. cbn [emit log]. rewrite Hlog1, Hlog, <- !app_assoc. split; [reflexivity|].
    apply Forall_app. split; [assumption|]. apply Forall_app. split.
    + now apply byAbortScan_not_loading.
    + repeat constructor. discriminate.
  - exists []. rewrite app_nil_r. split; [reflexivity | constructor].
Qed.

Lemma forBatches_log (threshold : num) (pool : list PhotoItem) (fuel : nat) (s s' : session) :
  forBatches fuel cfg w selfieDesc threshold pool 0 s = Some s' ->
  exists evs, log s' = log s ++ evs /\ Forall (fun e => e <> SetMatchLoading true) evs.
Proof.
  intros Hrun.
  destruct (forBatches_invariant cfg w selfieDesc
              (fun _ s0 => exists evs, log s0 = log s ++ evs /\
                                       Forall (fun e => e <> SetMatchLoading true) evs)
              threshold pool)
    with (fuel := fuel) (start := 0) (s := s) (s' := s') as (start' & H & _);
    [| |exact Hrun|exact H].
  - intros start s0 s1 _ _ (evs & Hlog & Hevs) Hw.
    apply whileChunks_log in Hw as (evs1 & Hlog1 & Hevs1).
    destruct (log_publishBatch cfg threshold s1) as (msg & _ & Hlogp).
    eexists. rewrite Hlogp, Hlog1. cbn [emit log]. rewrite Hlog, <- !app_assoc.
    split; [reflexivity|].
    apply Forall_app. split; [assumption|]. constructor; [discriminate|].
    apply Forall_app. split; [assumption|]. repeat constructor; discriminate.
  - exists []. rewrite app_nil_r. split; [reflexivity | constructor].
Qed.

End LoadingFlag.

Section LoadingFlagOfRun.
Context {N : JSNumber}.
Variables (cfg : knobs) (w : world).

(** The updates of a run on a non-empty event: the four of the start,
    then updates that never switch the loading flag on, then the
    [finally] block. *)
Lemma runMatching_frame (threshold : num) (eventPhotos : list PhotoItem)
    (updates : list (event MatchItem)) :
  eventPhotos <> [] ->
  runMatching cfg w threshold eventPhotos = Some updates ->
  exists evs, updates = log (started cfg eventPhotos) ++ evs ++ [SetMatchLoading false] /\
    Forall (fun e => e <> SetMatchLoading true) evs.
Proof.
  intros Hne. unfold runMatching.
  destruct (length eventPhotos =? 0) eqn:Hlen.
  { apply Nat.eqb_eq in Hlen. destruct eventPhotos; [congruence | discriminate]. }
  destruct (log_withModels w (started cfg eventPhotos)) as (evm & Hlogm & Hevm).
  assert (Hevm' : Forall (fun e : event MatchItem => e <> SetMatchLoading true) evm).
  { eapply List.Forall_impl; [|exact Hevm]. intros e ->. discriminate. }
  destruct (log_prepared cfg w eventPhotos) as (evp & Hlogp & Hevp).
  assert (Hevp' : Forall (fun e : event MatchItem => e <> SetMatchLoading true) evp).
  { eapply List.Forall_impl; [|exact Hevp].
    intros e [-> | [-> | He]]; [discriminate | discriminate |]. intros ->. exact He. }
  assert (Hfin : forall (s : session) evs,
            log s = log (started cfg eventPhotos) ++ evs ->
            Forall (fun e : event MatchItem => e <> SetMatchLoading true) evs ->
            exists evs', finally_ s = log (started cfg eventPhotos) ++ evs' ++ [SetMatchLoading false] /\
              Forall (fun e : event MatchItem => e <> SetMatchLoading true) evs').
  { intros s evs Hs Hevs. exists evs. unfold finally_. cbn [emit log].
    rewrite Hs, <- app_assoc. split; [reflexivity | assumption]. }
  assert (Hemit : forall (s : session) evs e,
            log s = log (started cfg eventPhotos) ++ evs ->
            Forall (fun e : event MatchItem => e <> SetMatchLoading true) evs ->
            e <> SetMatchLoading true ->
            log (emit e s) = log (started cfg eventPhotos) ++ (evs ++ [e]) /\
            Forall (fun e : event MatchItem => e <> SetMatchLoading true) (evs ++ [e])).
  { intros s evs e Hs Hevs He. cbn [emit log]. rewrite Hs, <- app_assoc.
    split; [reflexivity|]. apply Forall_app. split; [assumption | now repeat constructor]. }
  assert (Hcatch : forall (s : session) evs,
            log s = log (started cfg eventPhotos) ++ evs ->
            Forall (fun e : event MatchItem => e <> SetMatchLoading true) evs ->
            exists evs', catch_ s = log (started cfg eventPhotos) ++ evs' ++ [SetMatchLoading false] /\
              Forall (fun e : event MatchItem => e <> SetMatchLoading true) evs').
  { intros s evs Hs Hevs. unfold catch_.
    destruct (Hemit s evs (SetMatchMessage MsgFailed) Hs Hevs) as [Hs' Hevs']; [discriminate|].
    exact (Hfin _ _ Hs' Hevs'). }
  assert (Hscan : forall sd,
            match scan cfg w sd threshold
                    (take (min (scanMax cfg) (length eventPhotos)) eventPhotos)
                    (prepared cfg w eventPhotos) with
            | Some s3 => Some (finally_ s3)
            | None => None
            end = Some updates ->
            exists evs, updates = log (started cfg eventPhotos) ++ evs ++ [SetMatchLoading false] /\
              Forall (fun e : event MatchItem => e <> SetMatchLoading true) evs).
  { intros sd. unfold scan.
    destruct (forBatches _ _ _ _ _ _ _ _) as [s1|] eqn:Hfor; [|discriminate].
    intros [= <-]. apply forBatches_log in Hfor as (evs & Hlog & Hevs).
    assert (Hs1 : log s1 = log (started cfg eventPhotos) ++ (evp ++ evs))
      by (rewrite Hlog, Hlogp, <- app_assoc; reflexivity).
    assert (Hall : Forall (fun e : event MatchItem => e <> SetMatchLoading true) (evp ++ evs))
      by (apply Forall_app; now split).
    destruct (log_finalPublish threshold s1) as [Hf | (msg & _ & _ & Hf)].
    - apply (Hfin _ (evp ++ evs)); [now rewrite Hf | assumption].
    - apply (Hfin _ ((evp ++ evs) ++ [SetMatches (take shown (filter (fun x => meets threshold x = true)
                                          (sortByScore score (scoredAll s1))));
                SetMatchMessage msg])).
      + rewrite Hf, Hs1, <- !app_assoc. reflexivity.
      + apply Forall_app. split; [assumption | repeat constructor; discriminate]. }
  destruct (models w) eqn:Hmodels, (selfie w) as [| |sd]; try (intros [= <-]).
  - now apply (Hcatch _ evp).
  - destruct (Hemit _ evp (SetMatchMessage MsgSelfieNoFace) Hlogp Hevp') as [Hs' Hevs']; [discriminate|].
    exact (Hfin _ _ Hs' Hevs').
  - apply Hscan.
  - now apply (Hcatch _ evp).
  - destruct (Hemit _ evp (SetMatchMessage MsgSelfieNoFace) Hlogp Hevp') as [Hs' Hevs']; [discriminate|].
    exact (Hfin _ _ Hs' Hevs').
  - apply Hscan.
  - now apply (Hcatch _ evm).
  - now apply (Hcatch _ evm).
  - now apply (Hcatch _ evm).
Qed.
End LoadingFlagOfRun.

(** X4.  A run on a non-empty event switches the loading flag on with its first
    update, never again after that, and switches it off with its last
    update, whether the run completes, finds no face in the selfie, fails
    or is stopped.  On an empty event the run only publishes its message and
    leaves the flag alone. *)
Theorem loading_flag_is_set_first_and_cleared_last (N : JSNumber)
    (cfg : knobs) (w : world) (threshold : num) (eventPhotos : list PhotoItem) :
  0 < scanBatchSize cfg -> 0 < CONCURRENCY cfg ->
  exists updates, runMatching cfg w threshold eventPhotos = Some updates /\
    (eventPhotos = [] -> updates = [SetMatchMessage MsgNoPhotos]) /\
    (eventPhotos <> [] ->
       head updates = Some (SetMatchLoading true) /\
       ~ In (SetMatchLoading true) (tail updates) /\
       list.last updates = Some (SetMatchLoading false)).
Proof.
  intros HB HC.
  destruct (runMatching_returns cfg w threshold eventPhotos HB HC) as [updates Hrun].
  exists updates. split; [exact Hrun|]. split.
  - intros ->. cbn in Hrun. now injection Hrun as <-.
  - intros Hne.
    destruct (runMatching_frame cfg w threshold eventPhotos updates Hne Hrun) as (evs & -> & Hevs).
    split; [reflexivity|]. split.
    + cbn. intros [H | [H | [H | H]]]; try discriminate.
      apply in_app_or in H as [H | [H | []]]; [|discriminate].
      rewrite Forall_forall in Hevs. now apply (Hevs _ H).
    + rewrite app_assoc. apply list.last_snoc.
Qed.

Lemma loading_flag_is_set_first_and_cleared_last_witness :
  exists updates,
    runMatching sourceKnobs (sampleWorld (Some (DuringChunk 0))) 0x1.c28f5c28f5c29p-1%float samplePool
      = Some updates /\
    (samplePool = [] -> updates = [SetMatchMessage MsgNoPhotos]) /\
    (samplePool <> [] ->
       head updates = Some (SetMatchLoading true) /\
       ~ In (SetMatchLoading true) (tail updates) /\
       list.last updates = Some (SetMatchLoading false)).
Proof.
  apply (loading_flag_is_set_first_and_cleared_last Float64 sourceKnobs
           (sampleWorld (Some (DuringChunk 0))) 0x1.c28f5c28f5c29p-1%float samplePool); cbn; lia.
Defined.

(** ** More on the similarity *)

#[export] Instance Float64_mul_comm : NumberMulComm Float64.
Proof.
  split. intros x y. cbn. apply Prim2SF_inj. rewrite !mul_spec. unfold SF64mul, SFmul.
  destruct (Prim2SF x) as [sx|sx| |sx mx ex], (Prim2SF y) as [sy|sy| |sy my ey];
    rewrite ?(xorb_comm sx sy); try reflexivity.
  now rewrite Pos.mul_comm, Z.add_comm.
Qed.

#[export] Instance Exact_mul_comm : NumberMulComm Exact.
Proof.
  split. intros [a| |s] [b| |t]; cbn; try reflexivity.
  - now rewrite Rmult_comm.
  - now rewrite xorb_comm.
Qed.

Lemma SFcompare_refl (x : spec_float) : x <> S754_nan -> SFcompare x x = Some Eq.
Proof.
  destruct x as [s|s| |s m e]; cbn; intros H; try congruence.
  - now destruct s.
  - rewrite Z.compare_refl, Pos.compare_cont_refl. now destruct s.
Qed.

#[export] Instance Float64_nan_laws : NumberNaNLaws Float64.
Proof.
  split.
  - intros x y. cbn. rewrite ltb_spec, leb_spec. unfold SFltb, SFleb.
    intros H. rewrite SFcompare_refl; [reflexivity|].
    intros Hx. rewrite Hx in H. destruct (Prim2SF y); discriminate.
  - reflexivity.
Qed.

#[export] Instance Exact_nan_laws : NumberNaNLaws Exact.
Proof.
  split.
  - intros [a| |s] [b| |t]; cbn; try discriminate; intros _; xreal_cases;
      destruct s; reflexivity.
  - cbn. xreal_cases.
Qed.

(** ** Symmetry *)

Section Symmetry.
Context {N : JSNumber} {C : NumberMulComm N}.

Lemma accumulate_swap (a b : list num) : forall dot na nb,
  accumulate b a dot nb na =
  match accumulate a b dot na nb with
  | Some (d, p, q) => Some (d, q, p)
  | None => None
  end.
Proof using C.
  revert b. induction a as [|x a IH]; intros [|y b] dot na nb; cbn; try reflexivity.
  rewrite (orb_comm (negb (isFinite y))).
  destruct (negb (isFinite x) || negb (isFinite y)); [reflexivity|].
  rewrite (nmul_comm y x). apply IH.
Qed.
End Symmetry.

(** X5.  [cosineSimilarity] of [lib/similarity.ts] does not depend on the order
    of its two arguments, whatever they are, in any arithmetic whose
    multiplication commutes; IEEE binary64 is one. *)
Theorem cosineSimilarity_symmetric (N : JSNumber) (C : NumberMulComm N)
    (ToNumber : jsval -> num) (aRaw bRaw : jsval) :
  cosineSimilarity ToNumber aRaw bRaw = cosineSimilarity ToNumber bRaw aRaw.
Proof.
  unfold cosineSimilarity.
  destruct (asArray aRaw) as [aItems|], (asArray bRaw) as [bItems|]; try reflexivity.
  set (a := map ToNumber aItems). set (b := map ToNumber bItems).
  rewrite (orb_comm (length b =? 0)), (Nat.eqb_sym (length b) (length a)).
  destruct ((length a =? 0) || (length b =? 0)); [reflexivity|].
  destruct (negb (length a =? length b)); [reflexivity|].
  rewrite (accumulate_swap a b).
  destruct (accumulate a b nzero nzero nzero) as [[[dot na] nb]|]; [|reflexivity].
  now rewrite (nmul_comm (nsqrt nb)).
Qed.

Lemma cosineSimilarity_symmetric_witness :
  cosineSimilarity numberOf (JArray (map jnum [1; 2; 3]%float)) (JArray (map jnum [3; 1; 2]%float)) =
  cosineSimilarity numberOf (JArray (map jnum [3; 1; 2]%float)) (JArray (map jnum [1; 2; 3]%float)).
Proof.
  exact (cosineSimilarity_symmetric Float64 Float64_mul_comm numberOf
           (JArray (map jnum [1; 2; 3]%float)) (JArray (map jnum [3; 1; 2]%float))).
Defined.

(** ** Agreement of the embedding variant with the library function *)

Section Agreement.
Context {N : JSNumber}.

Lemma sums_folds (a b : list num) : forall dot na nb,
  length a = length b ->
  sums a b dot na nb =
    (fold_left (fun acc xy => nadd acc (nmul (fst xy) (snd xy))) (combine a b) dot,
     fold_left (fun acc x => nadd acc (nmul x x)) a na,
     fold_left (fun acc x => nadd acc (nmul x x)) b nb).
Proof.
  revert b. induction a as [|x a IH]; intros [|y b] dot na nb Hlen; try discriminate.
  - reflexivity.
  - cbn in Hlen. injection Hlen as Hlen. cbn. now rewrite IH.
Qed.
End Agreement.

(** X6.  On two arrays of finite numbers the [cosineSimilarity] of the embedding
    matcher returns what [cosineSimilarity] of [lib/similarity.ts] returns,
    in any arithmetic, for equal and for different lengths. *)
Theorem cosineSimilarity_embedding_agrees (N : JSNumber) (ToNumber : jsval -> num)
    (a b : list num) :
  (forall x, ToNumber (JNumber x) = x) ->
  allFinite (a ++ b) = true ->
  cosineSimilarity_embedding (Some a) (Some b) =
  cosineSimilarity ToNumber (JArray (map JNumber a)) (JArray (map JNumber b)).
Proof.
  intros Hnum Hfin.
  assert (Hmap : forall l : list num, map ToNumber (map JNumber l) = l).
  { intros l. rewrite map_map. induction l as [|x l IH]; cbn; [reflexivity|].
    now rewrite Hnum, IH. }
  rewrite cosineSimilarity_arrays. cbv zeta. rewrite !Hmap, Hfin.
  unfold cosineSimilarity_embedding. cbn [negb]. rewrite orb_false_r.
  destruct ((length a =? 0) || (length b =? 0) || negb (length a =? length b)) eqn:Hguard;
    [reflexivity|].
  apply orb_false_elim in Hguard as [_ Hlen]. apply negb_false_iff, Nat.eqb_eq in Hlen.
  rewrite sums_folds by assumption. reflexivity.
Qed.

Lemma cosineSimilarity_embedding_agrees_witness :
  cosineSimilarity_embedding (Some (floats [1; 2; 3]%float)) (Some (floats [3; 1; 2]%float)) =
  cosineSimilarity numberOf (JArray (map jnum [1; 2; 3]%float)) (JArray (map jnum [3; 1; 2]%float)).
Proof.
  apply (cosineSimilarity_embedding_agrees Float64 numberOf
           (floats [1; 2; 3]%float) (floats [3; 1; 2]%float)); reflexivity.
Defined.

(** ** The range of the similarity, over the reals *)

Lemma Rdot_sumsq (xs ys : list R) : forall d0 p0 q0,
  length xs = length ys -> (0 <= p0)%R -> (0 <= q0)%R -> (d0 * d0 <= p0 * q0)%R ->
  (Rdot d0 xs ys * Rdot d0 xs ys <= Rsumsq p0 xs * Rsumsq q0 ys)%R.
Proof.
  revert ys. induction xs as [|x xs IH]; intros [|y ys] d0 p0 q0 Hlen Hp Hq Hd;
    try discriminate; cbn.
  - exact Hd.
  - cbn in Hlen. injection Hlen as Hlen.
    apply IH; [assumption | nra | nra |].
    (* (d + xy)^2 <= (p + x^2)(q + y^2) from d^2 <= pq *)
    assert (H2 : (2 * d0 * (x * y) <= p0 * (y * y) + q0 * (x * x))%R).
    { destruct (Rle_dec 0 (d0 * (x * y))) as [Hpos | Hneg]; [|nra].
      assert (Hsq : ((2 * d0 * (x * y)) * (2 * d0 * (x * y)) <=
                     (p0 * (y * y) + q0 * (x * x)) * (p0 * (y * y) + q0 * (x * x)))%R).
      { assert (H4 : (4 * (d0 * d0) * ((x * y) * (x * y)) <=
                      4 * (p0 * q0) * ((x * y) * (x * y)))%R).
        { apply Rmult_le_compat_r; [nra | lra]. }
        pose proof (Rle_0_sqr (p0 * (y * y) - q0 * (x * x))) as Hamgm. unfold Rsqr in Hamgm.
        lra. }
      assert (H0 : (0 <= p0 * (y * y) + q0 * (x * x))%R) by nra.
      nra. }
    nra.
Qed.

Lemma exact_dot (xs ys : list R) : forall d0,
  fold_left (fun acc xy => nadd acc (nmul (fst xy) (snd xy)))
    (combine (reals xs) (reals ys)) (XR d0 : @num Exact) = XR (Rdot d0 xs ys).
Proof.
  revert ys. induction xs as [|x xs IH]; intros [|y ys] d0; cbn; try reflexivity.
  apply IH.
Qed.

(** X7.  Over exact reals, [cosineSimilarity] of [lib/similarity.ts] returns a
    real number between -1 and 1 on every pair of inputs, whatever they
    are and whatever [Number] makes of their elements. *)
Theorem cosineSimilarity_between_minus_one_and_one
    (ToNumber : @jsval Exact -> @num Exact) (aRaw bRaw : @jsval Exact) :
  exists r : R, cosineSimilarity ToNumber aRaw bRaw = XR r /\ (-1 <= r <= 1)%R.
Proof.
  assert (Hzero : exists r : R, (nzero : @num Exact) = XR r /\ (-1 <= r <= 1)%R)
    by (exists 0%R; split; [reflexivity | lra]).
  destruct aRaw as [| | | | |aItems|]; try exact Hzero.
  destruct bRaw as [| | | | |bItems|]; try exact Hzero.
  rewrite cosineSimilarity_arrays. cbv zeta.
  set (a := map ToNumber aItems). set (b := map ToNumber bItems).
  destruct ((length a =? 0) || (length b =? 0)); [exact Hzero|]. cbn [orb].
  destruct (length a =? length b) eqn:Hlen; [|exact Hzero]. cbn [negb orb].
  apply Nat.eqb_eq in Hlen.
  destruct (allFinite (a ++ b)) eqn:Hfin; [|exact Hzero]. cbn [negb].
  rewrite allFinite_app in Hfin. apply andb_prop in Hfin as [Ha Hb].
  destruct (exact_allFinite a Ha) as [xs Hxs], (exact_allFinite b Hb) as [ys Hys].
  rewrite Hxs, Hys in *. unfold reals in Hlen. rewrite !length_map in Hlen.
  unfold norm, sumSquares, dotProduct.
  change (@nzero Exact) with (XR 0). rewrite !exact_sumsq, exact_dot.
  pose proof (Rsumsq_ge xs 0) as Hp. pose proof (Rsumsq_ge ys 0) as Hq.
  pose proof (Rdot_sumsq xs ys 0 0 0 Hlen ltac:(lra) ltac:(lra) ltac:(lra)) as Hcs.
  set (p := Rsumsq 0 xs) in *. set (q := Rsumsq 0 ys) in *. set (d := Rdot 0 xs ys) in *.
  cbn. unfold Rsign_neg.
  destruct (Rlt_dec p 0) as [Hn|_]; [lra|]. destruct (Rlt_dec q 0) as [Hn|_]; [lra|].
  cbn. unfold Ris_zero.
  destruct (Req_dec_T (R_sqrt.sqrt p * R_sqrt.sqrt q) 0) as [Hz|Hnz]; cbn; [exact Hzero|].
  unfold Ris_zero. destruct (Req_dec_T (R_sqrt.sqrt p * R_sqrt.sqrt q) 0) as [Hz|_]; [contradiction|].
  eexists. split; [reflexivity|].
  pose proof (sqrt_pos p) as Hsp. pose proof (sqrt_pos q) as Hsq.
  assert (Hden : (0 < R_sqrt.sqrt p * R_sqrt.sqrt q)%R) by nra.
  assert (Hden2 : ((R_sqrt.sqrt p * R_sqrt.sqrt q) * (R_sqrt.sqrt p * R_sqrt.sqrt q) = p * q)%R).
  { rewrite <- (sqrt_sqrt p Hp) at 3. rewrite <- (sqrt_sqrt q Hq) at 3. ring. }
  set (s := (R_sqrt.sqrt p * R_sqrt.sqrt q)%R) in *.
  assert (Habs : (- s <= d <= s)%R) by nra.
  split.
  - apply Rmult_le_reg_r with s; [assumption|].
    unfold Rdiv. rewrite Rmult_assoc, Rinv_l by lra. lra.
  - apply Rmult_le_reg_r with s; [assumption|].
    unfold Rdiv. rewrite Rmult_assoc, Rinv_l by lra. lra.
Qed.

(** ** The best score of a photo *)

Section BestScore.
Context {N : JSNumber} {L : NumberNaNLaws N}.

Lemma bestScore_fold (selfieDesc : descriptor) (faces : list descriptor) : forall best,
  nge best best = true ->
  let r := fold_left
             (fun best d =>
                let s := cosineSimilarity_faceapi selfieDesc d in
                if ngt s best then s else best)
             faces best in
  nge r r = true /\
  (r = best \/ In r (map (cosineSimilarity_faceapi selfieDesc) faces)).
Proof using L.
  induction faces as [|d faces IH]; intros best Hbest; cbn [fold_left map]; cbv zeta.
  - split; [assumption | now left].
  - cbv zeta in IH.
    destruct (ngt (cosineSimilarity_faceapi selfieDesc d) best) eqn:Hgt.
    + apply gt_is_number in Hgt.
      destruct (IH (cosineSimilarity_faceapi selfieDesc d) Hgt) as [Hnum [Heq | Hin]].
      * split; [assumption | right; left; now rewrite Heq].
      * split; [assumption | right; now right].
    + destruct (IH best Hbest) as [Hnum [Heq | Hin]].
      * split; [assumption | now left].
      * split; [assumption | right; now right].
Qed.
End BestScore.

(** X8.  The score [scoreOne] gives a photo is never NaN: it is the similarity
    of one of its faces to the selfie, or the initial -1 when no face has
    a similarity above -1, as when every similarity is NaN. *)
Theorem bestScore_is_a_number (N : JSNumber) (L : NumberNaNLaws N)
    (selfieDesc : descriptor) (faces : list descriptor) :
  nge (bestScore selfieDesc faces) (bestScore selfieDesc faces) = true /\
  (bestScore selfieDesc faces = nminus1 \/
   In (bestScore selfieDesc faces) (map (cosineSimilarity_faceapi selfieDesc) faces)).
Proof.
  unfold bestScore. apply bestScore_fold. apply minus1_is_number.
Qed.

Lemma bestScore_is_a_number_witness :
  PrimFloat.leb (bestScore (floats [1; 0]%float) [floats [1]%float; floats [0; 1]%float])
                (bestScore (floats [1; 0]%float) [floats [1]%float; floats [0; 1]%float]) = true.
Proof.
  exact (proj1 (bestScore_is_a_number Float64 Float64_nan_laws (floats [1; 0]%float)
                  [floats [1]%float; floats [0; 1]%float])).
Defined.

(** ** The image proxy and the adapter *)

Section ProxyFacts.
Context {N : JSNumber}.
Context {bitmap canvas : Type}.
Variables (proxyReachable : bool) (fetchUpstream : string -> upstreamOutcome)
  (createImageBitmap : string -> option bitmap) (draw : bitmap -> option canvas)
  (detectAllFaces : canvas -> option (list descriptor)).

Lemma GET_ok (u : string) :
  statusOk (proxyStatus (GET (Some u) fetchUpstream)) = true ->
  isAllowedUrl u = true /\
  exists status contentType bytes,
    fetchUpstream u = UpstreamResponds status contentType bytes /\ statusOk status = true.
Proof.
  unfold GET. destruct (String.eqb u EmptyString); [discriminate|].
  destruct (isAllowedUrl u); [|discriminate]. cbn [negb].
  destruct (fetchUpstream u) as [message|status contentType bytes]; [discriminate|].
  destruct (statusOk status) eqn:Hok; [|discriminate].
  intros _. split; [reflexivity|]. eauto.
Qed.

Lemma analyzeViaProxy_Detected (p : PhotoItem) (faces : list descriptor) :
  analyzeViaProxy proxyReachable fetchUpstream createImageBitmap draw detectAllFaces p
    = Detected faces ->
  isAllowedUrl (url p) = true /\
  exists status contentType bytes,
    fetchUpstream (url p) = UpstreamResponds status contentType bytes /\ statusOk status = true.
Proof.
  unfold analyzeViaProxy, urlToCanvasViaProxy.
  destruct proxyReachable; [|discriminate]. cbn [negb].
  destruct (statusOk (proxyStatus (GET (Some (url p)) fetchUpstream))) eqn:Hok; [|discriminate].
  intros _. now apply GET_ok.
Qed.
End ProxyFacts.

(** X9.  When the candidates are analysed through the image proxy, a photo is
    shown as a match only if its URL starts with [https://] and the
    upstream server answered the proxy's request for it with a success
    status: the proxy refuses every other URL with status 400, the fetch
    through it throws, and [scoreOne] drops the photo. *)
Theorem matches_come_through_the_proxy (N : JSNumber) (bitmap canvas : Type)
    (cfg : knobs) (w : world) (threshold : num) (eventPhotos : list PhotoItem)
    (proxyReachable : bool) (fetchUpstream : string -> upstreamOutcome)
    (createImageBitmap : string -> option bitmap) (draw : bitmap -> option canvas)
    (detectAllFaces : canvas -> option (list descriptor)) :
  0 < scanBatchSize cfg -> 0 < CONCURRENCY cfg ->
  (forall p, analyze w p =
     analyzeViaProxy proxyReachable fetchUpstream createImageBitmap draw detectAllFaces p) ->
  exists updates, runMatching cfg w threshold eventPhotos = Some updates /\
    forall l m, In (SetMatches l) updates -> In m l ->
      String.prefix "https://" (url (item m)) = true /\
      exists status contentType bytes,
        fetchUpstream (url (item m)) = UpstreamResponds status contentType bytes /\
        statusOk status = true.
Proof.
  intros HB HC Hw.
  destruct (runMatching_returns cfg w threshold eventPhotos HB HC) as [updates Hrun].
  exists updates. split; [exact Hrun|]. intros l m Hl Hm.
  destruct (runMatching_published cfg w threshold eventPhotos updates l m Hrun Hl Hm)
    as (selfieDesc & _ & (_ & _ & faces & Han & _ & _) & _).
  rewrite Hw in Han.
  exact (analyzeViaProxy_Detected proxyReachable fetchUpstream createImageBitmap draw
           detectAllFaces (item m) faces Han).
Qed.

Lemma matches_come_through_the_proxy_witness :
  exists updates,
    runMatching sourceKnobs proxyWorld 0x1.c28f5c28f5c29p-1%float samplePool = Some updates /\
    forall l m, In (SetMatches l) updates -> In m l ->
      String.prefix "https://" (url (item m)) = true /\
      exists status contentType bytes,
        UpstreamResponds 200 None (url (item m)) = UpstreamResponds status contentType bytes /\
        statusOk status = true.
Proof.
  apply (matches_come_through_the_proxy Float64 string string sourceKnobs proxyWorld
           0x1.c28f5c28f5c29p-1%float samplePool true (fun u => UpstreamResponds 200 None u)
           Some Some proxyDetect); [cbn; lia | cbn; lia | intros p; reflexivity].
Defined.

(** ** The embedding adapter, further *)

Section AdapterMore.
Context {N : JSNumber}.
Variable JSONparse : string -> option jsval.
Variable ToNumber : jsval -> num.
Local Open Scope string_scope.

Lemma findFace_carries (faces : list jsval) (f : jsval) :
  findFace faces = Some (Some f) -> In f faces /\ carriesEmbedding f = true.
Proof.
  induction faces as [|g faces IH]; cbn; [discriminate|].
  destruct g; cbn; try discriminate; try (intros H; destruct (IH H); auto).
  unfold carriesEmbedding. cbn.
  destruct (nonEmptyArray (lookupField "embedding" fields)) eqn:He.
  - intros [= <-]. cbn. split; [now left | exact He].
  - intros H. destruct (IH H). auto.
Qed.
End AdapterMore.

(** X10.  The route answers with one of four statuses, its payload always says
    whether the call succeeded, [ok] is [true] exactly when the status is
    200, and a 200 answer carries under [embedding] either [null] or a
    non-empty array that is the embedding of one of the faces it lists. *)
Theorem POST_status_and_payload (N : JSNumber) (JSONparse : string -> option jsval)
    (req : embedRequest) (provider : providerOutcome) :
  let res := POST JSONparse req provider in
  In (apiStatus res) [200; 400; 500; 502] /\
  getOpt (apiPayload res) "ok" = JBool (apiStatus res =? 200) /\
  (apiStatus res = 200 ->
     getOpt (apiPayload res) "embedding" = JNull \/
     exists faces f e es,
       getOpt (apiPayload res) "faces" = JArray faces /\ In f faces /\
       getOpt f "embedding" = JArray (e :: es) /\
       getOpt (apiPayload res) "embedding" = JArray (e :: es)).
Proof.
  cbv zeta. unfold POST.
  destruct (hasBase req); cbn [negb]; [|cbn; intuition discriminate].
  destruct (isMultipart req); [|cbn; intuition discriminate].
  destruct (fileIsFile req); cbn [negb]; [|cbn; intuition discriminate].
  destruct provider as [message|status text]; [cbn; intuition discriminate|].
  destruct (JSONparse text) as [data|]; [|cbn; intuition discriminate].
  destruct (statusOk status); cbn [negb]; [|cbn; intuition discriminate].
  fold (facesOf data).
  destruct (findFace (facesOf data)) as [[f|]|] eqn:Hfind; [| |cbn; intuition discriminate].
  - apply findFace_carries in Hfind as [Hin Hcarries].
    unfold carriesEmbedding in Hcarries.
    destruct (getOpt f "embedding") as [| | | | |[|e es]|] eqn:Hemb; try discriminate.
    cbn. split; [auto|]. split; [reflexivity|]. intros _. right.
    exists (facesOf data), f, e, es. auto.
  - cbn. split; [auto|]. split; [reflexivity|]. intros _. now left.
Qed.

(** X11.  A successful result of the client with result codes never carries an
    empty embedding or a non-finite entry: it is the finite entries, after
    [Number], of the non-empty array the route answered with, with a
    success status and a truthy [ok]. *)
Theorem embedFace_success_is_usable (N : JSNumber) (ToNumber : jsval -> num)
    (inputOk : bool) (res : apiResponse) (emb : list num) :
  embedFace ToNumber inputOk res = EmbedOk emb ->
  emb <> [] /\ Forall (fun x => isFinite x = true) emb /\
  inputOk = true /\ statusOk (apiStatus res) = true /\
  jsTruthy (getOpt (apiPayload res) "ok") = true /\
  exists e es, getOpt (apiPayload res) "embedding" = JArray (e :: es) /\
    emb = filter (fun x => isFinite x = true) (map ToNumber (e :: es)).
Proof.
  unfold embedFace. destruct inputOk; [|discriminate]. cbn [negb].
  destruct (statusOk (apiStatus res)); [|discriminate]. cbn [negb].
  unfold getStrict.
  destruct (apiPayload res) as [| | | | | |fields] eqn:Hpay; try discriminate;
    cbn [getOpt]; try (destruct (jsTruthy JUndefined) eqn:Hu; cbn in Hu; discriminate).
  destruct (jsTruthy (lookupField "ok" fields)) eqn:Hok; [|discriminate]. cbn [negb].
  destruct (lookupField "embedding" fields) as [| | | | |[|e es]|] eqn:Hemb; try discriminate.
  set (out := filter (fun x => isFinite x = true) (map ToNumber (e :: es))).
  destruct (length out =? 0)%nat eqn:Hlen; [discriminate|].
  intros [= <-]. split.
  - intros Hnil. rewrite Hnil in Hlen. discriminate.
  - split.
    + apply Forall_forall. intros x Hx. subst out. apply In_filter in Hx as [Hx _]. exact Hx.
    + repeat split; eauto.
Qed.

Lemma embedFace_success_is_usable_witness :
  floats [1; 2]%float <> [] /\ Forall (fun x => PrimFloat.is_finite x = true) (floats [1; 2]%float).
Proof.
  destruct (embedFace_success_is_usable Float64 numberOf true
              (POST sampleParse upload (Responds 200 bodyTwoFaces)) (floats [1; 2]%float))
    as (Hne & Hfin & _); [vm_compute; reflexivity|].
  split; [exact Hne | exact Hfin].
Defined.

(** X12.  The earlier client ([embedFace] of [lib/faceServer.ts], which reads
    [json.data.faces]) never returns an embedding from an answer of the
    route of [app/api/embed/route.ts], which has no [data] field when it
    succeeds: it throws on every answer, "No embedding array in response"
    on a 200 and its API error on any other. *)
Theorem embedFace_v1_throws_on_the_route (N : JSNumber) (JSONparse : string -> option jsval)
    (req : embedRequest) (provider : providerOutcome) :
  let res := POST JSONparse req provider in
  let thrown := embedFace_v1 (apiStatus res) (Some (apiPayload res)) in
  (thrown = V1ApiError \/ thrown = V1NoEmbeddingArray) /\
  (thrown = V1NoEmbeddingArray <-> apiStatus res = 200).
Proof.
  cbv zeta. unfold POST.
  assert (Herr : forall status fields, status <> 200 ->
            let res := jsonError status fields in
            (embedFace_v1 (apiStatus res) (Some (apiPayload res)) = V1ApiError \/
             embedFace_v1 (apiStatus res) (Some (apiPayload res)) = V1NoEmbeddingArray) /\
            (embedFace_v1 (apiStatus res) (Some (apiPayload res)) = V1NoEmbeddingArray <->
             apiStatus res = 200)).
  { intros status fields Hst. cbv zeta. unfold embedFace_v1.
    cbn [jsonError apiStatus apiPayload].
    replace (jsTruthy (getOpt (JObject (("ok"%string, JBool false) :: fields)) "ok")) with false
      by reflexivity.
    rewrite orb_true_r. split; [now left|]. split; [discriminate | contradiction]. }
  destruct (hasBase req); cbn [negb]; [|apply Herr; discriminate].
  destruct (isMultipart req); [|apply Herr; discriminate].
  destruct (fileIsFile req); cbn [negb]; [|apply Herr; discriminate].
  destruct provider as [message|status text]; [apply Herr; discriminate|].
  destruct (JSONparse text) as [data|]; [|apply Herr; discriminate].
  destruct (statusOk status); cbn [negb]; [|apply Herr; discriminate].
  destruct (findFace _) as [best|]; [|apply Herr; discriminate].
  split; [now right|]. split; reflexivity.
Qed.

(** ** The matcher of the embedding variant *)

Section EmbeddingMatcher.
Context {N : JSNumber}.

Lemma scored_from_stored (q : list num) (eventPhotos : list PhotoDoc) (l : list MatchDoc) :
  (forall m, In m l -> In m (sortByScore doc_score (map (scoreDoc q) eventPhotos))) ->
  Forall (fun m => exists p, In p eventPhotos /\ m = scoreDoc q p) l.
Proof.
  intros Hsub. apply Forall_forall. intros m Hm.
  apply Hsub, sortByScore_In, in_map_iff in Hm as (p & <- & Hp). eauto.
Qed.
End EmbeddingMatcher.

(** X13.  The matcher of the embedding variant, given the embedding of the selfie
    and an event with stored photos, publishes one list after the initial
    empty one.  That list is never empty and never longer than eight, each
    entry is a stored photo with its similarity to the selfie, and the
    message says which case it is: "found" with the number shown, every
    entry meeting the threshold, or "closest", no stored photo meeting it. *)
Theorem runMatching_embedding_always_shows_photos (N : JSNumber)
    (q : list num) (threshold : num) (eventPhotos : list PhotoDoc) :
  eventPhotos <> [] ->
  exists top msg,
    runMatching_embedding (Some q) threshold eventPhotos =
      [SetMatchLoading true; SetMatches []; SetMatchMessage MsgEmbeddingSelfie;
       SetMatchMessage MsgMatching; SetMatches top; SetMatchMessage msg;
       SetMatchLoading false] /\
    top <> [] /\ length top <= 8 /\
    Forall (fun m => exists p, In p eventPhotos /\ m = scoreDoc q p) top /\
    ((msg = MsgFound (length top) /\ Forall (fun m => nge (doc_score m) threshold = true) top) \/
     (msg = MsgClosest /\
      Forall (fun p => nge (doc_score (scoreDoc q p)) threshold = false) eventPhotos)).
Proof.
  intros Hne. unfold runMatching_embedding.
  destruct eventPhotos as [|p0 rest] eqn:Hphotos; [congruence|]. rewrite <- Hphotos in *.
  assert (Hlen : (length eventPhotos =? 0) = false) by (rewrite Hphotos; reflexivity).
  rewrite Hlen.
  set (scored := sortByScore doc_score (map (scoreDoc q) eventPhotos)).
  set (filtered := take 24 (filter (fun x => nge (doc_score x) threshold = true) scored)).
  assert (Hscored : scored <> []).
  { intros Hnil. assert (Hin : In (scoreDoc q p0) scored).
    { apply sortByScore_In, in_map. rewrite Hphotos. now left. }
    rewrite Hnil in Hin. contradiction. }
  destruct (0 <? length filtered) eqn:Hf.
  - exists (take shown filtered), (MsgFound (length (take shown filtered))).
    split; [reflexivity|]. apply Nat.ltb_lt in Hf.
    split; [|split; [|split; [|left; split; [reflexivity|]]]].
    + intros Hnil. apply (f_equal length) in Hnil. rewrite length_take in Hnil.
      unfold shown in Hnil. cbn [length] in Hnil. lia.
    + rewrite length_take. unfold shown. lia.
    + apply scored_from_stored. intros m Hm.
      apply In_take in Hm. unfold filtered in Hm. apply In_take, In_filter in Hm as [_ Hm].
      exact Hm.
    + apply Forall_forall. intros m Hm.
      apply In_take in Hm. unfold filtered in Hm. apply In_take, In_filter in Hm as [Hm _].
      exact Hm.
  - exists (take shown (take 24 scored)), MsgClosest.
    split; [reflexivity|]. apply Nat.ltb_ge in Hf.
    split; [|split; [|split; [|right; split; [reflexivity|]]]].
    + intros Hnil. apply (f_equal length) in Hnil. rewrite !length_take in Hnil.
      unfold shown in Hnil. destruct scored; [congruence|]. cbn [length] in Hnil. lia.
    + rewrite length_take. unfold shown. lia.
    + apply scored_from_stored. intros m Hm. now apply In_take, In_take in Hm.
    + apply Forall_forall. intros p Hp.
      destruct (nge (doc_score (scoreDoc q p)) threshold) eqn:Hge; [|reflexivity].
      assert (Hin : In (scoreDoc q p) (filter (fun x => nge (doc_score x) threshold = true) scored)).
      { apply In_filter. split; [exact Hge|]. apply sortByScore_In, in_map. exact Hp. }
      unfold filtered in Hf. rewrite length_take in Hf.
      destruct (filter _ scored); [contradiction|]. cbn [length] in Hf. lia.
Qed.

Lemma runMatching_embedding_always_shows_photos_witness :
  exists top msg,
    runMatching_embedding (Some (floats [1; 0]%float)) 0x1.199999999999ap-1%float [sampleDoc] =
      [SetMatchLoading true; SetMatches []; SetMatchMessage MsgEmbeddingSelfie;
       SetMatchMessage MsgMatching; SetMatches top; SetMatchMessage msg;
       SetMatchLoading false] /\
    top <> [] /\ length top <= 8.
Proof.
  destruct (runMatching_embedding_always_shows_photos Float64 (floats [1; 0]%float)
              0x1.199999999999ap-1%float [sampleDoc])
    as (top & msg & Hrun & Hne & Hlen & _); [discriminate|].
  exists top, msg. auto.
Defined.

(** ** Queues with a concurrency limit *)

Section WorkerPoolFacts.
Context {T R St : Type}.
Variable worker : T -> nat -> R.
Variable effect : T -> nat -> St -> St.
Variables (counts : bool) (items : list T) (runners : nat) (s0 : St).

Lemma spawn_iter (j : nat) :
  Nat.iter j (takeNext (R:=R) (St:=St) counts items)
    (mkPool 0 (replicate (length items) None) [] [] [] s0) =
  mkPool (if counts then j else min j (length items))
    (replicate (length items) None) (seq 0 (min j (length items)))
    (seq 0 (min j (length items))) [] s0.
Proof.
  induction j as [|j IH]; [now destruct counts|].
  cbn [Nat.iter nat_rect]. change (nat_rect _ _ _ j) with
    (Nat.iter j (takeNext (R:=R) (St:=St) counts items)
       (mkPool 0 (replicate (length items) None) [] [] [] s0)).
  rewrite IH. unfold takeNext. cbn [nextIndex results inFlight handed settledLog shared].
  destruct (Nat.le_gt_cases (length items) j) as [Hj | Hj].
  - rewrite !Nat.min_r by lia.
    destruct counts.
    + now rewrite (proj2 (Nat.leb_le _ _) Hj).
    + now rewrite Nat.leb_refl.
  - rewrite (Nat.min_l j), (Nat.min_l (S j)) by lia.
    replace (if counts then j else j) with j by now destruct counts.
    rewrite (proj2 (Nat.leb_gt _ _) Hj). rewrite seq_S.
    now destruct counts.
Qed.

Lemma existsb_eqb_In (cur : nat) (l : list nat) :
  existsb (Nat.eqb cur) l = true <-> In cur l.
Proof.
  rewrite existsb_exists. split.
  - intros (x & Hx & Heq). apply Nat.eqb_eq in Heq. now subst.
  - intros H. exists cur. split; [assumption | apply Nat.eqb_refl].
Qed.

Lemma In_remove (cur i : nat) (l : list nat) :
  In i (List.filter (fun j => negb (j =? cur)) l) <-> In i l /\ i <> cur.
Proof.
  rewrite List.filter_In, negb_true_iff, Nat.eqb_neq. reflexivity.
Qed.

Lemma length_remove (cur : nat) (l : list nat) :
  In cur l -> length (List.filter (fun j => negb (j =? cur)) l) < length l.
Proof.
  induction l as [|x l IH]; [contradiction|]. cbn [List.filter].
  destruct (Nat.eqb_spec x cur) as [->|Hne]; cbn [negb length].
  - intros _. pose proof (List.filter_length_le (fun j => negb (j =? cur)) l). lia.
  - intros [Hx | Hin]; [congruence|]. specialize (IH Hin). lia.
Qed.

Lemma spawn_ok :
  1 <= runners -> poolOk worker effect items runners s0 (spawn counts items runners s0).
Proof.
  intros HR. unfold spawn. rewrite spawn_iter.
  set (j := runners) in *.
  set (next := if counts then j else min j (length items)).
  assert (Hnext : min next (length items) = min j (length items))
    by (unfold next; destruct counts; lia).
  split; cbn [nextIndex results inFlight handed settledLog shared].
  - apply length_replicate.
  - now rewrite Hnext.
  - intros i r Hi. apply lookup_replicate in Hi as [Hi _]. discriminate.
  - intros i Hi Hn. right. apply in_seq. lia.
  - intros cur Hcur. apply in_seq in Hcur. split; [lia|].
    apply lookup_replicate. split; [reflexivity | lia].
  - apply seq_NoDup.
  - destruct (Nat.le_gt_cases (length items) j) as [Hle | Hgt]; [left; lia|].
    right. rewrite Nat.min_l by lia. destruct j; [lia | discriminate].
  - rewrite length_seq. lia.
  - intros i Hi' Hi. apply lookup_replicate. split; [reflexivity | assumption].
  - intros i. split; [contradiction|]. intros [r Hr].
    apply lookup_replicate in Hr as [Hr _]. discriminate.
  - constructor.
  - reflexivity.
Qed.

Lemma settleWorker_ok (cur : nat) (p : pool R St) :
  poolOk worker effect items runners s0 p ->
  poolOk worker effect items runners s0 (settleWorker worker effect counts items cur p).
Proof.
  intros Hok. unfold settleWorker.
  destruct (existsb (Nat.eqb cur) (inFlight p)) eqn:Hin; [|exact Hok].
  apply existsb_eqb_In in Hin.
  destruct (ok_flight _ _ _ _ _ _ Hok cur Hin) as [Hcur Hslot].
  assert (Hlt : cur < length items).
  { apply lookup_lt_Some in Hslot. now rewrite (ok_length _ _ _ _ _ _ Hok) in Hslot. }
  destruct (items !! cur) as [item|] eqn:Hitem;
    [|apply lookup_ge_None in Hitem; lia].
  assert (Hfill : forall i, <[cur := Some (worker item cur)]> (results p) !! i =
                    if decide (i = cur) then Some (Some (worker item cur)) else results p !! i).
  { intros i. rewrite list_lookup_insert. rewrite (ok_length _ _ _ _ _ _ Hok).
    destruct (decide (i = cur)) as [->|Hne]; destruct (decide _) as [[? ?]|Hn]; try reflexivity;
      try congruence. exfalso. apply Hn. split; [reflexivity | assumption]. }
  assert (Hnew : ~ In cur (settledLog p)).
  { intros Hs. apply (ok_settled _ _ _ _ _ _ Hok) in Hs as [r Hr]. congruence. }
  unfold takeNext. cbn [nextIndex results inFlight handed settledLog shared].
  remember (if counts then S (nextIndex p) else nextIndex p) as next eqn:Hadv.
  assert (Hnext' : nextIndex p <= next) by (subst next; destruct counts; lia).
  clear Hadv.
  destruct (length items <=? nextIndex p) eqn:Hnext;
    [apply Nat.leb_le in Hnext | apply Nat.leb_gt in Hnext];
    split; cbn [nextIndex results inFlight handed settledLog shared].
  (* the runner finishes *)
  - rewrite length_insert. apply (ok_length _ _ _ _ _ _ Hok).
  - rewrite (ok_handed _ _ _ _ _ _ Hok). f_equal. lia.
  - intros i r. rewrite Hfill. destruct (decide (i = cur)) as [->|Hne].
    + intros [= <-]. eauto.
    + apply (ok_value _ _ _ _ _ _ Hok).
  - intros i Hi Hn.
    destruct (ok_cover _ _ _ _ _ _ Hok i) as [Hs | Hf]; [lia | assumption | |].
    + left. apply in_or_app. now left.
    + destruct (Nat.eq_dec i cur) as [->|Hne].
      * left. apply in_or_app. right. now left.
      * right. apply In_remove. now split.
  - intros c Hc. apply In_remove in Hc as [Hc Hne].
    destruct (ok_flight _ _ _ _ _ _ Hok c Hc) as [Hlt' Hslot'].
    split; [lia|]. rewrite Hfill. destruct (decide (c = cur)); [congruence | assumption].
  - apply List.NoDup_filter, (ok_nodup _ _ _ _ _ _ Hok).
  - left. lia.
  - pose proof (length_remove cur (inFlight p) Hin).
    pose proof (ok_bound _ _ _ _ _ _ Hok). lia.
  - intros i Hi Hn. lia.
  - intros i. rewrite in_app_iff, Hfill. destruct (decide (i = cur)) as [->|Hne].
    + split; [eauto | intros _; right; now left].
    + rewrite (ok_settled _ _ _ _ _ _ Hok i). split; [|tauto].
      intros [H | [H | []]]; [assumption | congruence].
  - apply List.NoDup_app; [apply (ok_once _ _ _ _ _ _ Hok) | repeat constructor; intros [] |].
    intros x Hx [<- | []]. contradiction.
  - rewrite fold_left_app. cbn. rewrite Hitem. f_equal. apply (ok_shared _ _ _ _ _ _ Hok).
  (* the runner takes the next item *)
  - rewrite length_insert. apply (ok_length _ _ _ _ _ _ Hok).
  - rewrite (ok_handed _ _ _ _ _ _ Hok). rewrite (Nat.min_l (nextIndex p)), (Nat.min_l (S _)) by lia.
    now rewrite seq_S.
  - intros i r. rewrite Hfill. destruct (decide (i = cur)) as [->|Hne].
    + intros [= <-]. eauto.
    + apply (ok_value _ _ _ _ _ _ Hok).
  - intros i Hi Hn. destruct (Nat.eq_dec i (nextIndex p)) as [->|Hne'].
    { right. apply in_or_app. right. now left. }
    destruct (ok_cover _ _ _ _ _ _ Hok i) as [Hs | Hf]; [lia | assumption | |].
    + left. apply in_or_app. now left.
    + destruct (Nat.eq_dec i cur) as [->|Hne].
      * left. apply in_or_app. right. now left.
      * right. apply in_or_app. left. apply In_remove. now split.
  - intros c Hc. apply in_app_or in Hc as [Hc | [<- | []]].
    + apply In_remove in Hc as [Hc Hne].
      destruct (ok_flight _ _ _ _ _ _ Hok c Hc) as [Hlt' Hslot'].
      split; [lia|]. rewrite Hfill. destruct (decide (c = cur)); [congruence | assumption].
    + split; [lia|]. rewrite Hfill. destruct (decide (nextIndex p = cur)); [lia|].
      apply (ok_fresh _ _ _ _ _ _ Hok); lia.
  - apply List.NoDup_app;
      [apply List.NoDup_filter, (ok_nodup _ _ _ _ _ _ Hok) | repeat constructor; intros [] |].
    intros x Hx [<- | []]. apply In_remove in Hx as [Hx _].
    apply (ok_flight _ _ _ _ _ _ Hok) in Hx as [Hx _]. lia.
  - right. destruct (List.filter _ _); discriminate.
  - rewrite length_app. cbn [length].
    pose proof (length_remove cur (inFlight p) Hin).
    pose proof (ok_bound _ _ _ _ _ _ Hok). lia.
  - intros i Hi Hn. rewrite Hfill. destruct (decide (i = cur)); [lia|].
    apply (ok_fresh _ _ _ _ _ _ Hok); lia.
  - intros i. rewrite in_app_iff, Hfill. destruct (decide (i = cur)) as [->|Hne].
    + split; [eauto | intros _; right; now left].
    + rewrite (ok_settled _ _ _ _ _ _ Hok i). split; [|tauto].
      intros [H | [H | []]]; [assumption | congruence].
  - apply List.NoDup_app; [apply (ok_once _ _ _ _ _ _ Hok) | repeat constructor; intros [] |].
    intros x Hx [<- | []]. contradiction.
  - rewrite fold_left_app. cbn. rewrite Hitem. f_equal. apply (ok_shared _ _ _ _ _ _ Hok).
Qed.

Lemma schedule_ok (schedule : list nat) : forall p,
  poolOk worker effect items runners s0 p ->
  poolOk worker effect items runners s0
    (fold_left (fun p cur => settleWorker worker effect counts items cur p) schedule p).
Proof.
  induction schedule as [|cur schedule IH]; intros p Hok; cbn; [assumption|].
  apply IH. now apply settleWorker_ok.
Qed.

Lemma settleWorker_settles (cur : nat) (p : pool R St) :
  poolOk worker effect items runners s0 p -> In cur (inFlight p) ->
  length (settledLog (settleWorker worker effect counts items cur p)) = S (length (settledLog p)).
Proof.
  intros Hok Hin. unfold settleWorker.
  rewrite (proj2 (existsb_eqb_In cur (inFlight p)) Hin).
  destruct (ok_flight _ _ _ _ _ _ Hok cur Hin) as [_ Hslot].
  apply lookup_lt_Some in Hslot. rewrite (ok_length _ _ _ _ _ _ Hok) in Hslot.
  destruct (items !! cur) as [item|] eqn:Hitem; [|apply lookup_ge_None in Hitem; lia].
  unfold takeNext. cbn [nextIndex settledLog].
  destruct (_ <=? _); cbn [settledLog]; rewrite length_app; cbn; lia.
Qed.

Lemma drain_ok (fuel : nat) : forall p,
  poolOk worker effect items runners s0 p ->
  length items <= length (settledLog p) + fuel ->
  poolOk worker effect items runners s0 (drain worker effect counts fuel items p) /\
  inFlight (drain worker effect counts fuel items p) = [].
Proof.
  induction fuel as [|fuel IH]; intros p Hok Hfuel.
  - cbn. split; [assumption|].
    destruct (inFlight p) as [|cur rest] eqn:Hfl; [reflexivity|]. exfalso.
    assert (Hin : In cur (inFlight p)) by (rewrite Hfl; now left).
    destruct (ok_flight _ _ _ _ _ _ Hok cur Hin) as [_ Hslot].
    assert (Hlt : cur < length items).
    { apply lookup_lt_Some in Hslot. now rewrite (ok_length _ _ _ _ _ _ Hok) in Hslot. }
    assert (Hall : incl (seq 0 (length items)) (settledLog p)).
    { apply List.NoDup_length_incl; [apply (ok_once _ _ _ _ _ _ Hok) | rewrite length_seq; lia |].
      intros i Hi. apply (ok_settled _ _ _ _ _ _ Hok) in Hi as [r Hr].
      apply in_seq. apply lookup_lt_Some in Hr. rewrite (ok_length _ _ _ _ _ _ Hok) in Hr. lia. }
    assert (Hs : In cur (settledLog p)) by (apply Hall, in_seq; lia).
    apply (ok_settled _ _ _ _ _ _ Hok) in Hs as [r Hr]. congruence.
  - cbn [drain]. destruct (inFlight p) as [|cur rest] eqn:Hfl; [now split|].
    assert (Hin : In cur (inFlight p)) by (rewrite Hfl; now left).
    apply IH; [now apply settleWorker_ok|].
    rewrite (settleWorker_settles cur p Hok Hin). lia.
Qed.

(** When it resolves the pool is in order and nothing is in flight. *)
Lemma runPool_ok (schedule : list nat) :
  1 <= runners ->
  poolOk worker effect items runners s0
    (runPool worker effect counts items runners s0 schedule) /\
  inFlight (runPool worker effect counts items runners s0 schedule) = [].
Proof.
  intros HR. unfold runPool. apply drain_ok; [|lia].
  now apply schedule_ok, spawn_ok.
Qed.

(** With nothing in flight every item has settled, once. *)
Lemma pool_all_settled (p : pool R St) :
  poolOk worker effect items runners s0 p -> inFlight p = [] ->
  length items <= nextIndex p /\ settledLog p ≡ₚ seq 0 (length items).
Proof.
  intros Hok Hempty.
  assert (Hnext : length items <= nextIndex p).
  { destruct (ok_busy _ _ _ _ _ _ Hok) as [H | H]; [assumption | congruence]. }
  split; [assumption|].
  apply NoDup_Permutation.
  - apply NoDup_ListNoDup, (ok_once _ _ _ _ _ _ Hok).
  - apply NoDup_ListNoDup, seq_NoDup.
  - intros i. rewrite !list_elem_of_In, in_seq. split.
    + intros Hi. apply (ok_settled _ _ _ _ _ _ Hok) in Hi as [r Hr].
      apply lookup_lt_Some in Hr. rewrite (ok_length _ _ _ _ _ _ Hok) in Hr. lia.
    + intros Hi. destruct (ok_cover _ _ _ _ _ _ Hok i) as [H | H]; [lia | lia | assumption |].
      rewrite Hempty in H. contradiction.
Qed.
End WorkerPoolFacts.

(** X14.  Whatever the order in which the workers settle, [runWithConcurrency]
    calls the worker once on every item, in the order of the items, never
    has more than [max(1, concurrency)] workers in flight, and resolves,
    with nothing in flight, with the array that holds at each index the
    result of the worker on the item of that index; what the workers did
    to the shared state is their effects in the order in which they
    settled, each item once. *)
Theorem runWithConcurrency_runs_each_item_once (T R St : Type)
    (worker : T -> nat -> R) (effect : T -> nat -> St -> St)
    (items : list T) (concurrency : nat) (s0 : St) (schedule : list nat) :
  let p := runWithConcurrency worker effect items concurrency s0 schedule in
  results p = map Some (imap (fun i item => worker item i) items) /\
  handed p = seq 0 (length items) /\
  inFlight p = [] /\
  settledLog p ≡ₚ seq 0 (length items) /\
  shared p =
    fold_left (fun s i => match items !! i with Some item => effect item i s | None => s end)
      (settledLog p) s0 /\
  length (inFlight (fold_left (fun p cur => settleWorker worker effect true items cur p) schedule
                      (spawn true items (max 1 concurrency) s0))) <= max 1 concurrency.
Proof.
  cbv zeta.
  assert (HR : 1 <= max 1 concurrency) by lia.
  destruct (runPool_ok worker effect true items _ s0 schedule HR) as [Hok Hempty].
  destruct (pool_all_settled worker effect items _ s0 _ Hok Hempty) as [Hnext Hperm].
  fold (runWithConcurrency worker effect items concurrency s0 schedule) in Hok, Hempty, Hnext, Hperm.
  set (p := runWithConcurrency worker effect items concurrency s0 schedule) in *.
  split; [|split; [|split; [|split; [|split]]]].
  - apply list_eq. intros i. rewrite list_lookup_fmap, list_lookup_imap.
    destruct (items !! i) as [item|] eqn:Hitem; cbn.
    + assert (Hi : In i (settledLog p)).
      { apply list_elem_of_In. rewrite Hperm. apply list_elem_of_In, in_seq.
        apply lookup_lt_Some in Hitem. lia. }
      apply (ok_settled _ _ _ _ _ _ Hok) in Hi as [r Hr].
      rewrite Hr. destruct (ok_value _ _ _ _ _ _ Hok i r Hr) as (item' & Hitem' & ->).
      congruence.
    + apply lookup_ge_None. rewrite (ok_length _ _ _ _ _ _ Hok). now apply lookup_ge_None.
  - rewrite (ok_handed _ _ _ _ _ _ Hok). f_equal. lia.
  - exact Hempty.
  - exact Hperm.
  - apply (ok_shared _ _ _ _ _ _ Hok).
  - apply (ok_bound _ _ _ _ _ _
             (schedule_ok worker effect true items _ s0 schedule _
                (spawn_ok worker effect true items _ s0 HR))).
Qed.

(** ** Names, paths and compression *)

Section PathFacts.

Lemma isSafeUnit_not_slash (c : nat) : isSafeUnit c = true -> Nat.eqb c 47 = false.
Proof.
  intros H. destruct (Nat.eqb_spec c 47) as [->|]; [|reflexivity].
  vm_compute in H. discriminate.
Qed.

Lemma safeUnit_fixed (c : nat) : isSafeUnit (if isSafeUnit c then c else 95) = true.
Proof. destruct (isSafeUnit c) eqn:H; [exact H | reflexivity]. Qed.
End PathFacts.

(** X15.  [safeFileName] keeps the length of the name, counted in UTF-16
    code units as the source counts it: it keeps every code unit that is
    an ASCII letter, a digit or one of [_ . - ( )] and puts one underscore
    for every other code unit, so one for a Hangul syllable and two for a
    character outside the basic plane.  The name it returns has such code
    units only, so no slash; it leaves such a name as it is, and applying
    it twice is applying it once. *)
Theorem safeFileName_is_safe (name : list nat) :
  length (safeFileName name) = length name /\
  (forall i c, name !! i = Some c ->
     safeFileName name !! i = Some (if isSafeUnit c then c else 95)) /\
  forallb isSafeUnit (safeFileName name) = true /\
  forallb (fun c => negb (c =? 47)) (safeFileName name) = true /\
  safeFileName (safeFileName name) = safeFileName name /\
  (forallb isSafeUnit name = true -> safeFileName name = name).
Proof.
  assert (Hsafe : forallb isSafeUnit (safeFileName name) = true).
  { apply forallb_forall. intros c Hc. apply in_map_iff in Hc as (c0 & <- & _).
    apply safeUnit_fixed. }
  assert (Hid : forall l, forallb isSafeUnit l = true -> safeFileName l = l).
  { intros l Hl. unfold safeFileName. rewrite <- (map_id l) at 2.
    apply map_ext_in. intros c Hc.
    rewrite forallb_forall in Hl. now rewrite (Hl c Hc). }
  split; [apply length_map|]. split.
  { intros i c Hi. unfold safeFileName.
    change (map ?f ?l) with (f <$> l). now rewrite list_lookup_fmap, Hi. }
  split; [exact Hsafe|]. split.
  - apply forallb_forall. intros c Hc. rewrite forallb_forall in Hsafe.
    now rewrite (isSafeUnit_not_slash c (Hsafe c Hc)).
  - split; [now apply Hid | apply Hid].
Qed.

(** A name of one Hangul syllable and [.jpg]: the syllable is the code
    unit 54620 (U+D55C), three bytes in UTF-8. *)
Example safeFileName_hangul :
  codeUnits (String (ascii_of_nat 237) (String (ascii_of_nat 149) (String (ascii_of_nat 156)
               ".jpg"%string))) = [54620; 46; 106; 112; 103] /\
  safeFileName [54620; 46; 106; 112; 103] = [95; 46; 106; 112; 103] /\
  asciiString (safeFileName [54620; 46; 106; 112; 103]) = "_.jpg"%string.
Proof. repeat split; vm_compute; reflexivity. Qed.

Section PathFacts2.
Local Open Scope string_scope.

Lemma stripPrefix_app (p s : string) : stripPrefix p (p ++ s) = Some s.
Proof. induction p as [|a p IH]; cbn; [reflexivity|]. now rewrite Ascii.eqb_refl. Qed.

Lemma stripPrefix_Some (p s rest : string) : stripPrefix p s = Some rest -> s = p ++ rest.
Proof.
  revert s. induction p as [|a p IH]; intros s; cbn.
  - now intros [= ->].
  - destruct s as [|b s]; [discriminate|].
    destruct (Ascii.eqb_spec a b) as [->|]; [|discriminate].
    intros H. now rewrite (IH s H).
Qed.

Lemma untilSlash_app (seg rest : string) :
  allChars (fun c => negb (isSlash c)) seg = true ->
  untilSlash (seg ++ String "/" rest) = (seg, String "/" rest).
Proof.
  induction seg as [|c seg IH]; cbn; [reflexivity|].
  intros Hs. apply andb_prop in Hs as [Hc Hs]. apply negb_true_iff in Hc.
  now rewrite Hc, (IH Hs).
Qed.

Lemma untilSlash_spec (s seg rest : string) :
  untilSlash s = (seg, rest) ->
  s = seg ++ rest /\ allChars (fun c => negb (isSlash c)) seg = true.
Proof.
  revert seg rest. induction s as [|c s IH]; intros seg rest; cbn.
  - intros [= <- <-]. now split.
  - destruct (isSlash c) eqn:Hc.
    + intros [= <- <-]. now split.
    + destruct (untilSlash s) as [seg' rest']. intros [= <- <-].
      destruct (IH seg' rest' eq_refl) as [-> Hall]. cbn. now rewrite Hc, Hall.
Qed.

Lemma prefix_app (p s : string) : String.prefix p (p ++ s) = true.
Proof.
  induction p as [|a p IH]; cbn; [now destruct s|].
  destruct (Ascii.ascii_dec a a); [exact IH | congruence].
Qed.

Lemma parseEventId_path (eid kind rest : string) :
  eid <> EmptyString -> allChars (fun c => negb (isSlash c)) eid = true ->
  kind = "photos" \/ kind = "selfies" ->
  parseEventId ("events/" ++ eid ++ "/" ++ kind ++ "/" ++ rest) = eid.
Proof.
  intros Hne Hall Hkind. unfold parseEventId.
  rewrite stripPrefix_app.
  change ("/" ++ kind ++ "/" ++ rest) with (String "/" (kind ++ "/" ++ rest)).
  rewrite (untilSlash_app eid _ Hall).
  destruct (String.eqb_spec eid EmptyString) as [->|_]; [congruence|].
  destruct Hkind as [-> | ->].
  - change (String "/" ("photos" ++ "/" ++ rest)) with ("/photos/" ++ rest).
    now rewrite prefix_app.
  - change (String "/" ("selfies" ++ "/" ++ rest)) with ("/selfies/" ++ rest).
    rewrite prefix_app. now rewrite orb_true_r.
Qed.
End PathFacts2.

(** X16.  [safeKeyFromPath] returns a key without a slash whose length, in
    UTF-16 code units as [slice] counts, is that of the path up to 250:
    the first 250 code units of the path, an underscore in the place of
    every slash.  A path without a slash of at most 250 code units is its
    own key. *)
Theorem safeKeyFromPath_is_a_key (path : list nat) :
  forallb (fun c => negb (c =? 47)) (safeKeyFromPath path) = true /\
  length (safeKeyFromPath path) = min 250 (length path) /\
  (forall i c, i < 250 -> path !! i = Some c ->
     safeKeyFromPath path !! i = Some (if c =? 47 then 95 else c)) /\
  (forallb (fun c => negb (c =? 47)) path = true -> length path <= 250 ->
   safeKeyFromPath path = path).
Proof.
  unfold safeKeyFromPath. split; [|split; [|split]].
  - apply forallb_forall. intros c Hc. apply In_take in Hc.
    apply in_map_iff in Hc as (c0 & <- & _).
    destruct (Nat.eqb_spec c0 47) as [->|Hne]; [reflexivity|].
    now rewrite (proj2 (Nat.eqb_neq c0 47) Hne).
  - now rewrite length_take, length_map.
  - intros i c Hi Hc. rewrite lookup_take_lt by assumption.
    change (map ?f ?l) with (f <$> l). now rewrite list_lookup_fmap, Hc.
  - intros Hno Hlen. rewrite take_ge by (rewrite length_map; lia).
    rewrite <- (map_id path) at 2. apply map_ext_in. intros c Hc.
    rewrite forallb_forall in Hno. specialize (Hno c Hc).
    apply negb_true_iff in Hno. now rewrite Hno.
Qed.

(** X17.  [parseEventId] reads the event back from the paths under which the
    upload page stores a photo and the find page stores a selfie, whenever
    the event id is not empty and has no slash; and whatever the path, the
    id it returns has no slash and, when it is not empty, is the folder
    under [events/] the path starts with. *)
Theorem parseEventId_reads_the_event_back (eid : string) :
  (eid <> EmptyString -> allChars (fun c => negb (isSlash c)) eid = true ->
   (forall now number fileName, parseEventId (photoPath eid now number fileName) = eid) /\
   (forall uid fileName, parseEventId (selfiePath eid uid fileName) = eid)) /\
  (forall filePath,
     allChars (fun c => negb (isSlash c)) (parseEventId filePath) = true /\
     (parseEventId filePath <> EmptyString ->
      String.prefix ("events/" ++ parseEventId filePath ++ "/") filePath = true)).
Proof.
  split.
  - intros Hne Hall. split.
    + intros now number fileName. unfold photoPath.
      apply (parseEventId_path eid "photos"); auto.
    + intros uid fileName. unfold selfiePath.
      apply (parseEventId_path eid "selfies"); auto.
  - intros filePath. unfold parseEventId.
    destruct (stripPrefix "events/" filePath) as [rest|] eqn:Hstrip; [|split; [reflexivity | congruence]].
    destruct (untilSlash rest) as [seg tail] eqn:Hseg.
    destruct (String.eqb seg EmptyString); [split; [reflexivity | congruence]|].
    destruct (String.prefix "/photos/" tail || String.prefix "/selfies/" tail) eqn:Hkind;
      [|split; [reflexivity | congruence]].
    apply untilSlash_spec in Hseg as [-> Hall]. split; [exact Hall|]. intros _.
    apply stripPrefix_Some in Hstrip as ->.
    assert (Htail : exists t, tail = ("/" ++ t)%string).
    { apply orb_prop in Hkind as [H | H]; apply prefix_correct in H; cbn in H;
        destruct tail as [|c tail]; try discriminate;
        destruct tail; try discriminate; injection H as -> _; eauto. }
    destruct Htail as [t ->].
    replace ("events/" ++ seg ++ "/" ++ t)%string with (("events/" ++ seg ++ "/") ++ t)%string.
    + apply prefix_app.
    + cbn. f_equal. f_equal. f_equal. f_equal. f_equal. f_equal. f_equal.
      induction seg as [|c seg IH]; cbn; [reflexivity|]. f_equal. apply IH.
      cbn in Hall. now apply andb_prop in Hall as [_ Hall].
Qed.

Lemma parseEventId_reads_the_event_back_witness :
  parseEventId (photoPath "AAS2026" "1769817600000" "1" "run 1.jpg") = "AAS2026"%string.
Proof.
  apply (parseEventId_reads_the_event_back "AAS2026"); [discriminate | reflexivity].
Defined.

Section SelfieFacts.
Local Open Scope string_scope.

Lemma afterLast_no_sep (sep : ascii) (s t : string) :
  afterLast sep s = Some t -> allChars (fun c => negb (Ascii.eqb c sep)) t = true.
Proof.
  revert t. induction s as [|c s IH]; intros t; cbn; [discriminate|].
  destruct (afterLast sep s) as [t'|] eqn:Hs.
  - intros [= <-]. now apply IH.
  - destruct (Ascii.eqb c sep); [|discriminate]. intros [= <-].
    clear IH. induction s as [|d s IH]; cbn in *; [reflexivity|].
    destruct (afterLast sep s) as [t'|]; [discriminate|].
    destruct (Ascii.eqb d sep); [discriminate|]. cbn. now apply IH.
Qed.

Lemma afterLast_None (sep : ascii) (s : string) :
  afterLast sep s = None -> allChars (fun c => negb (Ascii.eqb c sep)) s = true.
Proof.
  induction s as [|c s IH]; cbn; [reflexivity|].
  destruct (afterLast sep s); [discriminate|].
  destruct (Ascii.eqb c sep); [discriminate|]. intros _. cbn. now apply IH.
Qed.

Lemma splitPop_no_sep (sep : ascii) (s : string) :
  allChars (fun c => negb (Ascii.eqb c sep)) (splitPop sep s) = true.
Proof.
  unfold splitPop. destruct (afterLast sep s) as [t|] eqn:H.
  - now apply afterLast_no_sep in H.
  - now apply afterLast_None.
Qed.
End SelfieFacts.

(** X18.  The extension [handleUploadSelfie] gives the stored selfie is never
    empty and has no dot; and once the selfie is listed in the folder,
    [loadSelfieUrlByUid] finds an item for the user: the first listed item
    whose name starts with the user id and a dot. *)
Theorem uploaded_selfie_is_found (uid fileName : string) (names : list string) :
  In (selfieName uid fileName) names ->
  selfieExt fileName <> EmptyString /\
  allChars (fun c => negb (Ascii.eqb c ".")) (selfieExt fileName) = true /\
  exists found, loadSelfieByUid uid names = Some found /\ In found names /\
    String.prefix (uid ++ ".") found = true.
Proof.
  intros Hin. split; [|split].
  - unfold selfieExt. destruct (String.eqb_spec (splitPop "." fileName) EmptyString); [discriminate | assumption].
  - unfold selfieExt. destruct (String.eqb (splitPop "." fileName) EmptyString); [reflexivity|].
    apply splitPop_no_sep.
  - unfold loadSelfieByUid.
    destruct (List.find (fun name => String.prefix (uid ++ ".") name) names) as [found|] eqn:Hfind.
    + apply List.find_some in Hfind as [Hfound Hpre]. eauto.
    + exfalso. apply (List.find_none _ _ Hfind) in Hin. cbv beta in Hin.
      unfold selfieName in Hin.
      replace (uid ++ "." ++ selfieExt fileName)%string
        with ((uid ++ ".") ++ selfieExt fileName)%string in Hin.
      * rewrite prefix_app in Hin. discriminate.
      * clear. induction uid as [|c uid IH]; cbn; [reflexivity | now rewrite IH].
Qed.

Lemma uploaded_selfie_is_found_witness :
  exists found, loadSelfieByUid "u2" ["u1.png"; "u2.jpeg"; "u20.jpg"]%string = Some found /\
    In found ["u1.png"; "u2.jpeg"; "u20.jpg"]%string /\ String.prefix "u2." found = true.
Proof.
  apply (uploaded_selfie_is_found "u2" "me.at.home.jpeg" ["u1.png"; "u2.jpeg"; "u20.jpg"]%string).
  cbn. auto.
Defined.

(** ** Compression *)

Section CompressFacts.
Context {N : JSNumber}.
Variable MathMax : num -> num -> num.
Variable qualityStep : num.
Variables (opts : compressOpts) (w : imageWorld).

Lemma lowerQuality_spec (steps : nat) : forall q qb sb earlier res tried,
  toBlobQ w qb = Some sb -> targetBytes opts < sb -> Forall (tooBig opts w) earlier ->
  lowerQuality MathMax qualityStep steps opts w q (Encoded qb sb) (earlier ++ [qb]) = (res, tried) ->
  length tried <= length (earlier ++ [qb]) + steps /\
  match res with
  | Some Original => False
  | Some (Encoded q' size) =>
      toBlobQ w q' = Some size /\
      exists earlier', tried = earlier' ++ [q'] /\ Forall (tooBig opts w) earlier'
  | None =>
      exists earlier' q', tried = earlier' ++ [q'] /\ toBlobQ w q' = None /\
        Forall (tooBig opts w) earlier'
  end.
Proof.
  induction steps as [|steps IH]; intros q qb sb earlier res tried Hqb Hbig Hearlier; cbn [lowerQuality].
  - intros [= <- <-]. split; [lia|]. split; [assumption|]. eauto.
  - set (q' := MathMax (minQuality opts) (nsub q qualityStep)).
    assert (Hall : Forall (tooBig opts w) (earlier ++ [qb])).
    { apply Forall_app. split; [assumption|]. constructor; [|constructor]. exists sb. now split. }
    destruct (toBlobQ w q') as [size|] eqn:Hq'.
    + destruct (size <=? targetBytes opts) eqn:Hfit.
      * intros [= <- <-]. rewrite !length_app. cbn. split; [lia|]. split; [assumption|]. eauto.
      * apply Nat.leb_gt in Hfit. destruct (nge (minQuality opts) q').
        -- intros [= <- <-]. rewrite !length_app. cbn. split; [lia|]. split; [assumption|]. eauto.
        -- intros Hrun. apply IH in Hrun as [Hlen Hres]; [|assumption|assumption|assumption].
           split; [|exact Hres]. rewrite !length_app in *. cbn in *. lia.
    + intros [= <- <-]. rewrite !length_app. cbn. split; [lia|]. eauto.
Qed.
End CompressFacts.

(** X19.  [compressImageToTarget] returns the file itself, without encoding
    anything, exactly when the file is within the target; otherwise it
    encodes at most nine times and resolves with the blob it encoded last:
    every encoding before that one was over the target, so the blob
    returned is the first that fits, or the last one tried when none fits.
    It throws only when the image does not load, the canvas gives no
    context, or an encoding gives no blob. *)
Theorem compressImageToTarget_returns_the_first_fit (N : JSNumber)
    (MathMax : num -> num -> num) (qualityStep : num)
    (fileSize : nat) (opts : compressOpts) (w : imageWorld) :
  let '(res, tried) := compressImageToTarget MathMax qualityStep fileSize opts w in
  length tried <= 9 /\
  (res = Some Original <-> fileSize <= targetBytes opts) /\
  (fileSize <= targetBytes opts -> tried = []) /\
  (forall q size, res = Some (Encoded q size) ->
     toBlobQ w q = Some size /\
     exists earlier, tried = earlier ++ [q] /\ Forall (tooBig opts w) earlier) /\
  (res = None ->
     imageLoads w = false \/ hasContext w = false \/
     exists earlier q, tried = earlier ++ [q] /\ toBlobQ w q = None /\
       Forall (tooBig opts w) earlier).
Proof.
  unfold compressImageToTarget.
  destruct (fileSize <=? targetBytes opts) eqn:Hsize.
  { apply Nat.leb_le in Hsize. cbn. split; [lia|]. split; [tauto|]. split; [reflexivity|].
    split; [discriminate | discriminate]. }
  apply Nat.leb_gt in Hsize.
  destruct (imageLoads w); cbn [negb].
  2:{ cbn. split; [lia|]. split; [split; [discriminate | lia]|]. split; [lia|].
      split; [discriminate | auto]. }
  destruct (hasContext w); cbn [negb].
  2:{ cbn. split; [lia|]. split; [split; [discriminate | lia]|]. split; [lia|].
      split; [discriminate | auto]. }
  destruct (toBlobQ w (startQuality opts)) as [size|] eqn:Hstart.
  2:{ cbn. split; [lia|]. split; [split; [discriminate | lia]|]. split; [lia|].
      split; [discriminate|]. intros _. right. right.
      exists [], (startQuality opts). auto. }
  destruct (size <=? targetBytes opts) eqn:Hfit.
  { cbn. split; [lia|]. split; [split; [discriminate | lia]|]. split; [lia|]. split.
    - intros q sz [= <- <-]. split; [assumption|]. exists []. auto.
    - discriminate. }
  apply Nat.leb_gt in Hfit.
  destruct (lowerQuality MathMax qualityStep 8 opts w (startQuality opts)
              (Encoded (startQuality opts) size) [startQuality opts]) as [res tried] eqn:Hrun.
  apply (lowerQuality_spec MathMax qualityStep opts w 8 _ _ _ []) in Hrun as [Hlen Hres];
    [|assumption|assumption|constructor].
  cbn in Hlen. split; [lia|]. split; [|split; [lia|split]].
  - split; [|lia]. intros ->. contradiction.
  - intros q sz ->. exact Hres.
  - intros ->. right. right. exact Hres.
Qed.

(** ** The upload page, the lightbox and the moments *)

Section PickFacts.
Variable showNat : nat -> string.

Lemma dedupe_spec (fs : list pickedFile) : forall seen,
  let out := dedupe showNat seen fs in
  out `sublist_of` fs /\
  List.NoDup (map (fileKey showNat) out) /\
  (forall f, In f out -> ~ In (fileKey showNat f) seen) /\
  (forall f, In f fs -> In (fileKey showNat f) seen \/
                        exists g, In g out /\ fileKey showNat g = fileKey showNat f).
Proof.
  induction fs as [|f fs IH]; intros seen; cbn.
  - split; [constructor|]. split; [constructor|]. split; [intros f []|intros f []].
  - destruct (existsb (String.eqb (fileKey showNat f)) seen) eqn:Hseen.
    + destruct (IH seen) as (Hsub & Hnd & Hfresh & Hcover).
      split; [now apply sublist_cons|]. split; [assumption|]. split; [assumption|].
      intros g [<- | Hg]; [|now apply Hcover].
      left. apply existsb_exists in Hseen as (k & Hk & Heq).
      apply String.eqb_eq in Heq. now subst.
    + destruct (IH (fileKey showNat f :: seen)) as (Hsub & Hnd & Hfresh & Hcover).
      assert (Hnot : ~ In (fileKey showNat f) seen).
      { intros Hin.
        assert (Hyes : existsb (String.eqb (fileKey showNat f)) seen = true).
        { apply existsb_exists. exists (fileKey showNat f).
          split; [assumption | apply String.eqb_refl]. }
        congruence. }
      split; [now apply sublist_skip|]. split; [|split].
      * cbn. constructor; [|assumption].
        intros Hin. apply in_map_iff in Hin as (g & Hkey & Hg).
        apply (Hfresh g Hg). left. now symmetry.
      * intros g [<- | Hg]; [assumption|].
        intros Hin. apply (Hfresh g Hg). now right.
      * intros g [<- | Hg].
        -- right. exists f. split; [now left | reflexivity].
        -- destruct (Hcover g Hg) as [[Heq | Hin] | (h & Hh & Hkey)].
           ++ right. exists f. split; [now left | assumption].
           ++ now left.
           ++ right. exists h. split; [now right | assumption].
Qed.

Lemma dedupe_id (fs : list pickedFile) : forall seen,
  List.NoDup (map (fileKey showNat) fs) ->
  (forall f, In f fs -> ~ In (fileKey showNat f) seen) ->
  dedupe showNat seen fs = fs.
Proof.
  induction fs as [|f fs IH]; intros seen Hnd Hfresh; cbn; [reflexivity|].
  cbn in Hnd. apply List.NoDup_cons_iff in Hnd as [Hf Hnd].
  destruct (existsb (String.eqb (fileKey showNat f)) seen) eqn:Hseen.
  - exfalso. apply existsb_exists in Hseen as (k & Hk & Heq).
    apply String.eqb_eq in Heq. subst k. apply (Hfresh f); [now left | assumption].
  - f_equal. apply IH; [assumption|].
    intros g Hg [Heq | Hin].
    + apply Hf. rewrite Heq. now apply in_map.
    + apply (Hfresh g); [now right | assumption].
Qed.

Lemma filter_id {A : Type} (P : A -> bool) (l : list A) :
  List.Forall (fun x => P x = true) l -> List.filter P l = l.
Proof.
  induction 1 as [|x l Hx _ IH]; cbn; [reflexivity|]. now rewrite Hx, IH.
Qed.
End PickFacts.

(** X20.  [normalizePickedFiles] returns images only, at most 6000, in the order
    in which they were picked, no two with the same key (name, size and
    modification time); with no more than 6000 distinct images picked,
    every image picked has its key among them.  Normalizing twice is
    normalizing once. *)
Theorem normalizePickedFiles_dedupes (showNat : nat -> string)
    (input : list pickedFile) :
  let out := normalizePickedFiles showNat input in
  out `sublist_of` input /\
  Forall (fun f => isImage f = true) out /\
  List.NoDup (map (fileKey showNat) out) /\
  length out <= 6000 /\
  (length (dedupe showNat [] (List.filter isImage input)) <= 6000 ->
   forall f, In f input -> isImage f = true ->
     exists g, In g out /\ fileKey showNat g = fileKey showNat f) /\
  normalizePickedFiles showNat out = out.
Proof.
  cbv zeta. unfold normalizePickedFiles, MAX_PICK.
  set (images := List.filter isImage input).
  destruct (dedupe_spec showNat images []) as (Hsub & Hnd & _ & Hcover). cbv zeta in *.
  set (unique := dedupe showNat [] images) in *.
  assert (Himg : Forall (fun f => isImage f = true) (take 6000 unique)).
  { apply Forall_forall. intros f Hf. apply In_take in Hf.
    assert (Hin : In f images).
    { apply list_elem_of_In. eapply sublist_subseteq; [exact Hsub|]. now apply list_elem_of_In. }
    now apply List.filter_In in Hin as [_ Hin]. }
  assert (Hnd' : List.NoDup (map (fileKey showNat) (take 6000 unique))).
  { apply NoDup_ListNoDup. eapply sublist_NoDup; [apply NoDup_ListNoDup, Hnd|].
    apply sublist_map, sublist_take. }
  split; [|split; [|split; [|split; [|split]]]].
  - etransitivity; [apply sublist_take|]. etransitivity; [exact Hsub|].
    unfold images. clear. induction input as [|f input IH]; cbn; [constructor|].
    destruct (isImage f); [now apply sublist_skip | now apply sublist_cons].
  - exact Himg.
  - exact Hnd'.
  - rewrite length_take. lia.
  - intros Hlen f Hf Hi. rewrite take_ge by lia.
    destruct (Hcover f) as [[] | H]; [|exact H].
    apply List.filter_In. now split.
  - rewrite (filter_id isImage) by exact Himg.
    rewrite (dedupe_id showNat) by (first [exact Hnd' | intros f _ []]).
    apply take_ge. rewrite length_take. lia.
Qed.

(** ** The counters of an upload *)

Section UploadFacts.
Context {N : JSNumber}.
Variable MathMax : num -> num -> num.
Variable showNat : nat -> string.
Variables (qualityStep startQ minQ : num).
Variables (eid : string) (files : list pickedFile) (settings : uploadSettings)
  (world : nat -> fileWorld).

Lemma processFile_doc (fw : fileWorld) (file : pickedFile) (index : nat) (doc : storedDoc) :
  processFile MathMax showNat qualityStep startQ minQ eid settings fw file index = Some doc ->
  stored_embedding doc <> [] /\ stored_embDim doc = length (stored_embedding doc) /\
  stored_fileName doc = fileName file /\ stored_eventId doc = eid /\
  stored_fullPath doc = photoPath eid (showNat (clock fw)) (showNat (index + 1)) (fileName file) /\
  uploadOk fw = true /\ addDocOk fw = true /\ embedTimesOut fw = false /\
  exists status body, embedAnswer fw = Some (status, body) /\
    embedFace_v1 status body = V1Embedding (stored_embedding doc).
Proof.
  unfold processFile.
  destruct (blobToUse _ _ _ _ _ _ _) as [bytes|]; [|discriminate].
  destruct (uploadOk fw); [|discriminate]. cbn [negb].
  destruct (downloadUrl fw) as [url|]; [|discriminate].
  destruct (embeddingOf fw) as [emb|] eqn:Hemb; [|discriminate].
  destruct (addDocOk fw); [|discriminate]. cbn [negb].
  intros [= <-]. cbn.
  unfold embeddingOf in Hemb.
  destruct (embedTimesOut fw); [discriminate|].
  destruct (embedAnswer fw) as [[status body]|]; [|discriminate].
  destruct (embedFace_v1 status body) as [[|e es]| | |] eqn:Hv1; try discriminate.
  injection Hemb as <-.
  repeat split; try reflexivity; [discriminate|]. eauto.
Qed.

(** The counters after the workers of [order] have completed. *)
Lemma fileDone_fold (order : list nat) : forall s,
  let s' := fold_left
              (fun s i => match files !! i with
                          | Some file => fileDone MathMax showNat qualityStep startQ minQ
                                           eid settings world file i s
                          | None => s
                          end) order s in
  Forall (fun i => i < length files) order ->
  doneCount s' = doneCount s + length order /\
  okCount s' + errCount s' = okCount s + errCount s + length order /\
  length (docs s') - length (docs s) = okCount s' - okCount s /\
  okCount s <= okCount s' /\ length (docs s) <= length (docs s') /\
  (forall doc, In doc (docs s') -> In doc (docs s) \/
     exists i file, In i order /\ files !! i = Some file /\
       processFile MathMax showNat qualityStep startQ minQ eid settings (world i) file i
         = Some doc).
Proof.
  induction order as [|i order IH]; intros s; cbn [fold_left]; cbv zeta.
  - intros _. cbn. repeat split; try lia. intros doc Hdoc. now left.
  - intros Hall. apply list.Forall_cons in Hall as [Hi Hall].
    destruct (files !! i) as [file|] eqn:Hfile; [|apply lookup_ge_None in Hfile; lia].
    specialize (IH (fileDone MathMax showNat qualityStep startQ minQ eid settings world file i s) Hall).
    cbv zeta in IH. destruct IH as (Hd & Hoe & Hdocs & Hok & Hlen & Hfrom).
    set (s' := fold_left _ order _) in *.
    unfold fileDone in Hd, Hoe, Hdocs, Hok, Hlen, Hfrom.
    destruct (processFile MathMax showNat qualityStep startQ minQ eid settings (world i) file i)
      as [doc0|] eqn:Hp; cbn in Hd, Hoe, Hdocs, Hok, Hlen, Hfrom;
      rewrite ?length_app in *; cbn [length] in *.
    + repeat split; try lia. intros doc Hdoc.
      destruct (Hfrom doc Hdoc) as [Hold | (j & fj & Hj & Hfj & Hpj)].
      * apply in_app_or in Hold as [Hold | [<- | []]]; [now left|].
        right. exists i, file. split; [now left | now split].
      * right. exists j, fj. split; [now right | now split].
    + repeat split; try lia. intros doc Hdoc.
      destruct (Hfrom doc Hdoc) as [Hold | (j & fj & Hj & Hfj & Hpj)]; [now left|].
      right. exists j, fj. split; [now right | now split].
Qed.
End UploadFacts.

(** What [runWithConcurrency] does with the number of workers that
    [runUpload] asks for. *)
Lemma runWithConcurrencyOf_clamped {T R St : Type} (worker : T -> nat -> R)
    (effect : T -> nat -> St -> St) (items : list T) (c : inputNumber) (s0 : St)
    (schedule : list nat) :
  match inputMax 1 (inputMin 16 c) with
  | Whole _ =>
      exists runners, 1 <= runners <= 16 /\
        runWithConcurrencyOf worker effect items (inputMax 1 (inputMin 16 c)) s0 schedule =
        Some (runWithConcurrency worker effect items runners s0 schedule)
  | _ => runWithConcurrencyOf worker effect items (inputMax 1 (inputMin 16 c)) s0 schedule = None
  end.
Proof.
  assert (Hwhole : forall m : Z, (1 <= m <= 16)%Z ->
            exists runners, 1 <= runners <= 16 /\
              runWithConcurrencyOf worker effect items (Whole m) s0 schedule =
              Some (runWithConcurrency worker effect items runners s0 schedule)).
  { intros m Hm. exists (Z.to_nat m). split; [lia|].
    unfold runWithConcurrencyOf, inputMax, arrayLength.
    rewrite Z.max_r by lia.
    rewrite (proj2 (Z.leb_le 0 m)) by lia.
    change (2 ^ 32)%Z with 4294967296%Z. rewrite (proj2 (Z.ltb_lt m 4294967296)) by lia.
    reflexivity. }
  destruct c as [n | below |]; cbn [inputMin].
  - cbn [inputMax]. apply Hwhole. lia.
  - destruct (16 <=? below)%Z eqn:Hhi; cbn [inputMax].
    + apply Hwhole. lia.
    + destruct (below <? 1)%Z eqn:Hlo.
      * apply Hwhole. lia.
      * unfold runWithConcurrencyOf. cbn [inputMax]. now rewrite Hlo.
  - reflexivity.
Qed.

(** X21.  Once [runUpload] has an event id, files and the event document,
    it ends with [uploading] off.  When the number of workers it asks for,
    [Math.max(1, Math.min(16, uploadConcurrency))], is a whole number, then
    whatever each step does to each file and in whatever order the workers
    complete, it ends with [done] at the number of files, every file
    counted as a success or as an error, one stored document per success,
    each for one of the files, with the non-empty embedding array the
    earlier [embedFace] returned for it, stored under the event and under
    a path of the event, and it navigates to the event page.  When that
    number is not whole ([uploadConcurrency] is NaN or a fraction between 1
    and 16), [runWithConcurrency] throws before any file is taken: the
    counters stay at 0, nothing is stored and the page does not
    navigate. *)
Theorem runUpload_counts_every_file (N : JSNumber) (MathMax : num -> num -> num)
    (showNat : nat -> string) (qualityStep startQ minQ : num)
    (eid : string) (files : list pickedFile) (settings : uploadSettings)
    (world : nat -> fileWorld) (schedule : list nat) :
  eid <> EmptyString -> files <> [] ->
  let run := runUpload MathMax showNat qualityStep startQ minQ eid files settings true
               world schedule in
  uploading run = false /\
  (wholeConcurrency settings = true ->
   navigated run = true /\
   doneCount (counters run) = length files /\
   okCount (counters run) + errCount (counters run) = length files /\
   length (docs (counters run)) = okCount (counters run) /\
   forall doc, In doc (docs (counters run)) ->
     stored_eventId doc = eid /\ stored_embedding doc <> [] /\
     stored_embDim doc = length (stored_embedding doc) /\
     String.prefix ("events/" ++ eid ++ "/photos/") (stored_fullPath doc) = true /\
     exists i file status body,
       files !! i = Some file /\ stored_fileName doc = fileName file /\
       embedAnswer (world i) = Some (status, body) /\
       embedFace_v1 status body = V1Embedding (stored_embedding doc)) /\
  (wholeConcurrency settings = false ->
   navigated run = false /\
   counters run = {| doneCount := 0; okCount := 0; errCount := 0; docs := [] |}).
Proof.
  intros Heid Hfiles. cbv zeta. unfold runUpload, wholeConcurrency.
  destruct (String.eqb_spec eid EmptyString); [congruence|].
  destruct files as [|f0 rest] eqn:Hf; [congruence|]. rewrite <- Hf in *.
  assert (Hlen : (length files =? 0) = false) by (rewrite Hf; reflexivity).
  rewrite Hlen. cbn [negb].
  set (zero := {| doneCount := 0; okCount := 0; errCount := 0; docs := [] |}).
  set (effect := fileDone MathMax showNat qualityStep startQ minQ eid settings world).
  pose proof (runWithConcurrencyOf_clamped (fun _ _ => tt) effect files
                (uploadConcurrency settings) zero schedule) as Hcall.
  destruct (inputMax 1 (inputMin 16 (uploadConcurrency settings))) as [m | below |];
    [| rewrite Hcall; cbn; split; [reflexivity|]; split; [discriminate | now split] ..].
  destruct Hcall as (c & Hc & ->). cbn [uploading navigated counters].
  split; [reflexivity|]. split; [intros _ | discriminate].
  assert (HR : 1 <= max 1 c) by lia.
  destruct (runPool_ok (fun _ _ => tt) effect true files _ zero schedule HR) as [Hok Hempty].
  destruct (pool_all_settled (fun _ _ => tt) effect files _ zero _ Hok Hempty) as [_ Hperm].
  fold (runWithConcurrency (fun _ _ => tt) effect files c zero schedule) in Hok, Hempty, Hperm.
  rewrite (ok_shared _ _ _ _ _ _ Hok).
  set (order := settledLog (runWithConcurrency (fun _ _ => tt) effect files c zero schedule)) in *.
  assert (Hall : Forall (fun i => i < length files) order).
  { apply Forall_forall. intros i Hi. apply list_elem_of_In in Hi. rewrite Hperm in Hi.
    apply list_elem_of_In, in_seq in Hi. lia. }
  assert (Horder : length order = length files).
  { rewrite Hperm. apply length_seq. }
  destruct (fileDone_fold MathMax showNat qualityStep startQ minQ eid files settings world
              order zero Hall) as (Hd & Hoe & Hdocs & Hokc & Hlend & Hfrom).
  cbn [doneCount okCount errCount docs zero length] in Hd, Hoe, Hdocs, Hokc, Hlend.
  split; [reflexivity|].
  split; [unfold effect; lia|]. split; [unfold effect; lia|]. split; [unfold effect; lia|].
  intros doc Hdoc. destruct (Hfrom doc Hdoc) as [[] | (i & file & Hi & Hfile & Hp)].
  apply processFile_doc in Hp
    as (Hemb & Hdim & Hname & Hev & Hpath & _ & _ & _ & status & body & Hans & Hv1).
  split; [assumption|]. split; [assumption|]. split; [assumption|]. split.
  - rewrite Hpath. unfold photoPath.
    replace ("events/" ++ eid ++ "/photos/" ++ showNat (clock (world i)) ++ "_" ++
             showNat (i + 1) ++ "_" ++
             asciiString (safeFileName (codeUnits (fileName file))))%string
      with (("events/" ++ eid ++ "/photos/") ++ showNat (clock (world i)) ++ "_" ++
             showNat (i + 1) ++ "_" ++
             asciiString (safeFileName (codeUnits (fileName file))))%string.
    + apply prefix_app.
    + cbn. do 7 f_equal. clear. induction eid as [|ch e IH]; cbn; [reflexivity | now rewrite IH].
  - exists i, file, status, body. auto.
Qed.

Lemma runUpload_counts_every_file_witness :
  (doneCount (counters sampleUpload) = 2 /\
   okCount (counters sampleUpload) + errCount (counters sampleUpload) = 2 /\
   length (docs (counters sampleUpload)) = okCount (counters sampleUpload)) /\
  navigated sampleUploadFractional = false /\
  doneCount (counters sampleUploadFractional) = 0.
Proof.
  split.
  - destruct (runUpload_counts_every_file Float64 floatMax showDecimal
                0x1.47ae147ae147bp-4%float 0x1.c28f5c28f5c29p-1%float 0x1.0a3d70a3d70a4p-1%float
                "e1" samplePicked sampleSettings sampleFileWorld [1; 0])
      as (_ & Hwhole & _); [discriminate | discriminate |].
    destruct (Hwhole eq_refl) as (_ & Hd & Hoe & Hdocs & _).
    split; [exact Hd|]. split; [exact Hoe | exact Hdocs].
  - destruct (runUpload_counts_every_file Float64 floatMax showDecimal
                0x1.47ae147ae147bp-4%float 0x1.c28f5c28f5c29p-1%float 0x1.0a3d70a3d70a4p-1%float
                "e1" samplePicked sampleSettingsFractional sampleFileWorld [1; 0])
      as (_ & _ & Hfrac); [discriminate | discriminate |].
    destruct (Hfrac eq_refl) as (Hnav & Hzero).
    split; [exact Hnav|]. unfold sampleUploadFractional. now rewrite Hzero.
Defined.

(** ** The lightbox *)

(** X22.  With the lightbox opened on one of the matches, no sequence of keys
    moves the index off the matches: the left arrow stops at the first and
    the right arrow at the last. *)
Theorem lightbox_index_stays_on_the_matches (matchesLength i : nat) (keys : list key) :
  i < matchesLength ->
  let lb := fold_left (fun lb k => onKey matchesLength k lb) keys
              (openLightbox i {| lightboxOpen := false; activeIndex := 0 |}) in
  (0 <= activeIndex lb < Z.of_nat matchesLength)%Z /\
  activeIndex (onKey matchesLength ArrowLeft
                 {| lightboxOpen := true; activeIndex := 0 |}) = 0%Z /\
  activeIndex (onKey matchesLength ArrowRight
                 {| lightboxOpen := true; activeIndex := Z.of_nat matchesLength - 1 |})
    = (Z.of_nat matchesLength - 1)%Z.
Proof.
  intros Hi. cbv zeta. split; [|split].
  - unfold openLightbox.
    assert (Hstart : (0 <= Z.of_nat i < Z.of_nat matchesLength)%Z) by lia.
    generalize dependent (Z.of_nat i). intros v Hv. generalize true.
    revert v Hv. induction keys as [|k keys IH]; intros v Hv b; cbn [fold_left]; [exact Hv|].
    unfold onKey at 2. cbn [lightboxOpen activeIndex].
    destruct b; cbn [negb]; [|now apply IH].
    destruct k; apply IH; lia.
  - cbn. lia.
  - cbn. lia.
Qed.

Lemma lightbox_index_stays_on_the_matches_witness :
  (0 <= activeIndex (fold_left (fun lb k => onKey 3 k lb)
                       [ArrowRight; ArrowRight; ArrowRight; ArrowLeft; Escape; ArrowLeft]
                       (openLightbox 1 {| lightboxOpen := false; activeIndex := 0 |})) < 3)%Z.
Proof.
  apply (lightbox_index_stays_on_the_matches 3 1
           [ArrowRight; ArrowRight; ArrowRight; ArrowLeft; Escape; ArrowLeft]). lia.
Defined.

(** ** The moments *)

Section MomentFacts.
Local Open Scope string_scope.

Lemma setHas_In (id : string) (s : list string) : setHas id s = true <-> In id s.
Proof.
  unfold setHas. rewrite existsb_exists. split.
  - intros (x & Hx & Heq). apply String.eqb_eq in Heq. now subst.
  - intros H. exists id. split; [assumption | apply String.eqb_refl].
Qed.

Lemma setDelete_In (id x : string) (s : list string) :
  In x (setDelete id s) <-> In x s /\ x <> id.
Proof.
  unfold setDelete. rewrite List.filter_In, negb_true_iff, String.eqb_neq.
  split; intros [H1 H2]; split; auto.
Qed.

Lemma setAdd_NoDup (id : string) (s : list string) :
  List.NoDup s -> List.NoDup (setAdd id s).
Proof.
  intros Hnd. unfold setAdd. destruct (setHas id s) eqn:Hhas; [assumption|].
  apply List.NoDup_app; [assumption | repeat constructor; intros [] |].
  intros x Hx [<- | []]. apply setHas_In in Hx. congruence.
Qed.

Lemma setAdd_length (id : string) (s : list string) :
  length (setAdd id s) <= S (length s).
Proof.
  unfold setAdd. destruct (setHas id s); [lia|]. rewrite length_app. cbn. lia.
Qed.
End MomentFacts.

(** X23.  At most eight moments are ever selected: [toggleMoment] never takes
    a selection of at most eight beyond eight (nor adds a repetition),
    always removes a selected photo, and adds an unselected one exactly
    when fewer than eight are selected; [applyAutoMoments] selects at most
    eight; and [saveMoments] stores at most eight, all of them selected
    photos of the event. *)
Theorem moments_are_at_most_eight (id : string) (prev photoIds : list string) :
  List.NoDup prev -> length prev <= 8 ->
  List.NoDup (toggleMoment id prev) /\ length (toggleMoment id prev) <= 8 /\
  (In id prev -> ~ In id (toggleMoment id prev)) /\
  (~ In id prev -> (In id (toggleMoment id prev) <-> length prev < 8)) /\
  (forall x, x <> id -> (In x (toggleMoment id prev) <-> In x prev)) /\
  length (applyAutoMoments photoIds) <= 8 /\
  length (chosenMoments photoIds prev) <= 8 /\
  (forall x, In x (chosenMoments photoIds prev) -> In x photoIds /\ In x prev).
Proof.
  intros Hnd Hlen. unfold toggleMoment.
  split; [|split; [|split; [|split; [|split; [|split; [|split]]]]]].
  - destruct (setHas id prev) eqn:Hhas.
    + now apply List.NoDup_filter.
    + destruct (8 <=? length prev); [assumption | now apply setAdd_NoDup].
  - destruct (setHas id prev) eqn:Hhas.
    + unfold setDelete. pose proof (List.filter_length_le (fun x => negb (String.eqb id x)) prev). lia.
    + destruct (8 <=? length prev) eqn:Hfull; [lia|]. apply Nat.leb_gt in Hfull.
      pose proof (setAdd_length id prev). lia.
  - intros Hin. rewrite (proj2 (setHas_In id prev) Hin).
    intros Hd. apply setDelete_In in Hd as [_ Hd]. congruence.
  - intros Hnin. destruct (setHas id prev) eqn:Hhas; [apply setHas_In in Hhas; contradiction|].
    destruct (8 <=? length prev) eqn:Hfull.
    + apply Nat.leb_le in Hfull. split; [contradiction | lia].
    + apply Nat.leb_gt in Hfull. unfold setAdd. rewrite Hhas. split; [lia|].
      intros _. apply in_or_app. right. now left.
  - intros x Hx. destruct (setHas id prev) eqn:Hhas.
    + rewrite setDelete_In. tauto.
    + destruct (8 <=? length prev); [reflexivity|]. unfold setAdd. rewrite Hhas.
      rewrite in_app_iff. cbn. split; [intros [H | [H | []]]; [assumption | congruence] | auto].
  - unfold applyAutoMoments.
    assert (H : forall l acc, length (fold_left (fun s x => setAdd x s) l acc) <= length acc + length l).
    { induction l as [|x l IH]; intros acc; cbn; [lia|].
      specialize (IH (setAdd x acc)). pose proof (setAdd_length x acc). lia. }
    specialize (H (take 8 photoIds) []). rewrite length_take in H. cbn [length] in H. lia.
  - unfold chosenMoments. rewrite length_take. lia.
  - intros x Hx. unfold chosenMoments in Hx. apply In_take, List.filter_In in Hx as [Hp Hs].
    split; [assumption | now apply setHas_In].
Qed.

Lemma moments_are_at_most_eight_witness :
  length (toggleMoment "p9" ["p1"; "p2"; "p3"; "p4"; "p5"; "p6"; "p7"; "p8"]%string) <= 8.
Proof.
  apply (moments_are_at_most_eight "p9" ["p1"; "p2"; "p3"; "p4"; "p5"; "p6"; "p7"; "p8"]%string []).
  - repeat (constructor; [cbn; intuition discriminate|]). constructor.
  - cbn. lia.
Defined.

(** ** The earlier upload page *)

Section UploadSequentialFacts.
Context {N : JSNumber}.
Variable MathMax : num -> num -> num.
Variable showNat : nat -> string.
Variables (qualityStep startQ minQ : num).
Variables (eid : string) (files : list pickedFile) (settings : uploadSettings)
  (world : nat -> fileWorld).

Lemma processFile_sequential (fw : fileWorld) (file : pickedFile) (i : nat) :
  enableCompress settings = false -> embedTimesOut fw = false ->
  withoutSizes <$> processFile MathMax showNat qualityStep startQ minQ eid settings fw file i =
  processFileSequential showNat eid fw file i.
Proof.
  intros Hc Ht. unfold processFile, processFileSequential, blobToUse, embeddingOf.
  rewrite Hc, Ht. cbn [andb].
  destruct (uploadOk fw); cbn [negb]; [|reflexivity].
  destruct (downloadUrl fw) as [url|]; [|reflexivity].
  destruct (embedAnswer fw) as [[status body]|]; [|reflexivity].
  destruct (embedFace_v1 status body) as [[|e es]| | |]; try reflexivity.
  destruct (addDocOk fw); reflexivity.
Qed.

(** The documents after the workers of [order] have completed. *)
Lemma fileDone_docs (order : list nat) : forall s,
  docs (fold_left
          (fun s i => match files !! i with
                      | Some file => fileDone MathMax showNat qualityStep startQ minQ
                                       eid settings world file i s
                      | None => s
                      end) order s) =
  docs s ++ omap (fun i => files !! i ≫=
                    fun file => processFile MathMax showNat qualityStep startQ minQ
                                  eid settings (world i) file i) order.
Proof.
  induction order as [|i order IH]; intros s; cbn [fold_left omap list_omap].
  - now rewrite app_nil_r.
  - rewrite IH. destruct (files !! i) as [file|]; cbn [mbind option_bind]; [|reflexivity].
    unfold fileDone.
    destruct (processFile MathMax showNat qualityStep startQ minQ eid settings (world i) file i);
      cbn [docs]; [now rewrite <- app_assoc | reflexivity].
Qed.

Lemma uploadEach_spec (rest : list pickedFile) : forall before done stored,
  files = before ++ rest ->
  uploadEach showNat eid world (length before) rest done stored =
  (done + length rest,
   stored ++ omap (fun i => files !! i ≫=
                     fun file => processFileSequential showNat eid (world i) file i)
               (seq (length before) (length rest))).
Proof.
  induction rest as [|file rest IH]; intros before done stored Hfiles; cbn [uploadEach length seq].
  - cbn. now rewrite Nat.add_0_r, app_nil_r.
  - specialize (IH (before ++ [file]) (S done)
                  (match processFileSequential showNat eid (world (length before)) file
                           (length before) with
                   | Some doc => stored ++ [doc]
                   | None => stored
                   end)).
    rewrite length_app, Nat.add_1_r in IH. rewrite IH by (now rewrite <- app_assoc).
    f_equal; [lia|]. cbn [omap list_omap].
    assert (Hat : files !! length before = Some file).
    { rewrite Hfiles, lookup_app_r by lia. now rewrite Nat.sub_diag. }
    rewrite Hat. cbn [mbind option_bind].
    destruct (processFileSequential showNat eid (world (length before)) file (length before));
      [now rewrite <- app_assoc | reflexivity].
Qed.
End UploadSequentialFacts.

(** X24.  With compression off, no [embedFace] call timing out and a whole
    number of workers asked for, the later upload page, which works on
    several files at a time, stores what the earlier page, which took one
    file after the other, stored: the same documents up to their order
    (and to the two sizes the later page adds), with the same [done]
    count, the same alerts and the same navigation, whatever the services
    do and in whatever order the workers complete.  (With a number of
    workers that is not whole the later page stores nothing, where the
    earlier page, which has no such setting, goes through the files.) *)
Theorem runUpload_stores_what_the_sequential_upload_stored (N : JSNumber)
    (MathMax : num -> num -> num) (showNat : nat -> string) (qualityStep startQ minQ : num)
    (eid : string) (files : list pickedFile) (settings : uploadSettings) (ensureOk : bool)
    (world : nat -> fileWorld) (schedule : list nat) :
  enableCompress settings = false -> (forall i, embedTimesOut (world i) = false) ->
  wholeConcurrency settings = true ->
  let run := runUpload MathMax showNat qualityStep startQ minQ eid files settings ensureOk
               world schedule in
  let earlier := runUploadSequential showNat eid files ensureOk world in
  alerted run = v1_alerted earlier /\ uploading run = v1_uploading earlier /\
  navigated run = v1_navigated earlier /\
  doneCount (counters run) = v1_done earlier /\
  map withoutSizes (docs (counters run)) ≡ₚ v1_docs earlier.
Proof.
  intros Hc Ht Hwhole. cbv zeta. unfold runUpload, runUploadSequential.
  destruct (String.eqb eid EmptyString); [now repeat split|].
  destruct (length files =? 0) eqn:Hlen; [now repeat split|].
  destruct ensureOk; cbn [negb]; [|now repeat split].
  pose proof (uploadEach_spec showNat eid files world files [] 0 [] eq_refl) as Hseq.
  cbn [length Nat.add app] in Hseq. rewrite Hseq.
  set (zero := {| doneCount := 0; okCount := 0; errCount := 0; docs := [] |}).
  set (effect := fileDone MathMax showNat qualityStep startQ minQ eid settings world).
  pose proof (runWithConcurrencyOf_clamped (fun _ _ => tt) effect files
                (uploadConcurrency settings) zero schedule) as Hcall.
  unfold wholeConcurrency in Hwhole.
  destruct (inputMax 1 (inputMin 16 (uploadConcurrency settings))) as [m | below |];
    [| discriminate ..].
  destruct Hcall as (c & _ & ->).
  cbn [length Nat.add app alerted uploading navigated counters
       v1_alerted v1_uploading v1_navigated v1_done v1_docs].
  assert (HR : 1 <= max 1 c) by lia.
  destruct (runPool_ok (fun _ _ => tt) effect true files _ zero schedule HR) as [Hok Hempty].
  destruct (pool_all_settled (fun _ _ => tt) effect files _ zero _ Hok Hempty) as [_ Hperm].
  fold (runWithConcurrency (fun _ _ => tt) effect files c zero schedule) in Hok, Hempty, Hperm.
  rewrite (ok_shared _ _ _ _ _ _ Hok).
  set (order := settledLog (runWithConcurrency (fun _ _ => tt) effect files c zero schedule)) in *.
  assert (Hall : Forall (fun i => i < length files) order).
  { apply Forall_forall. intros i Hi. apply list_elem_of_In in Hi. rewrite Hperm in Hi.
    apply list_elem_of_In, in_seq in Hi. lia. }
  destruct (fileDone_fold MathMax showNat qualityStep startQ minQ eid files settings world
              order zero Hall) as (Hd & _).
  split; [reflexivity|]. split; [reflexivity|]. split; [reflexivity|]. split.
  - unfold effect. rewrite Hd. cbn. rewrite Hperm. apply length_seq.
  - unfold effect. rewrite fileDone_docs. cbn [docs zero app].
    change (map withoutSizes ?l) with (withoutSizes <$> l).
    rewrite list_fmap_omap, Hperm.
    erewrite list_omap_ext; [reflexivity|].
    apply Forall2_same_length_lookup. split; [reflexivity|].
    intros i x y Hx Hy. assert (x = y) by congruence. subst y.
    destruct (files !! x) as [file|]; cbn [mbind option_bind fmap option_fmap option_map];
      [|reflexivity].
    now apply processFile_sequential.
Qed.

Lemma runUpload_stores_what_the_sequential_upload_stored_witness :
  map withoutSizes
    (docs (counters (runUpload (N:=Float64) floatMax showDecimal
                       0x1.47ae147ae147bp-4%float 0x1.c28f5c28f5c29p-1%float
                       0x1.0a3d70a3d70a4p-1%float
                       "e1" samplePicked sampleSettingsPlain true sampleFileWorld [1; 0])))
  ≡ₚ v1_docs (runUploadSequential showDecimal "e1" samplePicked true sampleFileWorld).
Proof.
  apply (runUpload_stores_what_the_sequential_upload_stored Float64 floatMax showDecimal
           0x1.47ae147ae147bp-4%float 0x1.c28f5c28f5c29p-1%float 0x1.0a3d70a3d70a4p-1%float
           "e1" samplePicked sampleSettingsPlain true sampleFileWorld [1; 0]);
    [reflexivity | intros i; reflexivity | reflexivity].
Defined.

(** ** The ingest page *)

Section IngestFacts.
Context {N : JSNumber}.
Variables (targets : list Row) (world : nat -> ingestWorld).

(** The state after the workers of [order] have completed. *)
Lemma rowDone_fold (order : list nat) : forall s,
  let s' := fold_left
              (fun s i => match targets !! i with
                          | Some r => rowDone world r i s
                          | None => s
                          end) order s in
  okRows s' = okRows s + length (List.filter (fun x => resolvedOk (snd x)) (outcomesAt targets world order)) /\
  failRows s' =
    failRows s + length (List.filter (fun x => negb (resolvedOk (snd x))) (outcomesAt targets world order)) /\
  patched s' =
    patched s ++ map (fun x => (rowId (fst x), shownStatus (snd x))) (outcomesAt targets world order) /\
  (forall w, In w (written s') -> In w (written s) \/
     exists i r, In i order /\ targets !! i = Some r /\ In w (fst (ingestOne (world i) r))).
Proof.
  induction order as [|i order IH]; intros s; cbn [fold_left]; cbv zeta.
  - cbn. rewrite app_nil_r. repeat split; try lia. intros w Hw. now left.
  - unfold outcomesAt. cbn [omap list_omap]. fold (outcomesAt targets world order).
    destruct (targets !! i) as [r|] eqn:Hr; cbn [fmap option_fmap option_map].
    + specialize (IH (rowDone world r i s)). cbv zeta in IH.
      destruct IH as (Hok & Hfail & Hpatched & Hwritten).
      rewrite Hok, Hfail, Hpatched. unfold rowDone in *.
      destruct (ingestOne (world i) r) as [writes [[|st]|]] eqn:Hone;
        cbn [snd fst okRows failRows patched written shownStatus resolvedOk length
             List.filter negb map] in *;
        rewrite <- app_assoc; cbn [app]; (split; [lia|]); (split; [lia|]);
        (split; [reflexivity|]); intros w Hw;
        (destruct (Hwritten w Hw) as [Hold | (j & rj & Hj & Hrj & Hwj)];
         [apply in_app_or in Hold as [Hold | Hnew];
          [now left | right; exists i, r; rewrite Hone; split; [now left | now split]]
         | right; exists j, rj; split; [now right | now split]]).
    + destruct (IH s) as (Hok & Hfail & Hpatched & Hwritten).
      split; [assumption|]. split; [assumption|]. split; [assumption|].
      intros w Hw. destruct (Hwritten w Hw) as [Hold | (j & rj & Hj & Hrj & Hwj)];
        [now left | right; exists j, rj; split; [now right | now split]].
Qed.

Lemma length_filter_Permutation {A : Type} (f : A -> bool) (l l' : list A) :
  l ≡ₚ l' -> length (List.filter f l) = length (List.filter f l').
Proof.
  induction 1 as [|x l l' _ IH|x y l|l l' l'' _ IH1 _ IH2]; cbn.
  - reflexivity.
  - destruct (f x); cbn; now rewrite IH.
  - destruct (f x), (f y); reflexivity.
  - now rewrite IH1.
Qed.

Lemma omap_lookup_seq {A B : Type} (g : nat -> A -> B) (l : list A) : forall rest,
  omap (fun i => g i <$> (l ++ rest) !! i) (seq 0 (length l)) = imap g l.
Proof.
  induction l as [|x l IH] using rev_ind; intros rest; [reflexivity|].
  rewrite length_app, Nat.add_1_r, seq_S, omap_app, imap_app, <- app_assoc.
  rewrite IH. f_equal. cbn [Nat.add omap list_omap app imap].
  rewrite lookup_app_r by lia. rewrite Nat.sub_diag, Nat.add_0_r. reflexivity.
Qed.

Lemma outcomesAt_all :
  outcomesAt targets world (seq 0 (length targets)) =
  imap (fun i r => (r, snd (ingestOne (world i) r))) targets.
Proof.
  unfold outcomesAt.
  rewrite <- (omap_lookup_seq (fun i r => (r, snd (ingestOne (world i) r))) targets []).
  now rewrite app_nil_r.
Qed.

Lemma ingestOne_writes (iw : ingestWorld) (r : Row) (w : docWrite) :
  In w (fst (ingestOne iw r)) ->
  writeId w = rowId r /\
  (writeStatus w = StatusEmbedded ->
   exists emb, embedResult iw = EmbedOk emb /\ writeEmbedding w = Some emb /\
               snd (ingestOne iw r) = Some IngestOk).
Proof.
  unfold ingestOne. destruct (resetOk iw); cbn [negb fst]; [|intros []].
  destruct (embedResult iw) as [emb | code]; destruct (writeOk iw); cbn [negb fst snd].
  - intros [<- | [<- | []]]; cbn; (split; [reflexivity|]); [discriminate|].
    intros _. exists emb. auto.
  - intros [<- | []]; cbn. split; [reflexivity | discriminate].
  - intros [<- | [<- | []]]; cbn; (split; [reflexivity|]); [discriminate|].
    destruct code; discriminate.
  - intros [<- | []]; cbn. split; [reflexivity | discriminate].
Qed.
End IngestFacts.

